(** * WebM / DASH player: EBML decoding, cue index and stream queues

    A shallow embedding of the parts of [shared/webm_parser.js] and
    [adaptive/dash_player_deprecated.js] that the specification's testable
    properties talk about, together with the theorems that settle them.

    Conventions.
    - A [Uint8Array] is a [list byte]; reading outside of it yields
      JavaScript's [undefined], which the bit operators coerce to 0.
    - JavaScript's bit operators work on 32-bit signed integers; the
      wrap-around is written out with [toInt32].
    - Byte offsets, sizes and sequence numbers are integers ([Z]).
    - Media times are modelled as exact rationals ([Q]) standing for the
      IEEE doubles of the source. *)

From Stdlib Require Import ZArith List Bool Lia String QArith Qfield Lqa Sorted.
From Stdlib Require Import Strings.Byte.
Import ListNotations.
Open Scope Z_scope.

(** ** JavaScript number and typed-array primitives *)

Module Js.

Definition Uint8Array := list byte.

Definition byteVal (b : byte) : Z := Z.of_N (Byte.to_N b).

(** [buf[i]]: [None] is [undefined]. *)
Definition get (buf : Uint8Array) (i : Z) : option Z :=
  if i <? 0 then None else option_map byteVal (nth_error buf (Z.to_nat i)).

Definition length (buf : Uint8Array) : Z := Z.of_nat (List.length buf).

(** ToInt32 on an integral number. *)
Definition toInt32 (z : Z) : Z := (z + 2 ^ 31) mod 2 ^ 32 - 2 ^ 31.

(** ToInt32 on a value that may be [undefined] (which becomes NaN, then 0). *)
Definition int32_of (v : option Z) : Z :=
  match v with Some z => toInt32 z | None => 0 end.

Definition band (a b : Z) : Z := Z.land (toInt32 a) (toInt32 b).
Definition bor (a b : Z) : Z := Z.lor (toInt32 a) (toInt32 b).
Definition bnot (a : Z) : Z := Z.lnot (toInt32 a).
Definition shl (a n : Z) : Z := toInt32 (Z.shiftl (toInt32 a) (n mod 32)).
Definition sar (a n : Z) : Z := Z.shiftr (toInt32 a) (n mod 32).

(** How [subarray] reads an index: negative values count from the end,
    and the result is clamped to the array. *)
Definition clampIndex (len i : Z) : Z :=
  if i <? 0 then Z.max (len + i) 0 else Z.min i len.

(** [buf.subarray(begin, end)]. *)
Definition subarray (buf : Uint8Array) (b e : Z) : Uint8Array :=
  let len := length buf in
  let b' := clampIndex len b in
  let e' := clampIndex len e in
  firstn (Z.to_nat (e' - b')) (skipn (Z.to_nat b') buf).

End Js.

(** ** EbmlParser *)

Module EbmlParser.
Import Js.

(** The status objects returned by the static parse functions:
    [{status: STATUS_OK, bytesUsed, value}],
    [{status: STATUS_NEED_MORE_DATA, bytesNeeded}] and
    [{status: STATUS_INVALID_DATA}]. *)
Inductive Status (A : Type) : Type :=
| Ok (bytesUsed : Z) (value : A)
| NeedMoreData (bytesNeeded : Z)
| InvalidData.
Arguments Ok {A} bytesUsed value.
Arguments NeedMoreData {A} bytesNeeded.
Arguments InvalidData {A}.

Definition MAX_ELEMENT_HEADER_SIZE : Z := 12.

(** The first loop of [parseNum_]: [n] iterations are left, [i] is the
    loop counter.  Returns [(num, extraBytes)] on [break].  [ch] is the
    value read at [buf[start]]; when the first byte is not masked [num]
    is [ch] itself.  An [undefined] [ch] can only pass the test once
    [mask] has reached 0, that is with [extraBytes >= 8], and is then
    coerced by the [<<] of the second loop, so it is kept as 0 here. *)
Fixpoint findMarker (ch : option Z) (maskFirstByte : bool)
         (mask i : Z) (n : nat) : option (Z * Z) :=
  match n with
  | O => None
  | S n' =>
      if band (int32_of ch) mask =? mask
      then Some (if maskFirstByte then band (int32_of ch) (bnot mask)
                 else int32_of ch, i)
      else findMarker ch maskFirstByte (sar mask 1) (i + 1) n'
  end.

(** The second loop of [parseNum_]: [n] extra bytes are left to read. *)
Fixpoint readExtra (buf : Uint8Array) (start num bytesUsed : Z) (n : nat)
  : Z * Z :=
  match n with
  | O => (num, bytesUsed)
  | S n' =>
      readExtra buf start
        (bor (shl num 8) (band 255 (int32_of (get buf (start + bytesUsed)))))
        (bytesUsed + 1) n'
  end.

Definition parseNum_ (buf : Uint8Array) (start size maxBytes : Z)
           (maskFirstByte : bool) : Status Z :=
  if size <=? 0 then NeedMoreData 1
  else
    match findMarker (get buf start) maskFirstByte 128 0 (Z.to_nat maxBytes) with
    | None => InvalidData
    | Some (num, extraBytes) =>
        if 1 + extraBytes >? size
        then NeedMoreData (1 + extraBytes - size)
        else
          let '(num', bytesUsed) :=
            readExtra buf start num 1 (Z.to_nat extraBytes) in
          Ok bytesUsed num'
    end.

(** The value of a successful [parseElementHeader]: the empty header
    [{status: STATUS_OK, bytesUsed: 0}] carries neither id nor size. *)
Record Header : Type := mkHeader { id : Z; elementSize : Z }.

Definition parseElementHeader (buf : Uint8Array) (start size : Z)
  : Status (option Header) :=
  if size =? 0 then Ok 0 None
  else
    match parseNum_ buf start size 4 false with
    | NeedMoreData n => NeedMoreData n
    | InvalidData => InvalidData
    | Ok bytesUsed idv =>
        if bytesUsed <=? 0 then InvalidData
        else
          match parseNum_ buf (start + bytesUsed) (size - bytesUsed) 8 true with
          | NeedMoreData n => NeedMoreData n
          | InvalidData => InvalidData
          | Ok bytesUsed2 sz =>
              if bytesUsed2 <=? 0 then InvalidData
              else Ok (bytesUsed + bytesUsed2)
                      (Some {| id := idv; elementSize := sz |})
          end
    end.

(** The loop of [parseUInt]: [val <<= 8; val |= buf[start + i] & 0xff]. *)
Fixpoint readUInt (buf : Uint8Array) (start val i : Z) (n : nat) : Z :=
  match n with
  | O => val
  | S n' =>
      readUInt buf start
        (bor (shl val 8) (band (int32_of (get buf (start + i))) 255))
        (i + 1) n'
  end.

Definition parseUInt (buf : Uint8Array) (start size : Z) : Status Z :=
  if (size <? 1) || (size >? 8) then InvalidData
  else Ok size (readUInt buf start 0 0 (Z.to_nat size)).

(** *** Reference notions used to state the properties *)

(** Position of the run-length marker: the number of leading zero bits of
    the first byte. *)
Definition markerIndex (b : Z) : option Z :=
  find (fun i => Z.testbit b (7 - i)) [0; 1; 2; 3; 4; 5; 6; 7].

(** Number of bytes the variable-length number starting at [buf[start]]
    occupies, when its marker bit lies within the first [maxBytes] bits. *)
Definition requiredBytes (buf : Uint8Array) (start maxBytes : Z) : option Z :=
  match get buf start with
  | None => None
  | Some b =>
      match markerIndex b with
      | Some i => if i <? maxBytes then Some (1 + i) else None
      | None => None
      end
  end.

(** Big-endian unsigned value of a byte string. *)
Definition beUInt (bytes : list byte) : Z :=
  fold_left (fun acc b => acc * 256 + byteVal b) bytes 0.

(** The [size] bytes of [buf] that start at offset [start]. *)
Definition slice (buf : Uint8Array) (start size : Z) : list byte :=
  firstn (Z.to_nat size) (skipn (Z.to_nat start) buf).

(** One step of the big-endian accumulation of [beUInt]. *)
Definition beStep (acc : Z) (b : byte) : Z := acc * 256 + byteVal b.

End EbmlParser.

(** ** WebMParser *)

Module WebMParser.
Import Js.

(** A status object [{status, reason}] / [{status, value}] of the WebM
    layer, or the TypeError JavaScript raises on a property access
    through [null] / [undefined]. *)
Inductive Result (A : Type) : Type :=
| Value (value : A)
| Invalid (reason : string)
| TypeError.
Arguments Value {A} value.
Arguments Invalid {A} reason.
Arguments TypeError {A}.

Record TrackPosition : Type :=
  mkTrackPosition { cueTrack : Z; cueClusterPos : Z }.

(** A parsed CuePoint: [cueTime] already in seconds, [cueClusterPos]
    already adjusted to the Segment offset. *)
Record CuePoint : Type :=
  mkCuePoint { cueTime : Q; trackPosition : TrackPosition }.

Definition clusterPos (c : CuePoint) : Z := cueClusterPos (trackPosition c).

(** The SeekHead object: element name to file offset. *)
Definition SeekHead := list (string * Z).

Fixpoint seekHeadGet (sh : SeekHead) (name : string) : option Z :=
  match sh with
  | [] => None
  | (k, v) :: sh' => if String.eqb k name then Some v else seekHeadGet sh' name
  end.

Record t : Type := mkParser {
  segmentOffset_ : Z;
  seekHead_ : option SeekHead;
  infoElement_ : option Uint8Array;
  tracksElement_ : option Uint8Array;
  timecodeScale_ : Z;
  duration_ : Q;
  cues_ : option (list CuePoint)
}.

(** [new WebMParser()]. *)
Definition create : t :=
  {| segmentOffset_ := -1;
     seekHead_ := None;
     infoElement_ := None;
     tracksElement_ := None;
     timecodeScale_ := 1000000;
     duration_ := (-1)%Q;
     cues_ := None |}.

Definition set_segmentOffset (p : t) (v : Z) : t :=
  {| segmentOffset_ := v;
     seekHead_ := seekHead_ p;
     infoElement_ := infoElement_ p;
     tracksElement_ := tracksElement_ p;
     timecodeScale_ := timecodeScale_ p;
     duration_ := duration_ p;
     cues_ := cues_ p |}.

Definition set_cues (p : t) (v : option (list CuePoint)) : t :=
  {| segmentOffset_ := segmentOffset_ p;
     seekHead_ := seekHead_ p;
     infoElement_ := infoElement_ p;
     tracksElement_ := tracksElement_ p;
     timecodeScale_ := timecodeScale_ p;
     duration_ := duration_ p;
     cues_ := v |}.

Definition set_duration (p : t) (v : Q) : t :=
  {| segmentOffset_ := segmentOffset_ p;
     seekHead_ := seekHead_ p;
     infoElement_ := infoElement_ p;
     tracksElement_ := tracksElement_ p;
     timecodeScale_ := timecodeScale_ p;
     duration_ := v;
     cues_ := cues_ p |}.

(** [setSegmentOffset]: the offset is only stored when it is positive. *)
Definition setSegmentOffset (p : t) (offset : Z) : t :=
  if offset >? 0 then set_segmentOffset p offset else p.

Definition setDuration (p : t) (duration : Q) : t := set_duration p duration.

Definition getCues (p : t) : option (list CuePoint) := cues_ p.
Definition getSeekHead (p : t) : option SeekHead := seekHead_ p.

(** *** parseSegmentHeaders *)

(** What the Segment-level list walk hands back in [res.value]. *)
Record SegmentInfo : Type :=
  mkSegmentInfo { timecodeScale : Z; duration : Q }.

Record SegmentValue : Type :=
  mkSegmentValue { seekHead : option SeekHead; info : option SegmentInfo }.

(** The fields of the parser that the element handlers of the
    Segment-level walk store into ([infoElement_] and [tracksElement_]
    through [storeElementFunc]). *)
Definition store_elements (p : t) (e : option Uint8Array * option Uint8Array)
  : t :=
  {| segmentOffset_ := segmentOffset_ p;
     seekHead_ := seekHead_ p;
     infoElement_ := fst e;
     tracksElement_ := snd e;
     timecodeScale_ := timecodeScale_ p;
     duration_ := duration_ p;
     cues_ := cues_ p |}.

Definition set_segment_fields (p : t) (sh : option SeekHead)
           (scale : Z) (dur : Q) : t :=
  {| segmentOffset_ := segmentOffset_ p;
     seekHead_ := sh;
     infoElement_ := infoElement_ p;
     tracksElement_ := tracksElement_ p;
     timecodeScale_ := scale;
     duration_ := dur;
     cues_ := cues_ p |}.

Section SegmentHeaders.

(** [parseList_(SEGMENT_IDS_, buf, start, size, {})], the generic walk
    over the children of the Segment with the handlers [parseSeekHead_],
    [parseInfo_] and [parseTracks_].  It reads [segmentOffset_] (the
    seek positions are made absolute with it) and stores the Info and
    Tracks element bytes; the walk itself is not modelled, it is a
    parameter of this section that receives the parser and returns the
    status object and the two stored elements. *)
Variable parseList_SEGMENT :
  t -> Uint8Array -> Z -> Z ->
  EbmlParser.Status SegmentValue * (option Uint8Array * option Uint8Array).

Definition SEGMENT_ID : Z := 408125543. (* 0x18538067 *)

Definition parseSegmentHeaders (p : t) (buf : Uint8Array)
           (start size bufOffset : Z)
  : Result (EbmlParser.Status unit) * t :=
  match EbmlParser.parseElementHeader buf start size with
  | EbmlParser.NeedMoreData n => (Value (EbmlParser.NeedMoreData n), p)
  | EbmlParser.InvalidData => (Value EbmlParser.InvalidData, p)
  | EbmlParser.Ok bytesUsed hdr =>
      (* [res.id] of the empty header is [undefined], never the id *)
      if negb (match hdr with
               | Some h => EbmlParser.id h =? SEGMENT_ID
               | None => false
               end)
      then (Value EbmlParser.InvalidData, p)
      else
        let readOffset := start + bytesUsed in
        let p1 := if segmentOffset_ p =? -1
                  then set_segmentOffset p readOffset else p in
        let '(res, stored) :=
          parseList_SEGMENT p1 buf readOffset (size - bytesUsed) in
        let p2 := store_elements p1 stored in
        match res with
        | EbmlParser.NeedMoreData n => (Value (EbmlParser.NeedMoreData n), p2)
        | EbmlParser.InvalidData => (Value EbmlParser.InvalidData, p2)
        | EbmlParser.Ok used v =>
            let readOffset' := readOffset + used in
            match seekHead v with
            | None =>
                (* this.seekHead_['CLUSTER'] on undefined *)
                (TypeError, set_segment_fields p2 None
                              (timecodeScale_ p2) (duration_ p2))
            | Some sh =>
                let sh' := ("CLUSTER"%string, readOffset' + bufOffset)
                             :: sh in
                match info v with
                | None =>
                    (TypeError, set_segment_fields p2 (Some sh')
                                  (timecodeScale_ p2) (duration_ p2))
                | Some inf =>
                    let scale := timecodeScale inf in
                    let timeScale := (inject_Z scale / 1000000000)%Q in
                    let dur :=
                      if Qlt_le_dec 0 (duration inf)
                      then if Qeq_bool (duration_ p2) (-1)
                           then (duration inf * timeScale)%Q
                           else duration_ p2
                      else duration_ p2 in
                    (Value (EbmlParser.Ok (readOffset' - start) tt),
                     set_segment_fields p2 (Some sh') scale dur)
                end
            end
        end
  end.

End SegmentHeaders.

(** *** squishCues *)

(** [cues.splice(k, 1)]. *)
Definition splice1 (cues : list CuePoint) (k : nat) : list CuePoint :=
  firstn k cues ++ skipn (S k) cues.

(** The loop of [squishCues].  Every iteration either removes the cue
    after [i] or advances [i]; [fuel] bounds the number of iterations and
    [None] is returned when it runs out (see [squishLoop_total]: it never
    does from [squishCues]). *)
Fixpoint squishLoop (fuel : nat) (cues : list CuePoint) (i : nat)
  : option (list CuePoint) :=
  match fuel with
  | O => None
  | S fuel' =>
      if Z.of_nat i <? Z.of_nat (List.length cues) - 1
      then
        match nth_error cues i, nth_error cues (S i) with
        | Some cueCurr, Some cueNext =>
            if clusterPos cueCurr =? clusterPos cueNext
            then squishLoop fuel' (splice1 cues (S i)) i
            else squishLoop fuel' cues (S i)
        | _, _ => None
        end
      else Some cues
  end.

(** [squishCues] returns its status object and the updated parser;
    the outer [option] is [None] only if the loop does not finish. *)
Definition squishCues (p : t) : option (Result bool * t) :=
  match cues_ p with
  | None => Some (Invalid "Cues is not valid.", p)
  | Some cues =>
      match squishLoop (S (List.length cues)) cues 0 with
      | Some cues' => Some (Value true, set_cues p (Some cues'))
      | None => None
      end
  end.

(** *** Reference notions used to state the properties *)

(** Keep a cue exactly when its cluster offset differs from the offset of
    the cue retained last. *)
Fixpoint squishFrom (last : CuePoint) (rest : list CuePoint)
  : list CuePoint :=
  match rest with
  | [] => []
  | c :: rest' =>
      if clusterPos last =? clusterPos c
      then squishFrom last rest'
      else c :: squishFrom c rest'
  end.

Definition squish (cues : list CuePoint) : list CuePoint :=
  match cues with
  | [] => []
  | c :: rest => c :: squishFrom c rest
  end.

Definition offsets (cues : list CuePoint) : list Z := map clusterPos cues.

(** Every cue is no earlier than the one before it. *)
Definition timeOrdered (cues : list CuePoint) : Prop :=
  Sorted (fun a b => (cueTime a <= cueTime b)%Q) cues.

(** Every cue's cluster offset is no smaller than the one before it. *)
Definition offsetOrdered (cues : list CuePoint) : Prop :=
  Sorted (fun a b => clusterPos a <= clusterPos b) cues.

(** No cue has the cluster offset of the cue right before it. *)
Definition adjacentDistinct (cues : list CuePoint) : Prop :=
  Sorted (fun a b => clusterPos a <> clusterPos b) cues.

(** *** parseElement and parseSimpleBlock_ *)

(** [parseElement]: the whole element (header and payload) as a new
    array, once all of it is inside the window. *)
Definition parseElement (buf : Uint8Array) (start size id : Z)
  : EbmlParser.Status Uint8Array :=
  match EbmlParser.parseElementHeader buf start size with
  | EbmlParser.NeedMoreData n => EbmlParser.NeedMoreData n
  | EbmlParser.InvalidData => EbmlParser.InvalidData
  | EbmlParser.Ok bytesUsed hdr =>
      match hdr with
      | None => EbmlParser.InvalidData   (* [res.id] is [undefined] *)
      | Some h =>
          if negb (EbmlParser.id h =? id) then EbmlParser.InvalidData
          else
            let elementSize := bytesUsed + EbmlParser.elementSize h in
            if elementSize >? size
            then EbmlParser.NeedMoreData (elementSize - size)
            else EbmlParser.Ok elementSize
                   (subarray buf start (start + elementSize))
      end
  end.

(** The value object of [parseSimpleBlock_]. *)
Record SimpleBlock : Type := mkSimpleBlock {
  trackNum : Z;
  timecode : Z;
  flags : Z;
  lacing : Z;
  blockOffset : Z;
  dataOffset : Z;
  dataSize : Z
}.

Definition parseSimpleBlock_ (buf : Uint8Array)
           (start size elementStart : Z) : EbmlParser.Status SimpleBlock :=
  if size <? 4 then EbmlParser.InvalidData
  else if negb (band (int32_of (get buf start)) 128 =? 128)
  then EbmlParser.InvalidData
  else
    let fl := band (int32_of (get buf (start + 3))) 255 in
    let dataOff := start + 4 in
    EbmlParser.Ok size
      {| trackNum := band (int32_of (get buf start)) 127;
         timecode := bor (shl (int32_of (get buf (start + 1))) 8)
                         (int32_of (get buf (start + 2)));
         flags := fl;
         lacing := band (sar fl 1) 3;
         blockOffset := elementStart;
         dataOffset := dataOff;
         dataSize := size - (dataOff - start) |}.

End WebMParser.

(** ** WebMFileParser *)

Module WebMFileParser.
Import Js WebMParser.

(** Only the [parser] field matters here; the [HttpFile] cursor is an
    external collaborator. *)
Record t : Type := mkFile { parser : option WebMParser.t }.

(** [new WebMFileParser(url)]. *)
Definition create : t := {| parser := Some WebMParser.create |}.

Definition canSeek (f : t) : bool :=
  match parser f with
  | None => false
  | Some p => match getCues p with None => false | Some _ => true end
  end.

Record CueDesc : Type :=
  mkCueDesc { time : Q; offset : Z; size : Z; endTime : Q }.

(** The scan [while (cueEnd < cues.length && startOffset ==
    cues[cueEnd].trackPosition.cueClusterPos) cueEnd++], by recursion on
    the number [n] of indices from [cueEnd] to the end of the list. *)
Fixpoint scanCueEnd (cues : list CuePoint) (startOffset : Z)
         (cueEnd : nat) (n : nat) : nat :=
  match n with
  | O => cueEnd
  | S n' =>
      match nth_error cues cueEnd with
      | Some c =>
          if startOffset =? clusterPos c
          then scanCueEnd cues startOffset (S cueEnd) n'
          else cueEnd
      | None => cueEnd
      end
  end.

Definition getCueDescFromCue_ (f : t) (index : Z) : Result CueDesc :=
  match parser f with
  | None => TypeError
  | Some p =>
      match getCues p with
      | None => Invalid "Cues is not valid."
      | Some [] => Invalid "Cues is not valid."
      | Some cues =>
          if index >=? Z.of_nat (List.length cues)
          then Invalid "Cues index is out of bounds."
          else if index <? 0 then TypeError
          else
            match nth_error cues (Z.to_nat index) with
            | None => TypeError
            | Some cue =>
                let startOffset := clusterPos cue in
                let cueEnd :=
                  scanCueEnd cues startOffset (S (Z.to_nat index))
                    (List.length cues - S (Z.to_nat index)) in
                match nth_error cues cueEnd with
                | Some next =>
                    Value {| time := cueTime cue;
                             offset := startOffset;
                             size := clusterPos next - startOffset;
                             endTime := cueTime next |}
                | None =>
                    (* On the last cue element. *)
                    let size :=
                      match getSeekHead p with
                      | Some sh =>
                          match seekHeadGet sh "CUES" with
                          | Some c => if c >? startOffset
                                      then c - startOffset else -1
                          | None => -1
                          end
                      | None => -1
                      end in
                    Value {| time := cueTime cue;
                             offset := startOffset;
                             size := size;
                             endTime := duration_ p |}
                end
            end
      end
  end.

(** The bisection [while (l + 1 < r)] of [getCueIndexFromTime_];
    [Math.round((r - l) / 2)] is [(r - l + 1) / 2] on integers.
    [None] when [fuel] runs out (it never does, see
    [bisectTime_total]). *)
Fixpoint bisectTime (fuel : nat) (cues : list CuePoint) (time : Q)
         (l r : Z) : option (Result Z) :=
  match fuel with
  | O => None
  | S fuel' =>
      if l + 1 <? r
      then
        let m := l + (r - l + 1) / 2 in
        if m <? 0 then Some TypeError
        else
          match nth_error cues (Z.to_nat m) with
          | None => Some TypeError
          | Some c =>
              if Qle_bool (cueTime c) time
              then bisectTime fuel' cues time m r
              else bisectTime fuel' cues time l m
          end
      else Some (Value l)
  end.

Definition getCueIndexFromTime_ (f : t) (time : Q) : option (Result Z) :=
  match parser f with
  | None => Some TypeError
  | Some p =>
      match getCues p with
      | None => Some (Invalid "Cues is not valid.")
      | Some [] => Some (Invalid "Cues is not valid.")
      | Some cues =>
          let r := Z.of_nat (List.length cues) - 1 in
          match nth_error cues (Z.to_nat r) with
          | None => Some TypeError
          | Some last =>
              let l := if Qle_bool (cueTime last) time then r else 0 in
              bisectTime (List.length cues) cues time l r
          end
      end
  end.

(** The status object of [bufferSizeAfterTime]. *)
Record Projection : Type := mkProjection { seconds : Q; buffer : Q }.

Definition timeToDownload (cueBytes kbps : Q) : Q :=
  ((cueBytes * 8) / 1000) / kbps.

(** The [while (index < cues.length && secDownloading < timeToSearch)]
    loop of [bufferSizeAfterTime], by recursion on the number [n] of
    indices from [index] to the end of the cue list.  Returns
    [(secDownloading, secDownloaded)]. *)
Fixpoint walkCues (f : t) (timeToSearch kbps : Q) (n : nat) (index : Z)
         (secDownloading secDownloaded : Q) : Result (Q * Q) :=
  match n with
  | O => Value (secDownloading, secDownloaded)
  | S n' =>
      if Qlt_le_dec secDownloading timeToSearch
      then
        match getCueDescFromCue_ f index with
        | TypeError => TypeError
        | Invalid reason => Invalid reason
        | Value currentCueDesc =>
            let cueBytes := inject_Z (size currentCueDesc) in
            let cueSec := endTime currentCueDesc - time currentCueDesc in
            let secDownloading' :=
              secDownloading + timeToDownload cueBytes kbps in
            let secDownloaded' := secDownloaded + cueSec in
            if Qlt_le_dec timeToSearch secDownloading'
            then Value (timeToSearch,
                        (timeToSearch / secDownloading') * secDownloaded')
            else walkCues f timeToSearch kbps n' (index + 1)%Z
                   secDownloading' secDownloaded'
        end
      else Value (secDownloading, secDownloaded)
  end%Q.

Definition cuesLength (f : t) : Z :=
  match parser f with
  | Some p => match getCues p with
              | Some cues => Z.of_nat (List.length cues)
              | None => 0
              end
  | None => 0
  end.

Definition bufferSizeAfterTime (f : t) (time timeToSearch kbps buffer : Q)
  : option (Result Projection) :=
  match getCueIndexFromTime_ f time with
  | None => None
  | Some TypeError => Some TypeError
  | Some (Invalid reason) => Some (Invalid reason)
  | Some (Value startingIndex) =>
      match getCueDescFromCue_ f startingIndex with
      | TypeError => Some TypeError
      | Invalid reason => Some (Invalid reason)
      | Value currentCueDesc =>
          (* Check for non cue start time. *)
          let '(secDownloading, secDownloaded, index) :=
            if Qlt_le_dec (WebMFileParser.time currentCueDesc) time
            then
              let cueSec := endTime currentCueDesc - time in
              let percent :=
                cueSec / (endTime currentCueDesc
                          - WebMFileParser.time currentCueDesc) in
              let cueBytes := inject_Z (size currentCueDesc) * percent in
              let secDownloading := 0 + timeToDownload cueBytes kbps in
              let secDownloaded := 0 + cueSec in
              if Qlt_le_dec timeToSearch secDownloading
              then (timeToSearch,
                    (timeToSearch / secDownloading) * secDownloaded,
                    (startingIndex + 1)%Z)
              else (secDownloading, secDownloaded, (startingIndex + 1)%Z)
            else (0, 0, startingIndex) in
          match parser f with
          | None => Some TypeError
          | Some p =>
              match getCues p with
              | None => Some (Invalid "Cues is not valid.")
              | Some [] => Some (Invalid "Cues is not valid.")
              | Some cues =>
                  match walkCues f timeToSearch kbps
                          (Z.to_nat (Z.of_nat (List.length cues) - index)%Z)
                          index secDownloading secDownloaded with
                  | TypeError => Some TypeError
                  | Invalid reason => Some (Invalid reason)
                  | Value (secDownloading', secDownloaded') =>
                      Some (Value
                              {| seconds := secDownloading';
                                 buffer := secDownloaded' - secDownloading'
                                           + buffer |})
                  end
              end
          end
      end
  end%Q.

(** *** Reference notions used to state the properties *)

(** The size reported for a cue that no cue with a different offset
    follows: the distance to the start of the Cues element when the
    SeekHead records one beyond [startOffset], unknown (-1) otherwise. *)
Definition lastCueSize (p : WebMParser.t) (startOffset : Z) : Z :=
  match getSeekHead p with
  | Some sh =>
      match seekHeadGet sh "CUES" with
      | Some c => if c >? startOffset then c - startOffset else -1
      | None => -1
      end
  | None => -1
  end.

(** First index after [i] whose cluster offset differs from that of
    [cues[i]]. *)
Fixpoint firstDistinct (startOffset : Z) (rest : list CuePoint) (j : nat)
  : option (nat * CuePoint) :=
  match rest with
  | [] => None
  | c :: rest' =>
      if startOffset =? clusterPos c
      then firstDistinct startOffset rest' (S j)
      else Some (j, c)
  end.

Definition nextDistinct (cues : list CuePoint) (i : nat)
  : option (nat * CuePoint) :=
  match nth_error cues i with
  | Some cue => firstDistinct (clusterPos cue) (skipn (S i) cues) (S i)
  | None => None
  end.

(** *** Where the time-bounded projection stops *)

(** [walkCues] together with the index of the cue during which
    [secDownloading] passed [timeToSearch]; [None] when the loop ended
    without passing it.  The first two components are those of
    [walkCues] (see [walkCuesStop_walkCues]). *)
Fixpoint walkCuesStop (f : t) (timeToSearch kbps : Q) (n : nat) (index : Z)
         (secDownloading secDownloaded : Q) : Result (Q * Q * option Z) :=
  match n with
  | O => Value (secDownloading, secDownloaded, None)
  | S n' =>
      if Qlt_le_dec secDownloading timeToSearch
      then
        match getCueDescFromCue_ f index with
        | TypeError => TypeError
        | Invalid reason => Invalid reason
        | Value currentCueDesc =>
            let cueBytes := inject_Z (size currentCueDesc) in
            let cueSec := endTime currentCueDesc - time currentCueDesc in
            let secDownloading' :=
              secDownloading + timeToDownload cueBytes kbps in
            let secDownloaded' := secDownloaded + cueSec in
            if Qlt_le_dec timeToSearch secDownloading'
            then Value (timeToSearch,
                        (timeToSearch / secDownloading') * secDownloaded',
                        Some index)
            else walkCuesStop f timeToSearch kbps n' (index + 1)%Z
                   secDownloading' secDownloaded'
        end
      else Value (secDownloading, secDownloaded, None)
  end%Q.

(** The cue during which [bufferSizeAfterTime] reaches the horizon: the
    index of the cue whose download makes [secDownloading] pass
    [timeToSearch] (the starting cue when that happens in the part of it
    that follows [time]), [None] when the projection ends without
    passing the horizon.  It follows [bufferSizeAfterTime] step by step
    and is defined whenever that returns a status (see
    [horizonCue_bufferSizeAfterTime]). *)
Definition horizonCue (f : t) (time timeToSearch kbps : Q)
  : option (Result (option Z)) :=
  match getCueIndexFromTime_ f time with
  | None => None
  | Some TypeError => Some TypeError
  | Some (Invalid reason) => Some (Invalid reason)
  | Some (Value startingIndex) =>
      match getCueDescFromCue_ f startingIndex with
      | TypeError => Some TypeError
      | Invalid reason => Some (Invalid reason)
      | Value currentCueDesc =>
          let '(secDownloading, secDownloaded, index, first) :=
            if Qlt_le_dec (WebMFileParser.time currentCueDesc) time
            then
              let cueSec := endTime currentCueDesc - time in
              let percent :=
                cueSec / (endTime currentCueDesc
                          - WebMFileParser.time currentCueDesc) in
              let cueBytes := inject_Z (size currentCueDesc) * percent in
              let secDownloading := 0 + timeToDownload cueBytes kbps in
              let secDownloaded := 0 + cueSec in
              if Qlt_le_dec timeToSearch secDownloading
              then (timeToSearch,
                    (timeToSearch / secDownloading) * secDownloaded,
                    (startingIndex + 1)%Z, Some startingIndex)
              else (secDownloading, secDownloaded, (startingIndex + 1)%Z,
                    None)
            else (0, 0, startingIndex, None) in
          match parser f with
          | None => Some TypeError
          | Some p =>
              match getCues p with
              | None => Some (Invalid "Cues is not valid.")
              | Some [] => Some (Invalid "Cues is not valid.")
              | Some cues =>
                  match walkCuesStop f timeToSearch kbps
                          (Z.to_nat (Z.of_nat (List.length cues) - index)%Z)
                          index secDownloading secDownloaded with
                  | TypeError => Some TypeError
                  | Invalid reason => Some (Invalid reason)
                  | Value (_, _, stop) =>
                      Some (Value match first with
                                  | Some i => Some i
                                  | None => stop
                                  end)
                  end
              end
          end
      end
  end%Q.

(** *** Lookups by offset and by time *)

(** The bisection of [getCueDescFromOffset]; as for [bisectTime], [None]
    only when [fuel] runs out. *)
Fixpoint bisectOffset (fuel : nat) (cues : list CuePoint) (target : Z)
         (l r : Z) : option (Result Z) :=
  match fuel with
  | O => None
  | S fuel' =>
      if l + 1 <? r
      then
        let m := l + (r - l + 1) / 2 in
        if m <? 0 then Some TypeError
        else
          match nth_error cues (Z.to_nat m) with
          | None => Some TypeError
          | Some c =>
              if clusterPos c <=? target
              then bisectOffset fuel' cues target m r
              else bisectOffset fuel' cues target l m
          end
      else Some (Value l)
  end.

Definition getCueDescFromOffset (f : t) (target : Z)
  : option (Result CueDesc) :=
  match parser f with
  | None => Some TypeError
  | Some p =>
      match getCues p with
      | None => Some (Invalid "Cues is not valid.")
      | Some [] => Some (Invalid "Cues is not valid.")
      | Some cues =>
          let r := Z.of_nat (List.length cues) - 1 in
          match nth_error cues (Z.to_nat r) with
          | None => Some TypeError
          | Some last =>
              let l := if target >=? clusterPos last then r else 0 in
              match bisectOffset (List.length cues) cues target l r with
              | None => None
              | Some (Value i) => Some (getCueDescFromCue_ f i)
              | Some (Invalid reason) => Some (Invalid reason)
              | Some TypeError => Some TypeError
              end
          end
      end
  end.

Definition getCueDescFromTime (f : t) (time : Q) : option (Result CueDesc) :=
  match getCueIndexFromTime_ f time with
  | None => None
  | Some (Value i) => Some (getCueDescFromCue_ f i)
  | Some (Invalid reason) => Some (Invalid reason)
  | Some TypeError => Some TypeError
  end.

Definition getFirstCueDesc (f : t) : Result CueDesc :=
  match parser f with
  | None => TypeError
  | Some p =>
      match getSeekHead p with
      | None =>
          Invalid "SeekHead does not contain a valid Cluster entry."
      | Some sh =>
          match seekHeadGet sh "CLUSTER" with
          | None =>
              Invalid "SeekHead does not contain a valid Cluster entry."
          | Some c =>
              (* [!seekHead['CLUSTER']]: the offset 0 is falsy *)
              if c =? 0
              then Invalid "SeekHead does not contain a valid Cluster entry."
              else getCueDescFromCue_ f 0
          end
      end
  end.

(** The id of a Cluster element. *)
Definition CLUSTER_ID : Z := 524531317. (* 0x1F43B675 *)

(** *** bufferSizeAfterTimeDownloaded *)

(** The status object of [bufferSizeAfterTimeDownloaded]. *)
Record Download : Type := mkDownload {
  underrun : bool;
  downloadTime : Q;
  bufferAfter : Q      (* the [buffer] property *)
}.

(** The [while (index < cues.length)] loop, by recursion on the number [n]
    of indices left.  Returns [(bufferUnderrun, secToDownload,
    secDownloaded)]. *)
Fixpoint walkDownloaded (f : t) (time timeToSearch kbps minBuffer buf : Q)
         (n : nat) (index : Z) (secToDownload secDownloaded : Q)
  : Result (bool * Q * Q) :=
  match n with
  | O => Value (false, secToDownload, secDownloaded)
  | S n' =>
      match getCueDescFromCue_ f index with
      | TypeError => TypeError
      | Invalid reason => Invalid reason
      | Value currentCueDesc =>
          let cueBytes := inject_Z (size currentCueDesc) in
          let cueSec := endTime currentCueDesc
                        - WebMFileParser.time currentCueDesc in
          let ttd := timeToDownload cueBytes kbps in
          let secDownloaded1 := secDownloaded + (cueSec - ttd) in
          let secToDownload1 := secToDownload + ttd in
          if Qle_bool (time + timeToSearch) (endTime currentCueDesc)
          then
            let percentToSub :=
              timeToSearch / (endTime currentCueDesc - time) in
            let secDownloaded2 := percentToSub * secDownloaded1 in
            let secToDownload2 := percentToSub * secToDownload1 in
            Value (Qle_bool (secDownloaded2 + buf) minBuffer,
                   secToDownload2, secDownloaded2)
          else if Qle_bool (secDownloaded1 + buf) minBuffer
          then Value (true, secToDownload1, secDownloaded1)
          else walkDownloaded f time timeToSearch kbps minBuffer buf
                 n' (index + 1)%Z secToDownload1 secDownloaded1
      end
  end%Q.

Definition bufferSizeAfterTimeDownloaded
           (f : t) (time timeToSearch kbps minBuffer buf : Q)
  : option (Result Download) :=
  match getCueIndexFromTime_ f time with
  | None => None
  | Some TypeError => Some TypeError
  | Some (Invalid reason) => Some (Invalid reason)
  | Some (Value startingIndex) =>
      match getCueDescFromCue_ f startingIndex with
      | TypeError => Some TypeError
      | Invalid reason => Some (Invalid reason)
      | Value currentCueDesc =>
          let walk index secToDownload secDownloaded :=
            match parser f with
            | None => Some TypeError
            | Some p =>
                match getCues p with
                | None => Some (Invalid "Cues is not valid.")
                | Some [] => Some (Invalid "Cues is not valid.")
                | Some cues =>
                    match walkDownloaded f time timeToSearch kbps minBuffer
                            buf
                            (Z.to_nat (Z.of_nat (List.length cues) - index)%Z)
                            index secToDownload secDownloaded with
                    | TypeError => Some TypeError
                    | Invalid reason => Some (Invalid reason)
                    | Value (u, secToDownload', secDownloaded') =>
                        Some (Value {| underrun := u;
                                       downloadTime := secToDownload';
                                       bufferAfter := buf + secDownloaded' |})
                    end
                end
            end in
          (* Check for non cue start time. *)
          if Qlt_le_dec (WebMFileParser.time currentCueDesc) time
          then
            let cueSec := endTime currentCueDesc - time in
            let percent :=
              cueSec / (endTime currentCueDesc
                        - WebMFileParser.time currentCueDesc) in
            let cueBytes := inject_Z (size currentCueDesc) * percent in
            let ttd := timeToDownload cueBytes kbps in
            let secDownloaded1 := 0 + (cueSec - ttd) in
            let secToDownload1 := 0 + ttd in
            (* Check if the search ends within the first cue. *)
            if Qle_bool (time + timeToSearch) (endTime currentCueDesc)
            then
              let percentToSub :=
                timeToSearch / (endTime currentCueDesc - time) in
              let secDownloaded2 := percentToSub * secDownloaded1 in
              let secToDownload2 := percentToSub * secToDownload1 in
              Some (Value {| underrun :=
                               Qle_bool (secDownloaded2 + buf) minBuffer;
                             downloadTime := secToDownload2;
                             bufferAfter := buf + secDownloaded2 |})
            else if Qle_bool (secDownloaded1 + buf) minBuffer
            then Some (Value {| underrun := true;
                                downloadTime := secToDownload1;
                                bufferAfter := buf + secDownloaded1 |})
            else walk (startingIndex + 1)%Z secToDownload1 secDownloaded1
          else walk startingIndex 0 0
      end
  end%Q.

End WebMFileParser.

(** ** HttpFile *)

Module HttpFile.
Import Js.

(** The read cursor over the remote resource: [buffer_] holds the bytes of
    the file from [fileOffset_] on, [index_] is the read position inside
    it, [fileLength_] is -1 until a response has told the length. *)
Record t : Type := mkHttpFile {
  fileLength_ : Z;
  fileOffset_ : Z;
  index_ : Z;
  buffer_ : option Uint8Array
}.

(** [new HttpFile(url)]. *)
Definition create : t :=
  {| fileLength_ := -1; fileOffset_ := 0; index_ := 0; buffer_ := None |}.

Definition getIndex (h : t) : Z := index_ h.
Definition getBuffer (h : t) : option Uint8Array := buffer_ h.
Definition getFileLength (h : t) : Z := fileLength_ h.

Definition getCurrentOffset (h : t) : Z := fileOffset_ h + index_ h.

Definition getBytesAvailable (h : t) : Z :=
  match buffer_ h with
  | Some b => Js.length b - index_ h
  | None => 0
  end.

Definition seek (h : t) (offset : Z) : t :=
  match buffer_ h with
  | Some b =>
      if (offset >=? fileOffset_ h) && (offset <? fileOffset_ h + Js.length b)
      then {| fileLength_ := fileLength_ h;
              fileOffset_ := fileOffset_ h;
              index_ := offset - fileOffset_ h;
              buffer_ := Some b |}
      else {| fileLength_ := fileLength_ h;
              fileOffset_ := offset;
              index_ := 0;
              buffer_ := None |}
  | None =>
      {| fileLength_ := fileLength_ h;
         fileOffset_ := offset;
         index_ := 0;
         buffer_ := None |}
  end.

Definition read (h : t) (size : Z) : t := seek h (getCurrentOffset h + size).

(** What [fetchBytes_] does before any network activity: it answers at
    once when more than [size] bytes are buffered, and otherwise asks for
    the byte range [start, end). *)
Inductive FetchStep : Type :=
| Buffered                        (* [doneCallback(true)] *)
| Request (start finish : Z).     (* [getBytes_(url, start, end, ...)] *)

Definition fetchBytes_ (h : t) (size : Z) : FetchStep :=
  if size <? getBytesAvailable h then Buffered
  else
    let start := getCurrentOffset h in
    let finish := start + size in
    Request start
            (if negb (fileLength_ h =? -1) && (finish >? fileLength_ h)
             then fileLength_ h else finish).

(** The completion of the request of [fetchBytes_]: [start] is the offset
    the request was issued for, [buf] the downloaded bytes ([None] is
    [null]) and [fileLength] the length parsed from the Content-Range
    header.  Returns the flag passed to [doneCallback]. *)
Definition onBytes (h : t) (start : Z) (buf : option Uint8Array)
           (fileLength : Z) : bool * t :=
  match buf with
  | None => (false, h)
  | Some b =>
      let current_offset := getCurrentOffset h in
      (true,
       {| fileLength_ := fileLength;
          fileOffset_ := start;
          index_ := current_offset - start;
          buffer_ := Some b |})
  end.

(** The flag [ensureEnoughBytes] passes on once [fetchBytes_] is done. *)
Definition enoughBytes (h : t) (size : Z) : bool :=
  getBytesAvailable h >=? size.

(** The byte of the file under the read cursor, when it is buffered. *)
Definition current (h : t) : option Z :=
  match buffer_ h with
  | Some b => get b (index_ h)
  | None => None
  end.

(** The byte of the buffered window that sits at a file offset. *)
Definition byteAtOffset (h : t) (offset : Z) : option Z :=
  match buffer_ h with
  | Some b => get b (offset - fileOffset_ h)
  | None => None
  end.

(** The cursor is inside the buffer whenever there is one. *)
Definition cursorInside (h : t) : Prop :=
  match buffer_ h with
  | Some b => 0 <= index_ h < Js.length b
  | None => index_ h = 0
  end.

End HttpFile.

(** ** AdaptiveWebMFile *)

Module AdaptiveWebMFile.

Inductive State : Type :=
| HEADERS_NEEDED | PARSING_HEADERS | HEADERS_LOADED | ERROR.

(** The Representation of the manifest; only its [id] is read here. *)
Record Representation : Type := mkRepresentation { id : string }.

Record t : Type := mkAdaptive {
  representation : option Representation;
  parser : option WebMFileParser.t;
  state : State
}.

(** [this.parser && this.parser.canSeek()]: the value of [&&] is its
    left operand when that is falsy, so a missing parser yields [null]
    ([None]) rather than [false]. *)
Definition canSeek (a : t) : option bool :=
  match parser a with
  | None => None
  | Some f => Some (WebMFileParser.canSeek f)
  end.

(** Truthiness of the value [canSeek] returns. *)
Definition truthy (v : option bool) : bool :=
  match v with Some b => b | None => false end.

End AdaptiveWebMFile.

(** ** AdaptiveWebMStream *)

Module AdaptiveWebMStream.
Import Js.

Definition CueDesc := WebMFileParser.CueDesc.

(** The outcome of a method call: the value returned, or the TypeError
    raised by a property access through [null] / [undefined]. *)
Inductive Completion (A : Type) : Type :=
| Normal (value : A)
| Throw.
Arguments Normal {A} value.
Arguments Throw {A}.

Record t : Type := mkStream {
  checkSwitching_ : bool;
  cueDescQueue : list CueDesc;
  clusterQueue : list Uint8Array;
  clusterQueueThreshold : Z;
  cueBytesDownloaded_ : Z;
  fetchingClusters_ : bool;
  endOfClusters_ : bool;
  lastTimeSent_ : Q;
  source : option AdaptiveWebMFile.t;
  (** [cueDesc] is attached by the player ([loadFirstClusters],
      [startSeek]) before the first fetch is issued; the methods and
      callbacks below only run on streams that carry one. *)
  cueDesc : CueDesc
}.

Definition set_queues (s : t) (cq : list Uint8Array) (dq : list CueDesc)
           (last : Q) : t :=
  {| checkSwitching_ := checkSwitching_ s;
     cueDescQueue := dq;
     clusterQueue := cq;
     clusterQueueThreshold := clusterQueueThreshold s;
     cueBytesDownloaded_ := cueBytesDownloaded_ s;
     fetchingClusters_ := fetchingClusters_ s;
     endOfClusters_ := endOfClusters_ s;
     lastTimeSent_ := last;
     source := source s;
     cueDesc := cueDesc s |}.

Definition set_fetchingClusters (s : t) (b : bool) : t :=
  {| checkSwitching_ := checkSwitching_ s;
     cueDescQueue := cueDescQueue s;
     clusterQueue := clusterQueue s;
     clusterQueueThreshold := clusterQueueThreshold s;
     cueBytesDownloaded_ := cueBytesDownloaded_ s;
     fetchingClusters_ := b;
     endOfClusters_ := endOfClusters_ s;
     lastTimeSent_ := lastTimeSent_ s;
     source := source s;
     cueDesc := cueDesc s |}.

Definition set_endOfClusters (s : t) (b : bool) : t :=
  {| checkSwitching_ := checkSwitching_ s;
     cueDescQueue := cueDescQueue s;
     clusterQueue := clusterQueue s;
     clusterQueueThreshold := clusterQueueThreshold s;
     cueBytesDownloaded_ := cueBytesDownloaded_ s;
     fetchingClusters_ := fetchingClusters_ s;
     endOfClusters_ := b;
     lastTimeSent_ := lastTimeSent_ s;
     source := source s;
     cueDesc := cueDesc s |}.

Definition set_cueBytesDownloaded (s : t) (n : Z) : t :=
  {| checkSwitching_ := checkSwitching_ s;
     cueDescQueue := cueDescQueue s;
     clusterQueue := clusterQueue s;
     clusterQueueThreshold := clusterQueueThreshold s;
     cueBytesDownloaded_ := n;
     fetchingClusters_ := fetchingClusters_ s;
     endOfClusters_ := endOfClusters_ s;
     lastTimeSent_ := lastTimeSent_ s;
     source := source s;
     cueDesc := cueDesc s |}.

Definition set_cueDesc (s : t) (d : CueDesc) : t :=
  {| checkSwitching_ := checkSwitching_ s;
     cueDescQueue := cueDescQueue s;
     clusterQueue := clusterQueue s;
     clusterQueueThreshold := clusterQueueThreshold s;
     cueBytesDownloaded_ := cueBytesDownloaded_ s;
     fetchingClusters_ := fetchingClusters_ s;
     endOfClusters_ := endOfClusters_ s;
     lastTimeSent_ := lastTimeSent_ s;
     source := source s;
     cueDesc := d |}.

(** [resetStreamData]: everything but [source] (and the attached
    [cueDesc]) goes back to its default. *)
Definition resetStreamData (s : t) : t :=
  {| checkSwitching_ := false;
     cueDescQueue := [];
     clusterQueue := [];
     clusterQueueThreshold := 30;
     cueBytesDownloaded_ := 0;
     fetchingClusters_ := false;
     endOfClusters_ := false;
     lastTimeSent_ := 0;
     source := source s;
     cueDesc := cueDesc s |}.

(** [front]: [this.cueDescQueue[0].endTime] is read before the two
    [shift()] calls and raises when the descriptor queue is empty. *)
Definition front (s : t) : Completion (option Uint8Array) * t :=
  match clusterQueue s with
  | [] => (Normal None, s)
  | data :: clusters =>
      match cueDescQueue s with
      | [] => (Throw, s)
      | cue :: descs =>
          (Normal (Some data),
           set_queues s clusters descs (WebMFileParser.endTime cue))
      end
  end.

Definition checkFront (s : t) (time : Q)
  : Completion (option Uint8Array) * t :=
  match clusterQueue s with
  | [] => (Normal None, s)
  | data :: clusters =>
      match cueDescQueue s with
      | [] => (Throw, s)
      | cue :: descs =>
          if Qle_bool (WebMFileParser.time cue) time
          then (Normal (Some data),
                set_queues s clusters descs (WebMFileParser.endTime cue))
          else (Normal None, s)
      end
  end.

Definition empty (s : t) : bool :=
  match clusterQueue s with [] => true | _ => false end.

Definition addNewCluster (s : t) : bool :=
  negb (endOfClusters_ s) && negb (fetchingClusters_ s) &&
  (Z.of_nat (List.length (clusterQueue s)) <? clusterQueueThreshold s).

(** [clusterQueue.push(buf); cueDescQueue.push(cueDesc)]. *)
Definition push (s : t) (buf : Uint8Array) (d : CueDesc) : t :=
  set_queues s (clusterQueue s ++ [buf]) (cueDescQueue s ++ [d])
             (lastTimeSent_ s).

End AdaptiveWebMStream.

(** ** DashPlayer *)

Module DashPlayer.
Import Js AdaptiveWebMStream.

Inductive State : Type := STOPPED | PARSING_HEADERS | LOADING | SEEKING | ERROR.

Definition State_eqb (a b : State) : bool :=
  match a, b with
  | STOPPED, STOPPED | PARSING_HEADERS, PARSING_HEADERS
  | LOADING, LOADING | SEEKING, SEEKING | ERROR, ERROR => true
  | _, _ => false
  end.

(** Which of the player's two stream objects a callback closes over. *)
Inductive StreamRef : Type := Video | Audio.

(** Calls made on the media element. *)
Inductive SinkCall : Type :=
| SourceAppend (data : Uint8Array)
| SourceEndOfStream      (* EOS_NO_ERROR *)
| SourceDecodeError.     (* EOS_DECODE_ERR *)

(** Continuations handed to [window.setTimeout]. *)
Inductive Timer : Type :=
| RunStartSeek | RunSendClusters | RunSendPartialClusters.

(** A cluster request handed to the parser; its completion comes back as
    a call of [onClusterDownloadedDesc] (whole clusters) or
    [onPartialCueDescDownload] (partial data) with the [seqNum]
    captured here. *)
Record Fetch : Type := mkFetch {
  fetchStream : StreamRef;
  fetchCueDesc : CueDesc;
  fetchBytesRead : Z;
  fetchSeqNum : Z;
  fetchPartial : bool
}.

(** The data object passed to the ['chunk_download'] listener. *)
Record ChunkEvent : Type := mkChunkEvent {
  chunkType : StreamRef; chunkTime : Q; chunkEndTime : Q
}.

Record t : Type := mkPlayer {
  state : State;
  seekSequenceNum : Z;
  audioVideoBufferThreshold : Q;
  vid : AdaptiveWebMStream.t;              (* adaptiveStreams_['video'] *)
  aud : option AdaptiveWebMStream.t;       (* adaptiveStreams_['audio'] *)
  chunkDownloadListener : bool;            (* eventCallbacks_['chunk_download'] *)
  sourceOpen : bool;                       (* webkitSourceState == SOURCE_OPEN *)
  sink : list SinkCall;                    (* calls made so far, oldest first *)
  timers : list Timer;
  fetches : list Fetch;
  chunkEvents : list ChunkEvent
}.

Definition set_state (p : t) (s : State) : t :=
  {| state := s; seekSequenceNum := seekSequenceNum p;
     audioVideoBufferThreshold := audioVideoBufferThreshold p;
     vid := vid p; aud := aud p;
     chunkDownloadListener := chunkDownloadListener p;
     sourceOpen := sourceOpen p; sink := sink p; timers := timers p;
     fetches := fetches p; chunkEvents := chunkEvents p |}.

Definition set_seekSequenceNum (p : t) (n : Z) : t :=
  {| state := state p; seekSequenceNum := n;
     audioVideoBufferThreshold := audioVideoBufferThreshold p;
     vid := vid p; aud := aud p;
     chunkDownloadListener := chunkDownloadListener p;
     sourceOpen := sourceOpen p; sink := sink p; timers := timers p;
     fetches := fetches p; chunkEvents := chunkEvents p |}.

Definition set_vid (p : t) (s : AdaptiveWebMStream.t) : t :=
  {| state := state p; seekSequenceNum := seekSequenceNum p;
     audioVideoBufferThreshold := audioVideoBufferThreshold p;
     vid := s; aud := aud p;
     chunkDownloadListener := chunkDownloadListener p;
     sourceOpen := sourceOpen p; sink := sink p; timers := timers p;
     fetches := fetches p; chunkEvents := chunkEvents p |}.

Definition set_aud (p : t) (s : option AdaptiveWebMStream.t) : t :=
  {| state := state p; seekSequenceNum := seekSequenceNum p;
     audioVideoBufferThreshold := audioVideoBufferThreshold p;
     vid := vid p; aud := s;
     chunkDownloadListener := chunkDownloadListener p;
     sourceOpen := sourceOpen p; sink := sink p; timers := timers p;
     fetches := fetches p; chunkEvents := chunkEvents p |}.

Definition add_sink (p : t) (c : SinkCall) : t :=
  {| state := state p; seekSequenceNum := seekSequenceNum p;
     audioVideoBufferThreshold := audioVideoBufferThreshold p;
     vid := vid p; aud := aud p;
     chunkDownloadListener := chunkDownloadListener p;
     sourceOpen := sourceOpen p; sink := sink p ++ [c]; timers := timers p;
     fetches := fetches p; chunkEvents := chunkEvents p |}.

Definition add_timer (p : t) (c : Timer) : t :=
  {| state := state p; seekSequenceNum := seekSequenceNum p;
     audioVideoBufferThreshold := audioVideoBufferThreshold p;
     vid := vid p; aud := aud p;
     chunkDownloadListener := chunkDownloadListener p;
     sourceOpen := sourceOpen p; sink := sink p; timers := timers p ++ [c];
     fetches := fetches p; chunkEvents := chunkEvents p |}.

Definition add_fetch (p : t) (c : Fetch) : t :=
  {| state := state p; seekSequenceNum := seekSequenceNum p;
     audioVideoBufferThreshold := audioVideoBufferThreshold p;
     vid := vid p; aud := aud p;
     chunkDownloadListener := chunkDownloadListener p;
     sourceOpen := sourceOpen p; sink := sink p; timers := timers p;
     fetches := fetches p ++ [c]; chunkEvents := chunkEvents p |}.

Definition add_chunkEvent (p : t) (c : ChunkEvent) : t :=
  {| state := state p; seekSequenceNum := seekSequenceNum p;
     audioVideoBufferThreshold := audioVideoBufferThreshold p;
     vid := vid p; aud := aud p;
     chunkDownloadListener := chunkDownloadListener p;
     sourceOpen := sourceOpen p; sink := sink p; timers := timers p;
     fetches := fetches p; chunkEvents := chunkEvents p ++ [c] |}.

(** The stream object a callback was created for. *)
Definition getStream (p : t) (r : StreamRef) : option AdaptiveWebMStream.t :=
  match r with Video => Some (vid p) | Audio => aud p end.

Definition setStream (p : t) (r : StreamRef) (s : AdaptiveWebMStream.t) : t :=
  match r with Video => set_vid p s | Audio => set_aud p (Some s) end.

Definition changeState (p : t) (newState : State) : t := set_state p newState.

Definition reportParseError (p : t) : t :=
  let p1 := changeState p ERROR in
  if sourceOpen p1 then add_sink p1 SourceDecodeError else p1.

Definition appendData (p : t) (data : Uint8Array) : t :=
  if State_eqb (state p) LOADING then add_sink p (SourceAppend data) else p.

Definition endOfStream (p : t) : t := add_sink p SourceEndOfStream.

(** The arguments of a [logCue] call are evaluated before the call:
    [stream.source.representation.id] and [buf.length] raise a TypeError
    when the source, its representation or the buffer is [null]. *)
Definition representationId (s : AdaptiveWebMStream.t) : option string :=
  match source s with
  | Some src =>
      match AdaptiveWebMFile.representation src with
      | Some r => Some (AdaptiveWebMFile.id r)
      | None => None
      end
  | None => None
  end.

Definition logCueArgs (s : AdaptiveWebMStream.t) (buf : option Uint8Array)
  : bool :=
  match representationId s, buf with
  | Some _, Some _ => true
  | _, _ => false
  end.

(** [stream.source.parser.getClusterFromCueDesc(...)] and
    [stream.source.parser.fetchCueData(...)]: the request is handed to the
    parser of the stream's source. *)
Definition requestCluster (p : t) (r : StreamRef) (s : AdaptiveWebMStream.t)
           (bytesRead seqNum : Z) (partial : bool) : Completion unit * t :=
  match source s with
  | None => (Throw, p)
  | Some src =>
      match AdaptiveWebMFile.parser src with
      | None => (Throw, p)
      | Some _ =>
          (Normal tt,
           add_fetch p {| fetchStream := r;
                          fetchCueDesc := cueDesc s;
                          fetchBytesRead := bytesRead;
                          fetchSeqNum := seqNum;
                          fetchPartial := partial |})
      end
  end.

(** The body shared by [fetchMoreClusters] ([partial = false]) and
    [fetchPartialClusters] ([partial = true]), which differ only in the
    parser primitive and the callback they use. *)
Definition fetchClusters (partial : bool) (p : t) : Completion unit * t :=
  let v := vid p in
  let delta :=
    match aud p with
    | Some a => (WebMFileParser.time (cueDesc v)
                 - WebMFileParser.time (cueDesc a))%Q
    | None => 0%Q
    end in
  let '(c1, p1) :=
    if addNewCluster v &&
       (if Qlt_le_dec delta (audioVideoBufferThreshold p) then true else false)
    then
      let v' := set_fetchingClusters v true in
      requestCluster (set_vid p v') Video v' 0 (seekSequenceNum p) partial
    else (Normal tt, p) in
  match c1 with
  | Throw => (Throw, p1)
  | Normal _ =>
      match aud p1 with
      | None => (Normal tt, p1)
      | Some a =>
          let delta' := (WebMFileParser.time (cueDesc a)
                         - WebMFileParser.time (cueDesc (vid p1)))%Q in
          if addNewCluster a &&
             (if Qlt_le_dec delta' (audioVideoBufferThreshold p1)
              then true else false)
          then
            let a' := set_fetchingClusters a true in
            requestCluster (set_aud p1 (Some a')) Audio a' 0
                           (seekSequenceNum p1) partial
          else (Normal tt, p1)
      end
  end.

Definition fetchMoreClusters : t -> Completion unit * t := fetchClusters false.
Definition fetchPartialClusters : t -> Completion unit * t := fetchClusters true.

(** [if (data) this.appendData(data)]. *)
Definition appendIfData (p : t) (data : option Uint8Array) : t :=
  match data with Some d => appendData p d | None => p end.

Definition sendClusters (p : t) : Completion unit * t :=
  let '(c1, p1) :=
    match aud p with
    | Some a =>
        match checkFront a (lastTimeSent_ (vid p)) with
        | (Throw, a') => (Throw, set_aud p (Some a'))
        | (Normal data, a') =>
            (Normal tt, appendIfData (set_aud p (Some a')) data)
        end
    | None => (Normal tt, p)
    end in
  match c1 with
  | Throw => (Throw, p1)
  | Normal _ =>
      match front (vid p1) with
      | (Throw, v') => (Throw, set_vid p1 v')
      | (Normal data, v') =>
          let p2 := appendIfData (set_vid p1 v') data in
          (* Check if the streams are finished. *)
          let p3 :=
            if endOfClusters_ (vid p2)
            then match aud p2 with
                 | Some a => if endOfClusters_ a then endOfStream p2 else p2
                 | None => endOfStream p2
                 end
            else p2 in
          fetchMoreClusters p3
      end
  end.

Definition sendPartialClusters (p : t) : Completion unit * t :=
  let '(c1, p1) :=
    match aud p with
    | Some a =>
        let res :=
          if endOfClusters_ (vid p) && empty (vid p)
          then front a
          else checkFront a (lastTimeSent_ (vid p)) in
        match res with
        | (Throw, a') => (Throw, set_aud p (Some a'))
        | (Normal data, a') =>
            (Normal tt, appendIfData (set_aud p (Some a')) data)
        end
    | None => (Normal tt, p)
    end in
  match c1 with
  | Throw => (Throw, p1)
  | Normal _ =>
      match front (vid p1) with
      | (Throw, v') => (Throw, set_vid p1 v')
      | (Normal data, v') =>
          let p2 := appendIfData (set_vid p1 v') data in
          (* Check if the streams are finished. *)
          if endOfClusters_ (vid p2) && empty (vid p2)
          then match aud p2 with
               | Some a =>
                   if negb (empty a)
                   then (Normal tt, add_timer p2 RunSendPartialClusters)
                   else if endOfClusters_ a
                        then (Normal tt, endOfStream p2)
                        else (Normal tt, p2)
               | None => (Normal tt, endOfStream p2)
               end
          else (Normal tt, p2)
      end
  end.

Section Callbacks.

(** [checkVideoStreamFutureTime], the bitrate-switch decision that runs
    after a cue has been queued on a switch-eligible stream.  It is a
    parameter here: it runs only after the data has been accepted. *)
Variable checkVideoStreamFutureTime : t -> t.

(** The ['chunk_download'] notification. *)
Definition notifyChunk (p : t) (r : StreamRef) (s : AdaptiveWebMStream.t)
  : t :=
  if chunkDownloadListener p
  then add_chunkEvent p {| chunkType := r;
                           chunkTime := WebMFileParser.time (cueDesc s);
                           chunkEndTime := WebMFileParser.endTime (cueDesc s) |}
  else p.

Definition onClusterDownloadedDesc (p : t) (r : StreamRef)
           (nextCueDesc : option CueDesc) (seqNum : Z)
           (buf : option Uint8Array) : Completion unit * t :=
  match getStream p r with
  | None => (Throw, p)
  | Some stream =>
      if State_eqb (state p) SEEKING then
        if logCueArgs stream buf
        then (Normal tt,
              add_timer (setStream p r (set_fetchingClusters stream false))
                        RunStartSeek)
        else (Throw, p)
      else if State_eqb (state p) STOPPED then
        if logCueArgs stream buf
        then (Normal tt, setStream p r (set_fetchingClusters stream false))
        else (Throw, p)
      else if negb (State_eqb (state p) LOADING) then
        (Normal tt, setStream p r (set_fetchingClusters stream false))
      else if negb (seqNum =? seekSequenceNum p) then
        (* a seek happened while the cluster was being fetched *)
        if logCueArgs stream buf
        then (Normal tt, setStream p r (set_fetchingClusters stream false))
        else (Throw, p)
      else
        match buf with
        | None =>
            match representationId stream with
            | None => (Throw, p)
            | Some _ =>
                (Normal tt,
                 reportParseError
                   (setStream p r
                      (set_endOfClusters
                         (set_fetchingClusters stream false) true)))
            end
        | Some b =>
            let s1 := set_cueBytesDownloaded stream
                        (cueBytesDownloaded_ stream + Js.length b) in
            let s2 := push s1 b (cueDesc s1) in
            if cueBytesDownloaded_ s2 =? WebMFileParser.size (cueDesc s2)
            then
              let s3 := set_fetchingClusters s2 false in
              let p1 := notifyChunk (setStream p r s3) r s3 in
              let s4 := set_cueBytesDownloaded s3 0 in
              let p2 :=
                match nextCueDesc with
                | None => setStream p1 r (set_endOfClusters s4 true)
                | Some next =>
                    let p' := setStream p1 r (set_cueDesc s4 next) in
                    if checkSwitching_ s4
                    then checkVideoStreamFutureTime p' else p'
                end in
              (Normal tt, add_timer p2 RunSendClusters)
            else
              let p1 := add_timer (setStream p r s2) RunSendClusters in
              if negb (endOfClusters_ s2) &&
                 (Z.of_nat (List.length (clusterQueue s2))
                  <? clusterQueueThreshold s2)
              then requestCluster p1 r s2 (cueBytesDownloaded_ s2)
                                  (seekSequenceNum p1) false
              else (Normal tt, p1)
        end
  end.

(** Returns [stream.fetchingClusters_]. *)
Definition onPartialCueDescDownload (p : t) (r : StreamRef)
           (nextCueDesc : option CueDesc) (seqNum : Z)
           (buf : option Uint8Array) : Completion bool * t :=
  match getStream p r with
  | None => (Throw, p)
  | Some stream =>
      let cueFinished :=
        match nextCueDesc with
        | Some next =>
            negb (WebMFileParser.offset (cueDesc stream)
                  =? WebMFileParser.offset next)
        | None => true
        end in
      if State_eqb (state p) SEEKING then
        if logCueArgs stream buf
        then
          if cueFinished
          then (Normal false,
                add_timer (setStream p r (set_fetchingClusters stream false))
                          RunStartSeek)
          else (Normal (fetchingClusters_ stream), p)
        else (Throw, p)
      else if State_eqb (state p) STOPPED then
        if logCueArgs stream buf
        then (Normal false,
              setStream p r (set_fetchingClusters stream false))
        else (Throw, p)
      else if negb (State_eqb (state p) LOADING) then
        (Normal false, setStream p r (set_fetchingClusters stream false))
      else if negb (seqNum =? seekSequenceNum p) then
        (* a seek happened while the cluster was being fetched *)
        if logCueArgs stream buf
        then
          if cueFinished
          then (Normal false,
                setStream p r (set_fetchingClusters stream false))
          else (Normal (fetchingClusters_ stream), p)
        else (Throw, p)
      else
        match buf with
        | None =>
            match representationId stream with
            | None => (Throw, p)
            | Some _ =>
                (Normal false,
                 reportParseError
                   (setStream p r
                      (set_endOfClusters
                         (set_fetchingClusters stream false) true)))
            end
        | Some b =>
            let s1 := set_cueBytesDownloaded stream
                        (cueBytesDownloaded_ stream + Js.length b) in
            let s2 := push s1 b (cueDesc s1) in
            let '(c, p2) :=
              if cueFinished
              then
                let s3 := set_fetchingClusters s2 false in
                let p1 := notifyChunk (setStream p r s3) r s3 in
                let s4 := set_cueBytesDownloaded s3 0 in
                match nextCueDesc with
                | None =>
                    (Normal tt, setStream p1 r (set_endOfClusters s4 true))
                | Some next =>
                    let p' := setStream p1 r (set_cueDesc s4 next) in
                    fetchPartialClusters
                      (if checkSwitching_ s4
                       then checkVideoStreamFutureTime p' else p')
                end
              else (Normal tt, setStream p r s2) in
            match c with
            | Throw => (Throw, p2)
            | Normal _ =>
                let p3 := add_timer p2 RunSendPartialClusters in
                match getStream p3 r with
                | Some s => (Normal (fetchingClusters_ s), p3)
                | None => (Throw, p3)
                end
            end
        end
  end.

End Callbacks.

(** *** The steps of the running player *)

(** The player runs the partial-cluster cycle: [loadFirstClusters] and
    [startSeek] call [fetchPartialClusters], whose downloads complete in
    [onPartialCueDescDownload], which schedules [sendPartialClusters].
    The whole-cluster cycle ([sendClusters], [fetchMoreClusters],
    [onClusterDownloadedDesc]) is entered only from [sendClusters], and
    the two calls of [sendClusters] outside of that cycle (in
    [loadFirstClusters] and [startSeek]) are commented out. *)
Inductive liveStep (checkVideoStreamFutureTime : t -> t) : t -> t -> Prop :=
| StepFetch (p : t) (c : Completion unit) (p' : t) :
    fetchPartialClusters p = (c, p') ->
    liveStep checkVideoStreamFutureTime p p'
| StepCompletion (p : t) (r : StreamRef) (nextCueDesc : option CueDesc)
                 (seqNum : Z) (buf : option Uint8Array)
                 (c : Completion bool) (p' : t) :
    onPartialCueDescDownload checkVideoStreamFutureTime
      p r nextCueDesc seqNum buf = (c, p') ->
    liveStep checkVideoStreamFutureTime p p'
| StepSend (p : t) (c : Completion unit) (p' : t) :
    sendPartialClusters p = (c, p') ->
    liveStep checkVideoStreamFutureTime p p'.

(** *** Reference notions used to state the properties *)

(** The two queues of every stream of the player. *)
Definition queues (p : t)
  : (list Uint8Array * list CueDesc)
    * option (list Uint8Array * list CueDesc) :=
  ((clusterQueue (vid p), cueDescQueue (vid p)),
   option_map (fun a => (clusterQueue a, cueDescQueue a)) (aud p)).

(** A stream has nothing left: it is at end-of-clusters and its cluster
    queue is empty. *)
Definition drained (s : AdaptiveWebMStream.t) : Prop :=
  endOfClusters_ s = true /\ clusterQueue s = [].

(** Every active track of the player is drained. *)
Definition allDrained (p : t) : Prop :=
  drained (vid p) /\
  match aud p with Some a => drained a | None => True end.

(** The calls made on the media element by a step from [p] to [p']. *)
Definition newSinkCalls (p p' : t) : list SinkCall :=
  skipn (List.length (sink p)) (sink p').

(** The two queues of a stream hold the same number of entries. *)
Definition lockstep (s : AdaptiveWebMStream.t) : Prop :=
  List.length (cueDescQueue s) = List.length (clusterQueue s).

(** Every stream of the player is in lock-step. *)
Definition allLockstep (p : t) : Prop :=
  lockstep (vid p) /\
  match aud p with Some a => lockstep a | None => True end.

(** The buffers a list of calls appends to the media element. *)
Definition appended (calls : list SinkCall) : list Uint8Array :=
  flat_map (fun c => match c with SourceAppend d => [d] | _ => [] end) calls.

End DashPlayer.

(** ** Sample data *)

Module Samples.
Import Js.

Definition cue (t : Q) (pos : Z) : WebMParser.CuePoint :=
  {| WebMParser.cueTime := t;
     WebMParser.trackPosition :=
       {| WebMParser.cueTrack := 1; WebMParser.cueClusterPos := pos |} |}.

(** A file parser holding the given cue list, SeekHead and duration. *)
Definition fileWith (cues : list WebMParser.CuePoint)
           (sh : option WebMParser.SeekHead) (dur : Q) : WebMFileParser.t :=
  {| WebMFileParser.parser :=
       Some {| WebMParser.segmentOffset_ := 0;
               WebMParser.seekHead_ := sh;
               WebMParser.infoElement_ := None;
               WebMParser.tracksElement_ := None;
               WebMParser.timecodeScale_ := 1000000;
               WebMParser.duration_ := dur;
               WebMParser.cues_ := Some cues |} |}.

(** Two tracks cueing the same first cluster. *)
Definition aliasedCues : list WebMParser.CuePoint :=
  [cue 0 100; cue 0 100; cue 10 250; cue 20 400].

(** Three clusters at offsets 100, 250 and 400, the Cues element at 500,
    30 seconds long. *)
Definition evenFile : WebMFileParser.t :=
  fileWith [cue 0 100; cue 10 250; cue 20 400]
           (Some [("CUES"%string, 500)]) 30.

(** A one-second cluster of 125 bytes followed by a one-second cluster of
    127875 bytes. *)
Definition unevenFile : WebMFileParser.t :=
  fileWith [cue 0 1000; cue 1 1125] (Some [("CUES"%string, 129000)]) 2.

(** A Segment header (id 18 53 80 67, size byte 81) followed by the first
    byte of a two-byte child id. *)
Definition segmentStart : Uint8Array := [x18; x53; x80; x67; x81; x4d].

(** The walk over the children of the Segment on inputs whose window
    ends inside the first child header: [parseList_] returns the status
    of [parseElementHeader] before any handler runs.  On other inputs
    this stand-in answers InvalidData; it is only used on
    [segmentStart]. *)
Definition parseList_first_header
           (p : WebMParser.t) (buf : Uint8Array) (start size : Z)
  : EbmlParser.Status WebMParser.SegmentValue
    * (option Uint8Array * option Uint8Array) :=
  (match EbmlParser.parseElementHeader buf start size with
   | EbmlParser.NeedMoreData n => EbmlParser.NeedMoreData n
   | _ => EbmlParser.InvalidData
   end, (WebMParser.infoElement_ p, WebMParser.tracksElement_ p)).

Definition desc (t e : Q) (off sz : Z) : WebMFileParser.CueDesc :=
  {| WebMFileParser.time := t; WebMFileParser.offset := off;
     WebMFileParser.size := sz; WebMFileParser.endTime := e |}.

Definition someSource : option AdaptiveWebMFile.t :=
  Some {| AdaptiveWebMFile.representation :=
            Some {| AdaptiveWebMFile.id := "1" |};
          AdaptiveWebMFile.parser := Some WebMFileParser.create;
          AdaptiveWebMFile.state := AdaptiveWebMFile.HEADERS_LOADED |}.

(** A stream holding the given queues. *)
Definition streamWith (eoc : bool) (clusters : list Uint8Array)
           (descs : list WebMFileParser.CueDesc) (last : Q)
           (d : WebMFileParser.CueDesc) : AdaptiveWebMStream.t :=
  {| AdaptiveWebMStream.checkSwitching_ := false;
     AdaptiveWebMStream.cueDescQueue := descs;
     AdaptiveWebMStream.clusterQueue := clusters;
     AdaptiveWebMStream.clusterQueueThreshold := 30;
     AdaptiveWebMStream.cueBytesDownloaded_ := 0;
     AdaptiveWebMStream.fetchingClusters_ := negb eoc;
     AdaptiveWebMStream.endOfClusters_ := eoc;
     AdaptiveWebMStream.lastTimeSent_ := last;
     AdaptiveWebMStream.source := someSource;
     AdaptiveWebMStream.cueDesc := d |}.

Definition playerWith (st : DashPlayer.State) (seq : Z)
           (v : AdaptiveWebMStream.t) (a : option AdaptiveWebMStream.t)
  : DashPlayer.t :=
  {| DashPlayer.state := st;
     DashPlayer.seekSequenceNum := seq;
     DashPlayer.audioVideoBufferThreshold := 30;
     DashPlayer.vid := v;
     DashPlayer.aud := a;
     DashPlayer.chunkDownloadListener := false;
     DashPlayer.sourceOpen := true;
     DashPlayer.sink := [];
     DashPlayer.timers := [];
     DashPlayer.fetches := [];
     DashPlayer.chunkEvents := [] |}.

(** Video has been sent up to 10 s and is finished; audio is finished
    too but still holds a cluster that starts at 12 s. *)
Definition lateAudioPlayer : DashPlayer.t :=
  playerWith DashPlayer.LOADING 0
    (streamWith true [] [] 10 (desc 8 10 800 100))
    (Some (streamWith true [[x1f; x43]] [desc 12 14 1200 2] 0
                      (desc 12 14 1200 2))).

(** A player that has seen one seek (sequence number 1) while a video
    fetch issued under sequence number 0 is still in flight. *)
Definition seekedPlayer : DashPlayer.t :=
  playerWith DashPlayer.LOADING 1
    (streamWith false [] [] 0 (desc 0 10 100 150)) None.

(** A sixteen-byte Cluster: the header (payload size 4), a Timecode
    element and the first byte of a SimpleBlock. *)
Definition sampleCluster : Uint8Array :=
  [x1f; x43; xb6; x75; x01; x00; x00; x00; x00; x00; x00; x04;
   xe7; x81; x00; xa3].

(** A Segment-level walk that finds a SeekHead with a Cues entry and an
    Info element (timecode scale 1000000, duration 30000 ticks) and uses
    up the whole window. *)
Definition parseList_complete
           (p : WebMParser.t) (buf : Uint8Array) (start size : Z)
  : EbmlParser.Status WebMParser.SegmentValue
    * (option Uint8Array * option Uint8Array) :=
  (EbmlParser.Ok size
     {| WebMParser.seekHead := Some [("CUES"%string, 500)];
        WebMParser.info :=
          Some {| WebMParser.timecodeScale := 1000000;
                  WebMParser.duration := 30000 |} |},
   (WebMParser.infoElement_ p, WebMParser.tracksElement_ p)).

(** A cursor two bytes into a four-byte window that starts at file
    offset 90 of a 100-byte file. *)
Definition bufferedFile : HttpFile.t :=
  {| HttpFile.fileLength_ := 100; HttpFile.fileOffset_ := 90;
     HttpFile.index_ := 2;
     HttpFile.buffer_ := Some [x1a; x45; xdf; xa3] |}.

(** A video-only player whose stream is finished and empty. *)
Definition drainedPlayer : DashPlayer.t :=
  playerWith DashPlayer.LOADING 0
    (streamWith true [] [] 10 (desc 8 10 800 100)) None.

(** A stopped video-only player that still holds one cluster. *)
Definition stoppedPlayer : DashPlayer.t :=
  playerWith DashPlayer.STOPPED 0
    (streamWith false [[x1f; x43]] [desc 0 10 100 2] 0 (desc 10 20 102 2))
    None.

End Samples.

(* ===================================================================== *)
(** * Properties *)

(** ** Variable-length numbers and unsigned integers *)

Module EbmlFacts.
Import Js EbmlParser.

Lemma byteVal_range (b : byte) : 0 <= byteVal b < 256.
Proof. destruct b; vm_compute; split; congruence. Qed.

Lemma toInt32_small (z : Z) : - 2 ^ 31 <= z < 2 ^ 31 -> toInt32 z = z.
Proof.
  intros H. unfold toInt32.
  rewrite Z.mod_small; lia.
Qed.

Lemma toInt32_range (z : Z) : - 2 ^ 31 <= toInt32 z < 2 ^ 31.
Proof.
  unfold toInt32.
  pose proof (Z.mod_pos_bound (z + 2 ^ 31) (2 ^ 32) ltac:(lia)). lia.
Qed.

(** The marker loop finds the marker bit exactly where [markerIndex]
    places it, as long as at most eight bits are inspected. *)
Lemma findMarker_markerIndex (b : byte) (m : bool) (n : nat) (i : Z) :
  (n <= 8)%nat ->
  markerIndex (byteVal b) = Some i ->
  i < Z.of_nat n ->
  exists num, findMarker (Some (byteVal b)) m 128 0 n = Some (num, i).
Proof.
  intros Hn Hi Hlt.
  assert (Hchk : match markerIndex (byteVal b) with
                 | Some j =>
                     if j <? Z.of_nat n
                     then match findMarker (Some (byteVal b)) m 128 0 n with
                          | Some (_, k) => k =? j
                          | None => false
                          end
                     else true
                 | None => true
                 end = true).
  { destruct n as [|[|[|[|[|[|[|[|[|n]]]]]]]]]; try lia;
      destruct m; destruct b; vm_compute; reflexivity. }
  rewrite Hi in Hchk. apply Z.ltb_lt in Hlt. rewrite Hlt in Hchk.
  destruct (findMarker (Some (byteVal b)) m 128 0 n) as [[num k]|];
    [|discriminate].
  apply Z.eqb_eq in Hchk. subst k. exists num. reflexivity.
Qed.

Lemma get_byteVal buf i z :
  get buf i = Some z -> exists b, z = byteVal b.
Proof.
  unfold get. destruct (i <? 0); [discriminate|].
  destruct (nth_error buf (Z.to_nat i)) as [b|]; [|discriminate].
  intros [= <-]. now exists b.
Qed.

Lemma requiredBytes_inv buf start maxBytes r :
  requiredBytes buf start maxBytes = Some r ->
  exists b, get buf start = Some (byteVal b) /\
            markerIndex (byteVal b) = Some (r - 1) /\ r - 1 < maxBytes.
Proof.
  unfold requiredBytes.
  destruct (get buf start) as [z|] eqn:Hg; [|discriminate].
  destruct (get_byteVal _ _ _ Hg) as [b ->].
  destruct (markerIndex (byteVal b)) as [i|] eqn:Hi; [|discriminate].
  destruct (i <? maxBytes) eqn:Hlt; [|discriminate].
  intros Heq. assert (Hr : r = 1 + i) by congruence. subst r.
  exists b. apply Z.ltb_lt in Hlt.
  split; [reflexivity|].
  split; [replace (1 + i - 1) with i by lia; exact Hi | lia].
Qed.

Lemma markerIndex_bounds z i : markerIndex z = Some i -> 0 <= i <= 7.
Proof.
  unfold markerIndex. intros H. apply find_some in H as [Hin _].
  cbn in Hin. lia.
Qed.

(** What [parseNum_] answers whenever the number needs more bytes than
    the window holds. *)
Lemma parseNum_short buf start size maxBytes m r :
  maxBytes <= 8 ->
  requiredBytes buf start maxBytes = Some r ->
  0 <= size < r ->
  parseNum_ buf start size maxBytes m =
    NeedMoreData (if size =? 0 then 1 else r - size).
Proof.
  intros Hmax Hreq Hsz.
  destruct (requiredBytes_inv _ _ _ _ Hreq) as (b & Hb & Hi & Hlt).
  pose proof (markerIndex_bounds _ _ Hi) as Hr.
  unfold parseNum_.
  destruct (size =? 0) eqn:H0.
  - apply Z.eqb_eq in H0. subst size. reflexivity.
  - apply Z.eqb_neq in H0.
    destruct (size <=? 0) eqn:Hle; [apply Z.leb_le in Hle; lia|].
    rewrite Hb.
    destruct (findMarker_markerIndex b m (Z.to_nat maxBytes) (r - 1))
      as [num Hfm]; [lia | exact Hi | lia |].
    rewrite Hfm.
    destruct (1 + (r - 1) >? size) eqn:Hgt.
    + f_equal. lia.
    + rewrite Z.gtb_ltb in Hgt. apply Z.ltb_ge in Hgt. lia.
Qed.

(** C1 (as amended).  When the variable-length number at [start] needs
    more bytes than the [size] available, [parseNum_] answers
    NeedMoreData and never InvalidData.  With at least one byte available
    the reported deficit is exactly [requiredBytes - size]; with no byte
    available the marker byte cannot be read and the reported deficit
    is 1, whatever the length of the number. *)
Theorem parseNum_need_more_data buf start size maxBytes m r :
  maxBytes <= 8 ->
  requiredBytes buf start maxBytes = Some r ->
  0 <= size < r ->
  parseNum_ buf start size maxBytes m <> InvalidData /\
  (0 < size -> parseNum_ buf start size maxBytes m = NeedMoreData (r - size)) /\
  (size = 0 -> parseNum_ buf start size maxBytes m = NeedMoreData 1).
Proof.
  intros Hmax Hreq Hsz.
  rewrite (parseNum_short _ _ _ _ m _ Hmax Hreq Hsz).
  split; [discriminate|]. split; intros H.
  - destruct (size =? 0) eqn:H0; [apply Z.eqb_eq in H0; lia | reflexivity].
  - subst size. reflexivity.
Qed.

(** A two-byte element ID of which one byte is in the window. *)
Lemma parseNum_need_more_data_witness :
  parseNum_ [x40; x01] 0 1 4 false <> InvalidData /\
  (0 < 1 -> parseNum_ [x40; x01] 0 1 4 false = NeedMoreData (2 - 1)) /\
  (1 = 0 -> parseNum_ [x40; x01] 0 1 4 false = NeedMoreData 1).
Proof.
  apply (parseNum_need_more_data [x40; x01] 0 1 4 false 2);
    [lia | reflexivity | lia].
Defined.

(** C1 as stated fails: for a two-byte number and an empty window the
    deficit reported is 1, not [2 - 0]. *)
Lemma parseNum_deficit_counterexample :
  ~ (forall buf start size maxBytes m r,
        maxBytes <= 8 ->
        requiredBytes buf start maxBytes = Some r ->
        0 <= size < r ->
        parseNum_ buf start size maxBytes m = NeedMoreData (r - size)).
Proof.
  intros H.
  specialize (H [x40; x01] 0 0 4 false 2
                ltac:(lia) eq_refl ltac:(lia)).
  vm_compute in H. discriminate H.
Qed.

(** The header reader hands the deficits of [parseNum_] on unchanged; an
    empty window is the list terminator and is answered with Ok. *)
Lemma parseElementHeader_empty buf start :
  parseElementHeader buf start 0 = Ok 0 None.
Proof. reflexivity. Qed.

Lemma parseElementHeader_short_id buf start size r :
  requiredBytes buf start 4 = Some r ->
  0 < size < r ->
  parseElementHeader buf start size = NeedMoreData (r - size).
Proof.
  intros Hreq Hsz. unfold parseElementHeader.
  destruct (size =? 0) eqn:H0; [apply Z.eqb_eq in H0; lia|].
  rewrite (parseNum_short buf start size 4 false r); [|lia|exact Hreq|lia].
  rewrite H0. reflexivity.
Qed.

(** *** parseUInt *)

Lemma parseUInt_invalid_iff buf start size :
  parseUInt buf start size = InvalidData <-> size < 1 \/ size > 8.
Proof.
  unfold parseUInt.
  destruct (size <? 1) eqn:H1; destruct (size >? 8) eqn:H8; cbn;
    rewrite ?Z.gtb_ltb in H8;
    try apply Z.ltb_lt in H1; try apply Z.ltb_ge in H1;
    try apply Z.ltb_lt in H8; try apply Z.ltb_ge in H8;
    split; intros H; try reflexivity; try discriminate; try lia;
    exfalso; lia.
Qed.

Lemma parseUInt_bytesUsed buf start size :
  1 <= size <= 8 ->
  parseUInt buf start size =
    Ok size (readUInt buf start 0 0 (Z.to_nat size)).
Proof.
  intros H. unfold parseUInt.
  destruct (size <? 1) eqn:H1; [apply Z.ltb_lt in H1; lia|].
  destruct (size >? 8) eqn:H8;
    [rewrite Z.gtb_ltb in H8; apply Z.ltb_lt in H8; lia|].
  reflexivity.
Qed.

Lemma toInt32_mod (z : Z) : toInt32 z mod 2 ^ 32 = z mod 2 ^ 32.
Proof.
  unfold toInt32.
  rewrite Zminus_mod_idemp_l. f_equal. lia.
Qed.

Lemma toInt32_congr (a b : Z) :
  a mod 2 ^ 32 = b mod 2 ^ 32 -> toInt32 a = toInt32 b.
Proof.
  intros H. unfold toInt32.
  rewrite <- (Zplus_mod_idemp_l a), <- (Zplus_mod_idemp_l b), H.
  reflexivity.
Qed.

Lemma lor_low_byte (x b : Z) :
  x mod 256 = 0 -> 0 <= b < 256 -> Z.lor x b = x + b.
Proof.
  intros Hx Hb.
  assert (Hland : Z.land x b = 0).
  { apply Z.bits_inj'. intros n Hn.
    rewrite Z.land_spec, Z.bits_0.
    destruct (Z.lt_ge_cases n 8) as [Hlt|Hge].
    - assert (Hq : x = x / 256 * 2 ^ 8).
      { pose proof (Z.div_mod x 256 ltac:(lia)). lia. }
      rewrite Hq, Z.mul_pow2_bits_low by lia. reflexivity.
    - rewrite <- (Z.mod_small b (2 ^ 8)) by lia.
      rewrite Z.mod_pow2_bits_high by lia. apply andb_false_r. }
  rewrite <- Z.lxor_lor by exact Hland.
  symmetry. apply Z.add_nocarry_lxor. exact Hland.
Qed.

(** One round of [val <<= 8; val |= b & 0xff] on a value known modulo
    2^32. *)
Lemma readUInt_step (V : Z) (b : byte) :
  bor (shl (toInt32 V) 8) (band (int32_of (Some (byteVal b))) 255) =
    toInt32 (V * 256 + byteVal b).
Proof.
  pose proof (byteVal_range b) as Hb.
  unfold bor, shl, band, int32_of.
  rewrite !(toInt32_small (byteVal b)) by lia.
  rewrite (toInt32_small 255) by lia.
  change 255 with (Z.ones 8). rewrite Z.land_ones by lia.
  rewrite (Z.mod_small (byteVal b)) by (change (2 ^ 8) with 256; lia).
  rewrite !(toInt32_small (toInt32 _)) by apply toInt32_range.
  change (8 mod 32) with 8. rewrite Z.shiftl_mul_pow2 by lia.
  change (2 ^ 8) with 256.
  set (x := toInt32 (toInt32 V * 256)).
  assert (Hxm : x mod 2 ^ 32 = (V * 256) mod 2 ^ 32).
  { subst x. rewrite toInt32_mod.
    rewrite <- Z.mul_mod_idemp_l, toInt32_mod, Z.mul_mod_idemp_l by lia.
    reflexivity. }
  assert (Hx256 : x mod 256 = 0).
  { rewrite <- (Z.mod_mod_divide x (2 ^ 32) 256)
      by (exists (2 ^ 24); reflexivity).
    rewrite Hxm.
    rewrite Z.mod_mod_divide by (exists (2 ^ 24); reflexivity).
    apply Z.mod_mul. lia. }
  rewrite (toInt32_small (byteVal b)) by lia.
  rewrite lor_low_byte by (exact Hx256 || lia).
  pose proof (toInt32_range (toInt32 V * 256)) as Hr. fold x in Hr.
  assert (Hle : x <= 2 ^ 31 - 256).
  { pose proof (Z.div_mod x 256 ltac:(lia)) as Hd. rewrite Hx256 in Hd.
    assert (x / 256 < 2 ^ 23) by lia. lia. }
  rewrite <- (toInt32_small (x + byteVal b)) by lia.
  apply toInt32_congr.
  rewrite <- Z.add_mod_idemp_l, Hxm, Z.add_mod_idemp_l by lia.
  reflexivity.
Qed.

Lemma readUInt_beUInt (buf : Uint8Array) (start : Z) (n : nat) :
  forall i V,
    0 <= start + i ->
    start + i + Z.of_nat n <= Js.length buf ->
    readUInt buf start (toInt32 V) i n =
      toInt32 (fold_left (fun acc b => acc * 256 + byteVal b)
                         (slice buf (start + i) (Z.of_nat n)) V).
Proof.
  induction n as [|n IH]; intros i V Hlo Hhi.
  - reflexivity.
  - cbn [readUInt].
    unfold Js.length in Hhi.
    assert (Hnth : exists b, nth_error buf (Z.to_nat (start + i)) = Some b).
    { destruct (nth_error buf (Z.to_nat (start + i))) as [b|] eqn:E;
        [eauto|]. apply nth_error_None in E. lia. }
    destruct Hnth as [b Hb].
    assert (Hget : get buf (start + i) = Some (byteVal b)).
    { unfold get. destruct (start + i <? 0) eqn:E;
        [apply Z.ltb_lt in E; lia|]. rewrite Hb. reflexivity. }
    rewrite Hget, readUInt_step.
    rewrite IH by (unfold Js.length; lia).
    f_equal. unfold slice.
    rewrite !Nat2Z.id.
    replace (Z.to_nat (start + (i + 1))) with (S (Z.to_nat (start + i)))
      by lia.
    assert (Hsk : skipn (Z.to_nat (start + i)) buf =
                  b :: skipn (S (Z.to_nat (start + i))) buf).
    { clear - Hb. revert Hb. generalize (Z.to_nat (start + i)) as k.
      induction buf as [|x buf IHb]; intros [|k] H; try discriminate.
      - injection H as ->. reflexivity.
      - cbn [nth_error] in H. rewrite (IHb k H) at 1. reflexivity. }
    rewrite Hsk. reflexivity.
Qed.

(** What [parseUInt] computes: the big-endian value of the bytes wrapped
    to a 32-bit signed integer. *)
Lemma parseUInt_value (buf : Uint8Array) (start size : Z) :
  1 <= size <= 8 -> 0 <= start -> start + size <= Js.length buf ->
  parseUInt buf start size =
    Ok size (toInt32 (beUInt (slice buf start size))).
Proof.
  intros Hs H0 Hlen. rewrite parseUInt_bytesUsed by exact Hs.
  f_equal. change 0 with (toInt32 0) at 1.
  rewrite readUInt_beUInt by lia.
  rewrite Z.add_0_r, Z2Nat.id by lia. reflexivity.
Qed.

(** The claimed value is returned as long as it fits 31 bits, in
    particular for every size up to 3. *)
Lemma parseUInt_value_small (buf : Uint8Array) (start size : Z) :
  1 <= size <= 8 -> 0 <= start -> start + size <= Js.length buf ->
  beUInt (slice buf start size) < 2 ^ 31 ->
  parseUInt buf start size = Ok size (beUInt (slice buf start size)).
Proof.
  intros Hs H0 Hlen Hsmall. rewrite parseUInt_value by assumption.
  f_equal. apply toInt32_small. split; [|exact Hsmall].
  assert (Hnn : forall l acc, 0 <= acc ->
            0 <= fold_left (fun a b => a * 256 + byteVal b) l acc).
  { induction l as [|b l IHl]; intros acc Hacc; [exact Hacc|].
    cbn [fold_left]. apply IHl. pose proof (byteVal_range b). lia. }
  specialize (Hnn (slice buf start size) 0 ltac:(lia)).
  unfold beUInt. lia.
Qed.

(** C7: the value of [parseUInt] is not the big-endian unsigned integer
    once the bytes no longer fit 31 bits: five bytes [01 00 00 00 00]
    give 0 instead of 2^32, and four bytes [80 00 00 00] give -2^31
    instead of 2^31, because [<<=] and [|=] work on 32-bit signed
    integers. *)
Theorem parseUInt_wraps_to_int32 :
  parseUInt [x01; x00; x00; x00; x00] 0 5 = Ok 5 0 /\
  beUInt (slice [x01; x00; x00; x00; x00] 0 5) = 4294967296 /\
  parseUInt [x80; x00; x00; x00] 0 4 = Ok 4 (-2147483648) /\
  beUInt (slice [x80; x00; x00; x00] 0 4) = 2147483648.
Proof. repeat split; vm_compute; reflexivity. Qed.

End EbmlFacts.

(** ** Cue index, segment offset and buffer projection *)

Module CueFacts.
Import Js WebMParser WebMFileParser Samples.

Lemma splice1_app (pre : list CuePoint) c n rest :
  splice1 (pre ++ c :: n :: rest) (S (List.length pre)) = pre ++ c :: rest.
Proof.
  unfold splice1.
  replace (S (List.length pre)) with (List.length (pre ++ [c])) at 1
    by (rewrite length_app; cbn; lia).
  replace (pre ++ c :: n :: rest) with ((pre ++ [c]) ++ n :: rest)
    by (rewrite <- app_assoc; reflexivity).
  rewrite firstn_app, firstn_all, Nat.sub_diag. cbn [firstn].
  rewrite app_nil_r.
  replace (S (S (List.length pre))) with (List.length (pre ++ [c]) + 1)%nat
    by (rewrite length_app; cbn; lia).
  rewrite skipn_app.
  rewrite skipn_all2 by lia.
  replace (List.length (pre ++ [c]) + 1 - List.length (pre ++ [c]))%nat with 1%nat by lia.
  cbn. rewrite <- app_assoc. reflexivity.
Qed.

Lemma squishLoop_squishFrom rest :
  forall fuel pre c,
    (List.length rest < fuel)%nat ->
    squishLoop fuel (pre ++ c :: rest) (List.length pre) =
      Some (pre ++ c :: squishFrom c rest).
Proof.
  induction rest as [|n rest IH]; intros fuel pre c Hfuel.
  - destruct fuel as [|fuel]; [cbn in Hfuel; lia|].
    cbn [squishLoop squishFrom].
    rewrite length_app. cbn [List.length].
    destruct (Z.of_nat (List.length pre) <? Z.of_nat (List.length pre + 1) - 1) eqn:H;
      [apply Z.ltb_lt in H; lia | reflexivity].
  - destruct fuel as [|fuel]; [cbn in Hfuel; lia|].
    cbn [squishLoop squishFrom].
    rewrite length_app. cbn [List.length].
    destruct (Z.of_nat (List.length pre) <? Z.of_nat (List.length pre + S (S (List.length rest))) - 1) eqn:H;
      [|apply Z.ltb_ge in H; lia].
    assert (Hc : nth_error (pre ++ c :: n :: rest) (List.length pre) = Some c).
    { rewrite nth_error_app2 by lia. rewrite Nat.sub_diag. reflexivity. }
    assert (Hn : nth_error (pre ++ c :: n :: rest) (S (List.length pre))
                 = Some n).
    { rewrite nth_error_app2 by lia.
      replace (S (List.length pre) - List.length pre)%nat with 1%nat by lia.
      reflexivity. }
    rewrite Hc, Hn.
    destruct (clusterPos c =? clusterPos n) eqn:Heq.
    + rewrite splice1_app. apply IH. cbn in Hfuel. lia.
    + replace (pre ++ c :: n :: rest) with ((pre ++ [c]) ++ n :: rest)
        by (rewrite <- app_assoc; reflexivity).
      replace (S (List.length pre)) with (List.length (pre ++ [c]))
        by (rewrite length_app; cbn; lia).
      rewrite IH by (cbn in Hfuel; lia).
      rewrite <- app_assoc. reflexivity.
Qed.

Lemma squishLoop_total cues :
  squishLoop (S (List.length cues)) cues 0 = Some (squish cues).
Proof.
  destruct cues as [|c rest]; [reflexivity|].
  apply (squishLoop_squishFrom rest (S (List.length (c :: rest))) [] c).
  cbn. lia.
Qed.


Lemma squishFrom_idem rest : forall c,
  squishFrom c (squishFrom c rest) = squishFrom c rest.
Proof.
  induction rest as [|n rest IH]; intros c; [reflexivity|].
  cbn [squishFrom].
  destruct (clusterPos c =? clusterPos n) eqn:Heq.
  - apply IH.
  - cbn [squishFrom]. rewrite Heq. f_equal. apply IH.
Qed.

Lemma squish_idem cues : squish (squish cues) = squish cues.
Proof.
  destruct cues as [|c rest]; [reflexivity|].
  cbn [squish]. f_equal. apply squishFrom_idem.
Qed.

Lemma squishFrom_In rest : forall c x,
  In x (squishFrom c rest) -> In x rest.
Proof.
  induction rest as [|n rest IH]; intros c x; [cbn; auto|].
  cbn [squishFrom].
  destruct (clusterPos c =? clusterPos n).
  - intros H. right. eapply IH; eauto.
  - intros [H|H]; [left; auto | right; eapply IH; eauto].
Qed.

Lemma squishFrom_adjacent rest : forall c,
  adjacentDistinct (c :: squishFrom c rest).
Proof.
  unfold adjacentDistinct.
  induction rest as [|n rest IH]; intros c.
  - cbn. repeat constructor.
  - cbn [squishFrom].
    destruct (clusterPos c =? clusterPos n) eqn:Heq.
    + apply IH.
    + apply Z.eqb_neq in Heq. constructor; [apply IH|].
      constructor. exact Heq.
Qed.

Section Sublist.
Variable R : CuePoint -> CuePoint -> Prop.

Lemma squishFrom_StronglySorted rest : forall c,
  StronglySorted R (c :: rest) ->
  StronglySorted R (c :: squishFrom c rest).
Proof.
  induction rest as [|n rest IH]; intros c Hs; [exact Hs|].
  cbn [squishFrom].
  inversion Hs as [|? ? Hrest Hall]; subst.
  inversion Hall as [|? ? Hcn Hall']; subst.
  inversion Hrest as [|? ? Hrest' HallN]; subst.
  destruct (clusterPos c =? clusterPos n).
  - apply IH. constructor; assumption.
  - constructor.
    + apply IH. exact Hrest.
    + constructor; [exact Hcn|].
      apply Forall_forall. intros x Hx.
      apply squishFrom_In in Hx.
      rewrite Forall_forall in Hall'. auto.
Qed.
End Sublist.

Lemma squishFrom_strict rest : forall c,
  StronglySorted (fun a b => clusterPos a <= clusterPos b) (c :: rest) ->
  StronglySorted (fun a b => clusterPos a < clusterPos b)
                 (c :: squishFrom c rest).
Proof.
  induction rest as [|n rest IH]; intros c Hs.
  - cbn. repeat constructor.
  - cbn [squishFrom].
    inversion Hs as [|? ? Hrest Hall]; subst.
    inversion Hall as [|? ? Hcn Hall']; subst.
    inversion Hrest as [|? ? Hrest' HallN]; subst.
    destruct (clusterPos c =? clusterPos n) eqn:Heq.
    + apply IH. constructor; assumption.
    + apply Z.eqb_neq in Heq.
      specialize (IH n Hrest).
      constructor; [exact IH|].
      inversion IH as [|? ? _ HallN']; subst.
      constructor; [lia|].
      eapply Forall_impl; [|exact HallN']. cbn. intros x Hx. lia.
Qed.

Lemma StronglySorted_lt_NoDup (l : list CuePoint) :
  StronglySorted (fun a b => clusterPos a < clusterPos b) l ->
  NoDup (offsets l).
Proof.
  induction 1 as [|a l Hs IH Hall]; cbn; constructor; [|exact IH].
  intros Hin. apply in_map_iff in Hin as (x & Hx & Hin).
  rewrite Forall_forall in Hall. specialize (Hall x Hin). lia.
Qed.

Lemma squish_unique cues :
  offsetOrdered cues -> NoDup (offsets (squish cues)).
Proof.
  intros Hs. destruct cues as [|c rest]; [constructor|].
  apply StronglySorted_lt_NoDup. cbn [squish].
  apply squishFrom_strict.
  apply Sorted_StronglySorted; [|exact Hs].
  intros x y z. lia.
Qed.

Lemma squish_timeOrdered cues :
  timeOrdered cues -> timeOrdered (squish cues).
Proof.
  intros Hs. destruct cues as [|c rest]; [constructor|].
  cbn [squish]. apply StronglySorted_Sorted.
  apply squishFrom_StronglySorted.
  apply Sorted_StronglySorted; [|exact Hs].
  intros x y z. apply Qle_trans.
Qed.

Lemma squish_adjacent cues : adjacentDistinct (squish cues).
Proof.
  destruct cues as [|c rest]; [constructor|]. apply squishFrom_adjacent.
Qed.

(** C2 (as amended).  [squishCues] keeps a cue exactly when its cluster
    offset differs from the offset of the cue retained last ([squish]),
    and always finishes.  Applying it again changes nothing.  No
    surviving cue has the offset of its predecessor; when the offsets of
    the input never decrease the surviving offsets are pairwise
    distinct, and a time-ordered input stays time-ordered. *)
Theorem squishCues_spec (p : WebMParser.t) (cues : list CuePoint) :
  cues_ p = Some cues ->
  let p' := set_cues p (Some (squish cues)) in
  squishCues p = Some (Value true, p') /\
  squishCues p' = Some (Value true, p') /\
  adjacentDistinct (squish cues) /\
  (offsetOrdered cues -> NoDup (offsets (squish cues))) /\
  (timeOrdered cues -> timeOrdered (squish cues)).
Proof.
  intros Hc p'. repeat split.
  - unfold squishCues. rewrite Hc, squishLoop_total. reflexivity.
  - unfold squishCues. subst p'. cbn [cues_ set_cues].
    rewrite squishLoop_total, squish_idem. reflexivity.
  - apply squish_adjacent.
  - apply squish_unique.
  - apply squish_timeOrdered.
Qed.


Lemma squishCues_spec_witness :
  squishCues (set_cues WebMParser.create (Some aliasedCues)) =
    Some (Value true,
          set_cues WebMParser.create
                   (Some [cue 0 100; cue 10 250; cue 20 400])) /\
  NoDup (offsets (squish aliasedCues)) /\
  timeOrdered (squish aliasedCues).
Proof.
  destruct (squishCues_spec (set_cues WebMParser.create (Some aliasedCues))
              aliasedCues eq_refl) as (Hrun & _ & _ & Huniq & Htime).
  split; [exact Hrun|]. split.
  - apply Huniq. repeat constructor; cbn; lia.
  - apply Htime. repeat constructor; cbn; discriminate.
Defined.

(** C2 as stated fails on a cue list whose offsets come back to an
    earlier value: offsets 100, 200, 100 all survive. *)
Lemma squishCues_unique_counterexample :
  ~ (forall p res p' cues',
        squishCues p = Some (res, p') ->
        cues_ p' = Some cues' ->
        NoDup (offsets cues')).
Proof.
  intros H.
  pose (cues := [cue 0 100; cue 1 200; cue 2 100]).
  specialize (H (set_cues WebMParser.create (Some cues)) (Value true)
                (set_cues WebMParser.create (Some cues)) cues eq_refl eq_refl).
  cbn in H. inversion H as [|? ? Hnin _]; subst.
  apply Hnin. cbn. auto.
Qed.


(** The scan stops at the first cue whose offset differs. *)
Lemma scanCueEnd_firstDistinct so rest : forall pre,
  let cues := pre ++ rest in
  match firstDistinct so rest (List.length pre) with
  | Some (j, c) =>
      scanCueEnd cues so (List.length pre) (List.length rest) = j /\
      nth_error cues j = Some c
  | None =>
      scanCueEnd cues so (List.length pre) (List.length rest) =
        List.length cues
  end.
Proof.
  induction rest as [|c rest IH]; intros pre cues; subst cues.
  - cbn. rewrite app_nil_r. reflexivity.
  - cbn [firstDistinct scanCueEnd List.length].
    assert (Hc : nth_error (pre ++ c :: rest) (List.length pre) = Some c).
    { rewrite nth_error_app2 by lia. rewrite Nat.sub_diag. reflexivity. }
    rewrite Hc.
    destruct (so =? clusterPos c) eqn:Heq.
    + specialize (IH (pre ++ [c])).
      rewrite <- app_assoc in IH. cbn [app] in IH.
      rewrite length_app in IH. cbn [List.length] in IH.
      replace (List.length pre + 1)%nat with (S (List.length pre)) in IH by lia.
      exact IH.
    + split; [reflexivity | exact Hc].
Qed.

Lemma firstDistinct_Some so rest : forall j0 j c,
  firstDistinct so rest j0 = Some (j, c) ->
  (j0 <= j)%nat /\ nth_error rest (j - j0) = Some c /\ clusterPos c <> so /\
  forall k ck, (k < j - j0)%nat -> nth_error rest k = Some ck ->
               clusterPos ck = so.
Proof.
  induction rest as [|x rest IH]; intros j0 j c; [discriminate|].
  cbn [firstDistinct].
  destruct (so =? clusterPos x) eqn:Heq.
  - intros H. apply IH in H as (Hle & Hnth & Hne & Hall).
    apply Z.eqb_eq in Heq.
    split; [lia|]. split.
    + replace (j - j0)%nat with (S (j - S j0)) by lia. exact Hnth.
    + split; [exact Hne|].
      intros k ck Hk Hck. destruct k as [|k].
      * cbn in Hck. injection Hck as <-. auto.
      * cbn in Hck. apply (Hall k); [lia | exact Hck].
  - intros [= <- <-]. apply Z.eqb_neq in Heq.
    rewrite Nat.sub_diag. split; [lia|]. split; [reflexivity|].
    split; [congruence|]. intros k ck Hk. lia.
Qed.

Lemma firstDistinct_None so rest : forall j0,
  firstDistinct so rest j0 = None ->
  forall c, In c rest -> clusterPos c = so.
Proof.
  induction rest as [|x rest IH]; intros j0 H c Hin; [destruct Hin|].
  cbn [firstDistinct] in H.
  destruct (so =? clusterPos x) eqn:Heq; [|discriminate].
  apply Z.eqb_eq in Heq. destruct Hin as [<-|Hin]; [auto|].
  eapply IH; eauto.
Qed.


Lemma getCueDescFromCue_nextDistinct f p cues i cue :
  parser f = Some p ->
  getCues p = Some cues ->
  nth_error cues i = Some cue ->
  getCueDescFromCue_ f (Z.of_nat i) =
    Value match nextDistinct cues i with
          | Some (_, next) =>
              {| time := cueTime cue; offset := clusterPos cue;
                 size := clusterPos next - clusterPos cue;
                 endTime := cueTime next |}
          | None =>
              {| time := cueTime cue; offset := clusterPos cue;
                 size := lastCueSize p (clusterPos cue);
                 endTime := duration_ p |}
          end.
Proof.
  intros Hp Hc Hi.
  assert (Hlen : (i < List.length cues)%nat)
    by (apply nth_error_Some; congruence).
  unfold getCueDescFromCue_, nextDistinct. rewrite Hp, Hc, Hi.
  destruct cues as [|c0 cues0] eqn:Hcues; [cbn in Hlen; lia|].
  rewrite <- Hcues in *.
  destruct (Z.of_nat i >=? Z.of_nat (List.length cues)) eqn:Hge;
    [rewrite Z.geb_leb in Hge; apply Z.leb_le in Hge; lia|].
  destruct (Z.of_nat i <? 0) eqn:Hneg; [apply Z.ltb_lt in Hneg; lia|].
  rewrite Nat2Z.id, Hi.
  pose proof (scanCueEnd_firstDistinct (clusterPos cue) (skipn (S i) cues)
                (firstn (S i) cues)) as Hscan.
  cbv zeta in Hscan. rewrite firstn_skipn in Hscan.
  rewrite length_firstn, length_skipn in Hscan.
  replace (Nat.min (S i) (List.length cues)) with (S i) in Hscan by lia.
  destruct (firstDistinct (clusterPos cue) (skipn (S i) cues) (S i))
    as [[j next]|].
  - destruct Hscan as [-> ->]. reflexivity.
  - rewrite Hscan.
    destruct (nth_error cues (List.length cues)) eqn:Hn.
    + assert (nth_error cues (List.length cues) = None)
        by (apply nth_error_None; lia).
      congruence.
    + reflexivity.
Qed.

(** C3 (as amended).  For a valid index [i], when [j] is the first index
    after [i] whose offset differs from that of [cues[i]], the descriptor
    has size [cues[j].offset - cues[i].offset] and end time
    [cues[j].time].  When no such index exists the end time is the
    parser's duration (-1 while it is unknown) and the size is the
    distance to the start of the Cues element when the SeekHead records
    one beyond [cues[i].offset], and -1 otherwise; the size does not
    depend on the duration. *)
Theorem getCueDescFromCue_spec f p cues i cue :
  parser f = Some p ->
  getCues p = Some cues ->
  nth_error cues i = Some cue ->
  (forall j next,
      (i < j)%nat ->
      nth_error cues j = Some next ->
      clusterPos next <> clusterPos cue ->
      (forall k ck, (i < k < j)%nat -> nth_error cues k = Some ck ->
                    clusterPos ck = clusterPos cue) ->
      getCueDescFromCue_ f (Z.of_nat i) =
        Value {| time := cueTime cue; offset := clusterPos cue;
                 size := clusterPos next - clusterPos cue;
                 endTime := cueTime next |}) /\
  ((forall k ck, (i < k)%nat -> nth_error cues k = Some ck ->
                 clusterPos ck = clusterPos cue) ->
   getCueDescFromCue_ f (Z.of_nat i) =
     Value {| time := cueTime cue; offset := clusterPos cue;
              size := lastCueSize p (clusterPos cue);
              endTime := duration_ p |}).
Proof.
  intros Hp Hc Hi.
  rewrite (getCueDescFromCue_nextDistinct f p cues i cue Hp Hc Hi).
  unfold nextDistinct. rewrite Hi.
  destruct (firstDistinct (clusterPos cue) (skipn (S i) cues) (S i))
    as [[j' next']|] eqn:Hfd.
  - apply firstDistinct_Some in Hfd as (Hle & Hnth & Hne & Hall).
    rewrite nth_error_skipn in Hnth.
    replace (S i + (j' - S i))%nat with j' in Hnth by lia.
    split.
    + intros j next Hij Hj Hnej Hbefore.
      assert (j = j') as ->.
      { destruct (Nat.lt_trichotomy j j') as [Hlt|[Heq|Hgt]]; [|exact Heq|].
        - exfalso. apply Hnej. apply (Hall (j - S i)%nat); [lia|].
          rewrite nth_error_skipn.
          replace (S i + (j - S i))%nat with j by lia. exact Hj.
        - exfalso. apply Hne. apply (Hbefore j'); [lia | exact Hnth]. }
      rewrite Hj in Hnth. injection Hnth as <-. reflexivity.
    + intros Hall'. exfalso. apply Hne. apply (Hall' j'); [lia | exact Hnth].
  - split.
    + intros j next Hij Hj Hnej _. exfalso. apply Hnej.
      apply (firstDistinct_None _ _ _ Hfd).
      apply nth_error_In with (n := (j - S i)%nat).
      rewrite nth_error_skipn.
      replace (S i + (j - S i))%nat with j by lia. exact Hj.
    + intros _. reflexivity.
Qed.


(** The specification's example: offsets 100, 250, 400 and the Cues
    element at 500 give the sizes 150, 150 and 100. *)
Lemma getCueDescFromCue_spec_witness :
  getCueDescFromCue_ evenFile 0 = Value (desc 0 10 100 150) /\
  getCueDescFromCue_ evenFile 1 = Value (desc 10 20 250 150) /\
  getCueDescFromCue_ evenFile 2 = Value (desc 20 30 400 100).
Proof.
  pose (cues := [cue 0 100; cue 10 250; cue 20 400]).
  assert (Hp : parser evenFile =
               Some {| segmentOffset_ := 0;
                       seekHead_ := Some [("CUES"%string, 500)];
                       infoElement_ := None; tracksElement_ := None;
                       timecodeScale_ := 1000000; duration_ := 30;
                       cues_ := Some cues |}) by reflexivity.
  split; [|split].
  - apply (proj1 (getCueDescFromCue_spec evenFile _ cues 0 (cue 0 100)
                    Hp eq_refl eq_refl) 1%nat (cue 10 250));
      [lia | reflexivity | discriminate | intros k ck Hk; lia].
  - apply (proj1 (getCueDescFromCue_spec evenFile _ cues 1 (cue 10 250)
                    Hp eq_refl eq_refl) 2%nat (cue 20 400));
      [lia | reflexivity | discriminate | intros k ck Hk; lia].
  - apply (proj2 (getCueDescFromCue_spec evenFile _ cues 2 (cue 20 400)
                    Hp eq_refl eq_refl)).
    intros [|[|[|k]]] ck Hk Hn; try lia.
    cbn in Hn. destruct k; discriminate Hn.
Defined.

Example cueDesc_sizes :
  map (fun i => match getCueDescFromCue_ evenFile i with
                | Value d => size d
                | _ => -2
                end) [0; 1; 2] = [150; 150; 100].
Proof. reflexivity. Qed.

(** C3 as stated fails: with the duration unknown (-1) and the Cues
    element at 500, the only cue (offset 100) gets size 400, not -1. *)
Lemma getCueDescFromCue_unknown_duration_counterexample :
  ~ (forall f p cues i cue d,
        parser f = Some p ->
        getCues p = Some cues ->
        nth_error cues i = Some cue ->
        (forall k ck, (i < k)%nat -> nth_error cues k = Some ck ->
                      clusterPos ck = clusterPos cue) ->
        (duration_ p == -1)%Q ->
        getCueDescFromCue_ f (Z.of_nat i) = Value d ->
        size d = -1 /\ (endTime d == -1)%Q).
Proof.
  intros H.
  pose (f := fileWith [cue 0 100] (Some [("CUES"%string, 500)]) (-1)).
  assert (Hall : forall k ck, (0 < k)%nat -> nth_error [cue 0 100] k = Some ck ->
            clusterPos ck = clusterPos (cue 0 100)).
  { intros [|[|k]] ck Hk Hn; try lia; discriminate Hn. }
  destruct (H f _ _ 0%nat _ _ eq_refl eq_refl eq_refl Hall ltac:(reflexivity) eq_refl) as [Hsz _].
  cbn in Hsz. discriminate Hsz.
Qed.


(** C8 (as amended).  [canSeek] returns true if and only if the parser
    exists and its cue table is non-null; an empty table counts. *)
Theorem canSeek_iff_cues_parsed :
  (forall f : WebMFileParser.t,
      WebMFileParser.canSeek f = true <->
      exists p cues, WebMFileParser.parser f = Some p /\ getCues p = Some cues) /\
  (forall a : AdaptiveWebMFile.t,
      AdaptiveWebMFile.canSeek a = Some true <->
      exists f p cues, AdaptiveWebMFile.parser a = Some f /\
                       WebMFileParser.parser f = Some p /\
                       getCues p = Some cues).
Proof.
  assert (H1 : forall f : WebMFileParser.t,
             WebMFileParser.canSeek f = true <->
             exists p cues, WebMFileParser.parser f = Some p /\
                            getCues p = Some cues).
  { intros f. unfold WebMFileParser.canSeek.
    destruct (WebMFileParser.parser f) as [p|].
    - destruct (getCues p) as [cues|] eqn:Hc; split.
      + intros _. exists p, cues. split; [reflexivity | exact Hc].
      + reflexivity.
      + discriminate.
      + intros (p' & cues & [= <-] & H). congruence.
    - split; [discriminate|]. intros (p & cues & H & _). discriminate H. }
  split; [exact H1|].
  intros a. unfold AdaptiveWebMFile.canSeek.
  destruct (AdaptiveWebMFile.parser a) as [f|].
  - split.
    + intros [= H]. apply H1 in H as (p & cues & Hp & Hc).
      exists f, p, cues. repeat split; assumption.
    + intros (f' & p & cues & [= <-] & Hp & Hc).
      f_equal. apply H1. exists p, cues. split; assumption.
  - split; [discriminate|]. intros (f & p & cues & H & _). discriminate H.
Qed.

(** C8 as stated fails: an empty cue table makes [canSeek] true. *)
Lemma canSeek_empty_cues_counterexample :
  ~ (forall f : WebMFileParser.t,
        WebMFileParser.canSeek f = true <->
        exists p cues, WebMFileParser.parser f = Some p /\
                       getCues p = Some cues /\ cues <> []).
Proof.
  intros H.
  pose (f := {| WebMFileParser.parser := Some (set_cues WebMParser.create (Some [])) |}).
  destruct (proj1 (H f) eq_refl) as (p & cues & [= <-] & [= <-] & Hne).
  apply Hne. reflexivity.
Qed.

(** *** segmentOffset_ *)

Section SegmentOffset.
Variable parseList_SEGMENT :
  WebMParser.t -> Uint8Array -> Z -> Z ->
  EbmlParser.Status SegmentValue * (option Uint8Array * option Uint8Array).

Lemma parseSegmentHeaders_segmentOffset p buf start size bufOffset :
  let p' := snd (parseSegmentHeaders parseList_SEGMENT p buf start size
                                     bufOffset) in
  segmentOffset_ p' = segmentOffset_ p \/
  (segmentOffset_ p = -1 /\
   exists bytesUsed hdr,
     EbmlParser.parseElementHeader buf start size =
       EbmlParser.Ok bytesUsed (Some hdr) /\
     EbmlParser.id hdr = SEGMENT_ID /\
     segmentOffset_ p' = start + bytesUsed).
Proof.
  unfold parseSegmentHeaders.
  destruct (EbmlParser.parseElementHeader buf start size)
    as [bytesUsed hdr| |] eqn:Hh; try (left; reflexivity).
  destruct hdr as [h|]; [|left; reflexivity].
  destruct (EbmlParser.id h =? SEGMENT_ID) eqn:Hid; [|left; reflexivity].
  cbn [negb]. apply Z.eqb_eq in Hid.
  set (p1 := if segmentOffset_ p =? -1 then _ else p).
  assert (Hp1 : segmentOffset_ p1 = segmentOffset_ p \/
                (segmentOffset_ p = -1 /\
                 segmentOffset_ p1 = start + bytesUsed)).
  { subst p1. destruct (segmentOffset_ p =? -1) eqn:He.
    - right. apply Z.eqb_eq in He. split; [exact He | reflexivity].
    - left. reflexivity. }
  destruct (parseList_SEGMENT p1 buf (start + bytesUsed) (size - bytesUsed))
    as [res stored].
  assert (Hfinal : forall p2, segmentOffset_ p2 = segmentOffset_ p1 ->
            segmentOffset_ p2 = segmentOffset_ p \/
            (segmentOffset_ p = -1 /\
             exists bytesUsed0 hdr,
               EbmlParser.Ok bytesUsed (Some h) =
                 EbmlParser.Ok bytesUsed0 (Some hdr) /\
               EbmlParser.id hdr = SEGMENT_ID /\
               segmentOffset_ p2 = start + bytesUsed0)).
  { intros p2 ->. destruct Hp1 as [Hp1|[Hm Hp1]]; [left; exact Hp1|].
    right. split; [exact Hm|]. exists bytesUsed, h. auto. }
  destruct res as [used v| |]; cbn [snd]; try (apply Hfinal; reflexivity).
  destruct (seekHead v); [|apply Hfinal; reflexivity].
  destruct (info v); apply Hfinal; reflexivity.
Qed.
End SegmentOffset.

(** C9 (as amended).  [parseSegmentHeaders] leaves an already assigned
    segment offset alone and assigns [start + bytesUsed] when it is
    still -1 and the Segment header has been read, so a re-parse never
    overwrites it.  [setSegmentOffset] overwrites it with every positive
    offset and ignores the others. *)
Theorem segmentOffset_assignment
        (parseList_SEGMENT :
           WebMParser.t -> Uint8Array -> Z -> Z ->
           EbmlParser.Status SegmentValue
           * (option Uint8Array * option Uint8Array))
        (p : WebMParser.t) (buf : Uint8Array)
        (start size bufOffset offset : Z) :
  let p' := snd (parseSegmentHeaders parseList_SEGMENT p buf start size
                                     bufOffset) in
  (segmentOffset_ p <> -1 -> segmentOffset_ p' = segmentOffset_ p) /\
  (forall bytesUsed hdr,
      segmentOffset_ p = -1 ->
      EbmlParser.parseElementHeader buf start size =
        EbmlParser.Ok bytesUsed (Some hdr) ->
      EbmlParser.id hdr = SEGMENT_ID ->
      segmentOffset_ p' = start + bytesUsed) /\
  (0 < offset -> segmentOffset_ (setSegmentOffset p offset) = offset) /\
  (offset <= 0 ->
   segmentOffset_ (setSegmentOffset p offset) = segmentOffset_ p).
Proof.
  intros p'. repeat split.
  - intros Hset.
    destruct (parseSegmentHeaders_segmentOffset parseList_SEGMENT
                p buf start size bufOffset) as [H|[H _]];
      [exact H | contradiction].
  - intros bytesUsed hdr Hm Hh Hid. subst p'.
    unfold parseSegmentHeaders. rewrite Hh.
    apply Z.eqb_eq in Hid. rewrite Hid. cbn [negb].
    apply Z.eqb_eq in Hm. rewrite Hm.
    destruct (parseList_SEGMENT _ buf (start + bytesUsed) (size - bytesUsed))
      as [res stored].
    destruct res as [used v| |]; cbn [snd]; try reflexivity.
    destruct (seekHead v); [|reflexivity].
    destruct (info v); reflexivity.
  - intros H. unfold setSegmentOffset.
    destruct (offset >? 0) eqn:Hgt; [reflexivity|].
    rewrite Z.gtb_ltb in Hgt. apply Z.ltb_ge in Hgt. lia.
  - intros H. unfold setSegmentOffset.
    destruct (offset >? 0) eqn:Hgt; [|reflexivity].
    rewrite Z.gtb_ltb in Hgt. apply Z.ltb_lt in Hgt. lia.
Qed.


Lemma segmentOffset_assignment_witness :
  segmentOffset_
    (snd (parseSegmentHeaders parseList_first_header WebMParser.create segmentStart
                              0 6 0)) = 0 + 5 /\
  segmentOffset_ (setSegmentOffset WebMParser.create 40) = 40.
Proof.
  pose proof (segmentOffset_assignment parseList_first_header WebMParser.create
                segmentStart 0 6 0 40) as (_ & Hfirst & Hset & _).
  split.
  - apply (Hfirst 5 {| EbmlParser.id := SEGMENT_ID; EbmlParser.elementSize := 1 |});
      reflexivity.
  - apply Hset. lia.
Defined.

(** C9 as stated fails: the offset 5 assigned on first sight of the
    Segment header is overwritten by [setSegmentOffset(100)]. *)
Lemma segmentOffset_overwritten_counterexample :
  ~ (forall parseList_SEGMENT p buf start size bufOffset offset,
        let p' := snd (parseSegmentHeaders parseList_SEGMENT p buf start
                                           size bufOffset) in
        segmentOffset_ p' <> -1 ->
        segmentOffset_ (setSegmentOffset p' offset) = segmentOffset_ p').
Proof.
  intros H.
  specialize (H parseList_first_header WebMParser.create segmentStart 0 6 0 100).
  cbv zeta in H. vm_compute in H.
  specialize (H ltac:(discriminate)). discriminate H.
Qed.

Open Scope Q_scope.

Lemma Qinv_le_contravar (a b : Q) : 0 < a -> a <= b -> / b <= / a.
Proof.
  intros Ha Hab.
  destruct (Qlt_le_dec a b) as [Hlt|Hge].
  - apply Qlt_le_weak. apply -> Qinv_lt_contravar; [exact Hlt| |exact Ha].
    eapply Qlt_trans; eauto.
  - assert (Heq : a == b) by (apply Qle_antisym; assumption).
    rewrite Heq. apply Qle_refl.
Qed.

Lemma timeToDownload_mono (bytes k1 k2 : Q) :
  0 <= bytes -> 0 < k1 -> k1 <= k2 ->
  timeToDownload bytes k2 <= timeToDownload bytes k1.
Proof.
  intros Hb Hk1 Hk. unfold timeToDownload, Qdiv.
  assert (H0 : 0 <= bytes * 8 * / 1000).
  { apply Qmult_le_0_compat; [apply Qmult_le_0_compat; [exact Hb|]|]; discriminate. }
  rewrite (Qmult_comm _ (/ k2)), (Qmult_comm _ (/ k1)).
  apply Qmult_le_compat_r; [|exact H0].
  apply Qinv_le_contravar; assumption.
Qed.

Section Monotone.
Variable f : WebMFileParser.t.
Variables timeToSearch k1 k2 : Q.
Hypothesis Hk1 : 0 < k1.
Hypothesis Hk : k1 <= k2.
Hypothesis Hsize :
  forall i d, getCueDescFromCue_ f i = Value d -> (0 <= size d)%Z.

Lemma walkCues_mono n : forall index D1 D2 M Df1 Mf1,
  D2 <= D1 ->
  walkCues f timeToSearch k1 n index D1 M = Value (Df1, Mf1) ->
  Df1 < timeToSearch ->
  exists Df2,
    walkCues f timeToSearch k2 n index D2 M = Value (Df2, Mf1) /\
    Df2 <= Df1.
Proof.
  induction n as [|n IH]; intros index D1 D2 M Df1 Mf1 HD Hw Hlt.
  - cbn in *. injection Hw as <- <-. eauto.
  - cbn [walkCues] in *.
    destruct (Qlt_le_dec D1 timeToSearch) as [H1|H1].
    + destruct (Qlt_le_dec D2 timeToSearch) as [H2|H2];
        [|exfalso; apply (Qlt_irrefl D1);
          eapply Qlt_le_trans; [exact H1|];
          eapply Qle_trans; [exact H2|exact HD]].
      destruct (getCueDescFromCue_ f index) as [d| |] eqn:Hd;
        try discriminate.
      assert (Hb : 0 <= inject_Z (size d)).
      { change 0 with (inject_Z 0). rewrite <- Zle_Qle. eauto. }
      assert (HD' : D2 + timeToDownload (inject_Z (size d)) k2 <=
                    D1 + timeToDownload (inject_Z (size d)) k1).
      { apply Qplus_le_compat; [exact HD|].
        apply timeToDownload_mono; assumption. }
      destruct (Qlt_le_dec timeToSearch
                  (D1 + timeToDownload (inject_Z (size d)) k1)) as [H3|H3].
      * injection Hw as <- <-. exfalso. exact (Qlt_irrefl _ Hlt).
      * destruct (Qlt_le_dec timeToSearch
                    (D2 + timeToDownload (inject_Z (size d)) k2)) as [H4|H4];
          [exfalso; apply (Qlt_irrefl timeToSearch);
           eapply Qlt_le_trans; [exact H4|];
           eapply Qle_trans; [exact HD'|exact H3]|].
        exact (IH _ _ _ _ _ _ HD' Hw Hlt).
    + injection Hw as <- <-. exfalso.
      apply (Qlt_irrefl D1). eapply Qlt_le_trans; eauto.
Qed.

End Monotone.

(** A projection that finishes the cue list before the horizon
    ([seconds < timeToSearch]) is not lowered by a faster rate: the media
    time is the same and the download time is no longer. *)
Lemma bufferSizeAfterTime_monotone_unclamped
        (f : WebMFileParser.t) (time timeToSearch kbps1 kbps2 buf : Q)
        (r1 : Projection) :
  0 < kbps1 -> kbps1 <= kbps2 ->
  (forall i d, getCueDescFromCue_ f i = Value d -> (0 <= size d)%Z) ->
  (forall i d, getCueIndexFromTime_ f time = Some (Value i) ->
               getCueDescFromCue_ f i = Value d ->
               WebMFileParser.time d < time -> time <= endTime d) ->
  bufferSizeAfterTime f time timeToSearch kbps1 buf = Some (Value r1) ->
  seconds r1 < timeToSearch ->
  exists r2,
    bufferSizeAfterTime f time timeToSearch kbps2 buf = Some (Value r2) /\
    buffer r1 <= buffer r2.
Proof.
  intros Hk1 Hk Hsize Hstart Hr1 Hsec.
  unfold bufferSizeAfterTime in *.
  destruct (getCueIndexFromTime_ f time) as [[i| |]|] eqn:Hi; try discriminate.
  destruct (getCueDescFromCue_ f i) as [d| |] eqn:Hd; try discriminate.
  specialize (Hstart i d eq_refl Hd).
  pose proof (Hsize i d Hd) as Hsz.
  assert (Hb : 0 <= inject_Z (size d)).
  { change 0 with (inject_Z 0). rewrite <- Zle_Qle. exact Hsz. }
  destruct (Qlt_le_dec (WebMFileParser.time d) time) as [Hpart|Hpart].
  - (* the start time lies inside the first cue *)
    specialize (Hstart Hpart).
    set (cueSec := endTime d - time) in *.
    set (percent := cueSec / (endTime d - WebMFileParser.time d)) in *.
    set (cueBytes := inject_Z (size d) * percent) in *.
    assert (Hcb : 0 <= cueBytes).
    { subst cueBytes percent cueSec.
      apply Qmult_le_0_compat; [exact Hb|].
      apply Qle_shift_div_l.
      - lra.
      - lra. }
    pose proof (timeToDownload_mono cueBytes kbps1 kbps2 Hcb Hk1 Hk) as Hmono.
    destruct (Qlt_le_dec timeToSearch (0 + timeToDownload cueBytes kbps1))
      as [H1|H1].
    + (* the horizon is reached inside the first cue at kbps1 *)
      exfalso.
      destruct (parser f) as [p|]; [|discriminate].
      destruct (getCues p) as [[|c cues]|]; try discriminate.
      set (n := Z.to_nat _) in Hr1.
      destruct n; cbn [walkCues] in Hr1.
      * injection Hr1 as <-. cbn in Hsec. exact (Qlt_irrefl _ Hsec).
      * destruct (Qlt_le_dec timeToSearch timeToSearch) as [H|H];
          [exact (Qlt_irrefl _ H)|].
        injection Hr1 as <-. cbn in Hsec. exact (Qlt_irrefl _ Hsec).
    + destruct (Qlt_le_dec timeToSearch (0 + timeToDownload cueBytes kbps2))
        as [H2|H2]; [exfalso; lra|].
      destruct (parser f) as [p|]; [|discriminate].
      destruct (getCues p) as [[|c cues]|]; try discriminate.
      destruct (walkCues f timeToSearch kbps1 _ _ _ _)
        as [[Df1 Mf1]| |] eqn:Hw; try discriminate.
      injection Hr1 as <-. cbn [seconds buffer] in *.
      assert (HD : 0 + timeToDownload cueBytes kbps2 <=
                   0 + timeToDownload cueBytes kbps1) by lra.
      destruct (walkCues_mono f timeToSearch kbps1 kbps2 Hk1 Hk Hsize
                  _ _ _ _ _ _ _ HD Hw Hsec) as (Df2 & Hw2 & Hle).
      rewrite Hw2. eexists. split; [reflexivity|]. cbn [buffer]. lra.
  - destruct (parser f) as [p|]; [|discriminate].
    destruct (getCues p) as [[|c cues]|]; try discriminate.
    destruct (walkCues f timeToSearch kbps1 _ _ _ _)
      as [[Df1 Mf1]| |] eqn:Hw; try discriminate.
    injection Hr1 as <-. cbn [seconds buffer] in *.
    destruct (walkCues_mono f timeToSearch kbps1 kbps2 Hk1 Hk Hsize
                _ _ _ _ _ _ _ (Qle_refl 0) Hw Hsec) as (Df2 & Hw2 & Hle).
    rewrite Hw2. eexists. split; [reflexivity|]. cbn [buffer]. lra.
Qed.



Lemma bisectTime_total cues time : forall fuel l r,
  (0 < fuel)%nat ->
  (r - l < Z.of_nat fuel)%Z ->
  bisectTime fuel cues time l r <> None.
Proof.
  induction fuel as [|fuel IH]; intros l r Hpos Hlt; [lia|].
  cbn [bisectTime].
  destruct (l + 1 <? r)%Z eqn:Hlr; [|discriminate].
  apply Z.ltb_lt in Hlr.
  assert (Hm : (l < l + (r - l + 1) / 2 < r)%Z).
  { pose proof (Z.div_mod (r - l + 1) 2 ltac:(lia)).
    pose proof (Z.mod_pos_bound (r - l + 1) 2 ltac:(lia)). lia. }
  destruct (l + (r - l + 1) / 2 <? 0)%Z; [discriminate|].
  destruct (nth_error cues _); [|discriminate].
  destruct (Qle_bool _ _); apply IH; lia.
Qed.

Lemma getCueIndexFromTime_total f time :
  getCueIndexFromTime_ f time <> None.
Proof.
  unfold getCueIndexFromTime_.
  destruct (parser f) as [p|]; [|discriminate].
  destruct (getCues p) as [[|c cues]|]; try discriminate.
  destruct (nth_error _ _); [|discriminate].
  apply bisectTime_total; [cbn; lia|].
  destruct (Qle_bool _ _); cbn [List.length]; lia.
Qed.

Lemma bufferSizeAfterTime_total f time timeToSearch kbps buf :
  bufferSizeAfterTime f time timeToSearch kbps buf <> None.
Proof.
  unfold bufferSizeAfterTime.
  pose proof (getCueIndexFromTime_total f time) as Ht.
  destruct (getCueIndexFromTime_ f time) as [[i| |]|]; try discriminate;
    [|congruence].
  destruct (getCueDescFromCue_ f i); try discriminate.
  destruct (Qlt_le_dec _ _); [destruct (Qlt_le_dec _ _)|];
    (destruct (parser f) as [p|]; [|discriminate];
     destruct (getCues p) as [[|c cues]|]; try discriminate;
     destruct (walkCues _ _ _ _ _ _ _) as [[? ?]| |]; discriminate).
Qed.


(** *** Rates compared cue by cue *)

(** [walkCuesStop] is [walkCues] with one more component. *)
Lemma walkCuesStop_walkCues f T k n : forall index D M,
  walkCues f T k n index D M =
    match walkCuesStop f T k n index D M with
    | Value (D', M', _) => Value (D', M')
    | Invalid reason => Invalid reason
    | TypeError => TypeError
    end.
Proof.
  induction n as [|n IH]; intros index D M; [reflexivity|].
  cbn [walkCues walkCuesStop].
  destruct (Qlt_le_dec D T); [|reflexivity].
  destruct (getCueDescFromCue_ f index) as [d| |]; try reflexivity.
  destruct (Qlt_le_dec T _); [reflexivity | apply IH].
Qed.

(** A walk that names a cue has used up the horizon, in a cue at or
    after the one it started from. *)
Lemma walkCuesStop_reached f T k n : forall index D M D' M' j,
  walkCuesStop f T k n index D M = Value (D', M', Some j) ->
  D' = T /\ (index <= j)%Z.
Proof.
  induction n as [|n IH]; intros index D M D' M' j Hw; [discriminate Hw|].
  cbn [walkCuesStop] in Hw.
  destruct (Qlt_le_dec D T); [|discriminate Hw].
  destruct (getCueDescFromCue_ f index) as [d| |]; try discriminate.
  destruct (Qlt_le_dec T _).
  - injection Hw as <- _ <-. split; [reflexivity | lia].
  - apply IH in Hw as [-> Hle]. split; [reflexivity | lia].
Qed.

(** Once the horizon is used up the loop does not run. *)
Lemma walkCuesStop_at_horizon f T k n index M :
  walkCuesStop f T k n index T M = Value (T, M, None).
Proof.
  destruct n; cbn [walkCuesStop]; [reflexivity|].
  destruct (Qlt_le_dec T T) as [H|H]; [|reflexivity].
  exfalso. exact (Qlt_irrefl _ H).
Qed.

(** [horizonCue] is defined whenever [bufferSizeAfterTime] returns a
    status, and when it names a cue the projection has used up the
    whole horizon. *)
Lemma horizonCue_bufferSizeAfterTime f time T k buf r :
  bufferSizeAfterTime f time T k buf = Some (Value r) ->
  exists stop,
    horizonCue f time T k = Some (Value stop) /\
    (forall i, stop = Some i -> seconds r = T).
Proof.
  unfold bufferSizeAfterTime, horizonCue. intros Hr.
  destruct (getCueIndexFromTime_ f time) as [[i| |]|]; try discriminate.
  destruct (getCueDescFromCue_ f i) as [d| |]; try discriminate.
  destruct (Qlt_le_dec (WebMFileParser.time d) time) as [Hpart|Hpart].
  - destruct (Qlt_le_dec T _) as [H1|H1].
    + destruct (parser f) as [p|]; [|discriminate].
      destruct (getCues p) as [[|c cues]|]; try discriminate.
      rewrite walkCuesStop_walkCues, walkCuesStop_at_horizon in Hr.
      rewrite walkCuesStop_at_horizon.
      injection Hr as <-.
      eexists. split; [reflexivity|]. intros j _. reflexivity.
    + destruct (parser f) as [p|]; [|discriminate].
      destruct (getCues p) as [[|c cues]|]; try discriminate.
      rewrite walkCuesStop_walkCues in Hr.
      destruct (walkCuesStop f T k _ _ _ _) as [[[D' M'] s]| |] eqn:Hw;
        try discriminate.
      injection Hr as <-. eexists. split; [reflexivity|].
      intros j ->. cbn [seconds].
      apply walkCuesStop_reached in Hw as [-> _]. reflexivity.
  - destruct (parser f) as [p|]; [|discriminate].
    destruct (getCues p) as [[|c cues]|]; try discriminate.
    rewrite walkCuesStop_walkCues in Hr.
    destruct (walkCuesStop f T k _ _ _ _) as [[[D' M'] s]| |] eqn:Hw;
      try discriminate.
    injection Hr as <-. eexists. split; [reflexivity|].
    intros j ->. cbn [seconds].
    apply walkCuesStop_reached in Hw as [-> _]. reflexivity.
Qed.


Section StopCue.
Variable f : WebMFileParser.t.
Variable p : WebMParser.t.
Variable cues : list CuePoint.
Hypothesis Hp : parser f = Some p.
Hypothesis Hc : getCues p = Some cues.
Variable T : Q.
Hypothesis HT : 0 <= T.
Hypothesis Hwf :
  forall i d, getCueDescFromCue_ f i = Value d ->
              (0 <= size d)%Z /\ WebMFileParser.time d <= endTime d.





Variables k1 k2 : Q.
Hypothesis Hk1 : 0 < k1.
Hypothesis Hk : k1 <= k2.



(** *** Cue tables in which no cue is denser than an earlier one *)



Hypothesis Hdense :
  forall i i' d d',
    (i < i')%Z ->
    getCueDescFromCue_ f i = Value d ->
    getCueDescFromCue_ f i' = Value d' ->
    inject_Z (size d') * (endTime d - WebMFileParser.time d) <=
    inject_Z (size d) * (endTime d' - WebMFileParser.time d').




End StopCue.







(** The two runs above, evaluated: the faster rate reaches the horizon
    one cue later and projects about twice the buffer. *)
Example bufferSizeAfterTime_horizon_bounded :
  horizonCue evenFile 0 (1 # 1000) 1000 = Some (Value (Some 0%Z)) /\
  horizonCue evenFile 0 (1 # 1000) 2000 = Some (Value (Some 1%Z)) /\
  (exists r, bufferSizeAfterTime evenFile 0 (1 # 1000) 1000 0
             = Some (Value r) /\ buffer r == 24997 # 3000) /\
  (exists r, bufferSizeAfterTime evenFile 0 (1 # 1000) 2000 0
             = Some (Value r) /\ buffer r == 49997 # 3000).
Proof.
  split; [vm_compute; reflexivity|]. split; [vm_compute; reflexivity|].
  split; eexists; (split; [reflexivity|]); vm_compute; reflexivity.
Qed.

(** In the failing run the faster rate reaches the horizon one cue
    later than the slower rate, in a cue that takes more bytes per
    second of media than the one before it. *)
Example bufferSizeAfterTime_not_monotone_cues :
  horizonCue unevenFile 0 1 (1 # 2) = Some (Value (Some 0%Z)) /\
  horizonCue unevenFile 0 1 2 = Some (Value (Some 1%Z)) /\
  (exists d d',
      getCueDescFromCue_ unevenFile 0 = Value d /\
      getCueDescFromCue_ unevenFile 1 = Value d' /\
      inject_Z (size d) * (endTime d' - WebMFileParser.time d') <
      inject_Z (size d') * (endTime d - WebMFileParser.time d)).
Proof.
  split; [vm_compute; reflexivity|]. split; [vm_compute; reflexivity|].
  eexists _, _. split; [reflexivity|]. split; [reflexivity|].
  vm_compute. reflexivity.
Qed.

End CueFacts.

(** ** Stream queues and the playback controller *)

Module PlayerFacts.
Import Js AdaptiveWebMStream DashPlayer Samples.

(** *** AdaptiveWebMStream.front *)

(** C10.  On a stream whose two queues have the same length: with an
    empty cluster queue [front] returns [null] and leaves the stream as
    it is; otherwise it returns the oldest cluster, removes the first
    entry of both queues and sets [lastTimeSent_] to the end time of the
    removed cue descriptor. *)
Theorem front_spec (s : AdaptiveWebMStream.t) :
  List.length (cueDescQueue s) = List.length (clusterQueue s) ->
  (clusterQueue s = [] -> front s = (Normal None, s)) /\
  (clusterQueue s <> [] ->
   exists data clusters cue descs,
     clusterQueue s = data :: clusters /\
     cueDescQueue s = cue :: descs /\
     front s = (Normal (Some data),
                set_queues s clusters descs (WebMFileParser.endTime cue)) /\
     clusterQueue (snd (front s)) = clusters /\
     cueDescQueue (snd (front s)) = descs /\
     lastTimeSent_ (snd (front s)) = WebMFileParser.endTime cue).
Proof.
  intros Hlen. unfold front. split.
  - intros ->. reflexivity.
  - intros Hne.
    destruct (clusterQueue s) as [|data clusters]; [congruence|].
    destruct (cueDescQueue s) as [|cue descs]; [discriminate Hlen|].
    exists data, clusters, cue, descs. repeat split.
Qed.

Lemma front_spec_witness :
  let s := streamWith false [[x1f; x43]] [desc 0 10 100 2] 0
                      (desc 10 20 102 2) in
  front s = (Normal (Some [x1f; x43]), set_queues s [] [] 10).
Proof.
  intros s.
  destruct (proj2 (front_spec s eq_refl) ltac:(discriminate))
    as (data & clusters & c & descs & Hc & Hd & Hf & _).
  cbn in Hc, Hd. injection Hc as <- <-. injection Hd as <- <-.
  exact Hf.
Defined.

Lemma front_preserves_lockstep s :
  List.length (cueDescQueue s) = List.length (clusterQueue s) ->
  List.length (cueDescQueue (snd (front s))) =
    List.length (clusterQueue (snd (front s))).
Proof.
  unfold front. intros H.
  destruct (clusterQueue s) eqn:Hc; [cbn [snd]; rewrite Hc; exact H|].
  destruct (cueDescQueue s) eqn:Hd; [discriminate H|]. cbn in *. lia.
Qed.

Lemma push_preserves_lockstep s b d :
  List.length (cueDescQueue s) = List.length (clusterQueue s) ->
  List.length (cueDescQueue (push s b d)) =
    List.length (clusterQueue (push s b d)).
Proof. intros H. cbn. rewrite !length_app. cbn. lia. Qed.

Lemma front_without_descriptor s data clusters :
  clusterQueue s = data :: clusters -> cueDescQueue s = [] ->
  front s = (Throw, s).
Proof. unfold front. intros -> ->. reflexivity. Qed.

(** *** Seek sequence guard *)

Lemma queues_set_fetching p r s b :
  getStream p r = Some s ->
  queues (setStream p r (set_fetchingClusters s b)) = queues p.
Proof.
  destruct r; cbn.
  - intros [= <-]. reflexivity.
  - unfold queues. intros ->. reflexivity.
Qed.

Lemma queues_add_timer p c : queues (add_timer p c) = queues p.
Proof. reflexivity. Qed.

(** C4.  A completion callback whose sequence number differs from the
    player's current seek sequence number leaves the cluster queue and
    the cue-descriptor queue of every stream as they are, for the
    whole-cluster callback and for the partial one, whether it returns
    or raises. *)
Theorem stale_completion_not_queued
        (checkVideoStreamFutureTime : DashPlayer.t -> DashPlayer.t)
        (p : DashPlayer.t) (r : StreamRef)
        (nextCueDesc : option CueDesc) (seqNum : Z)
        (buf : option Uint8Array) :
  seqNum <> seekSequenceNum p ->
  queues (snd (onClusterDownloadedDesc checkVideoStreamFutureTime
                 p r nextCueDesc seqNum buf)) = queues p /\
  queues (snd (onPartialCueDescDownload checkVideoStreamFutureTime
                 p r nextCueDesc seqNum buf)) = queues p.
Proof.
  intros Hseq. apply Z.eqb_neq in Hseq.
  unfold onClusterDownloadedDesc, onPartialCueDescDownload.
  destruct (getStream p r) as [stream|] eqn:Hs; [|split; reflexivity].
  rewrite Hseq. cbn [negb].
  pose proof (queues_set_fetching p r stream false Hs) as Hq.
  split.
  - destruct (State_eqb (state p) SEEKING);
      [destruct (logCueArgs stream buf); cbn [snd];
       [rewrite queues_add_timer; exact Hq | reflexivity]|].
    destruct (State_eqb (state p) STOPPED);
      [destruct (logCueArgs stream buf); cbn [snd];
       [exact Hq | reflexivity]|].
    destruct (negb (State_eqb (state p) LOADING)); [exact Hq|].
    destruct (logCueArgs stream buf); cbn [snd]; [exact Hq | reflexivity].
  - set (cueFinished := match nextCueDesc with Some _ => _ | None => true end).
    destruct (State_eqb (state p) SEEKING);
      [destruct (logCueArgs stream buf); [destruct cueFinished|]; cbn [snd];
       [rewrite queues_add_timer; exact Hq | reflexivity | reflexivity]|].
    destruct (State_eqb (state p) STOPPED);
      [destruct (logCueArgs stream buf); cbn [snd];
       [exact Hq | reflexivity]|].
    destruct (negb (State_eqb (state p) LOADING)); [exact Hq|].
    destruct (logCueArgs stream buf); [destruct cueFinished|]; cbn [snd];
      [exact Hq | reflexivity | reflexivity].
Qed.

Lemma stale_completion_not_queued_witness :
  queues (snd (onClusterDownloadedDesc (fun p => p) seekedPlayer Video
                 (Some (desc 10 20 250 150)) 0 (Some [x1f; x43])))
    = queues seekedPlayer /\
  queues (snd (onPartialCueDescDownload (fun p => p) seekedPlayer Video
                 (Some (desc 10 20 250 150)) 0 (Some [x1f; x43])))
    = queues seekedPlayer.
Proof.
  apply (stale_completion_not_queued (fun p => p) seekedPlayer Video
           (Some (desc 10 20 250 150)) 0 (Some [x1f; x43])).
  cbn. lia.
Defined.

(** With the matching sequence number the same completion is queued. *)
Example fresh_completion_queued :
  queues (snd (onPartialCueDescDownload (fun p => p) seekedPlayer Video
                 (Some (desc 10 20 250 150)) 1 (Some [x1f; x43])))
    = (([[x1f; x43]], [desc 0 10 100 150]), None).
Proof. reflexivity. Qed.

(** *** End of stream *)


(** [sendClusters], which nothing outside of its own cycle calls any
    more, signals end of stream as soon as both streams are at
    end-of-clusters, without looking at the queues: here the audio
    cluster that starts after the last video time sent is still queued
    when the signal is given. *)
Example sendClusters_ends_stream_with_queued_audio :
  let '(c, p') := sendClusters lateAudioPlayer in
  c = Normal tt /\
  newSinkCalls lateAudioPlayer p' = [SourceEndOfStream] /\
  option_map clusterQueue (aud p') = Some [[x1f; x43]] /\
  ~ allDrained p'.
Proof.
  cbn. repeat split.
  intros [_ [_ H]]. discriminate H.
Qed.

Lemma skipn_length_app {A} (l l' : list A) :
  skipn (List.length l) (l ++ l') = l'.
Proof. induction l; cbn; auto. Qed.

Lemma newSinkCalls_nil p p' : sink p' = sink p -> newSinkCalls p p' = [].
Proof.
  unfold newSinkCalls. intros ->.
  rewrite <- (app_nil_r (sink p)) at 2. apply skipn_length_app.
Qed.


Lemma appendIfData_streams p data :
  vid (appendIfData p data) = vid p /\ aud (appendIfData p data) = aud p /\
  exists l, sink (appendIfData p data) = sink p ++ l /\
            ~ In SourceEndOfStream l.
Proof.
  unfold appendIfData, appendData.
  destruct data as [d|]; [destruct (State_eqb (state p) LOADING)|]; cbn;
    repeat split;
    solve [ exists [SourceAppend d]; split;
              [reflexivity | intros [H|[]]; discriminate H]
          | exists []; split; [symmetry; apply app_nil_r | intros []] ].
Qed.

Lemma front_cases s :
  (front s = (Throw, s)) \/
  (exists data, front s = (Normal data, snd (front s)) /\
                endOfClusters_ (snd (front s)) = endOfClusters_ s).
Proof.
  unfold front. destruct (clusterQueue s); [right; eexists; split; reflexivity|].
  destruct (cueDescQueue s); [left; reflexivity|].
  right. eexists. split; reflexivity.
Qed.

Lemma checkFront_cases s t :
  (checkFront s t = (Throw, s)) \/
  (exists data, checkFront s t = (Normal data, snd (checkFront s t)) /\
                endOfClusters_ (snd (checkFront s t)) = endOfClusters_ s).
Proof.
  unfold checkFront.
  destruct (clusterQueue s); [right; eexists; split; reflexivity|].
  destruct (cueDescQueue s); [left; reflexivity|].
  destruct (Qle_bool _ _); right; eexists; split; reflexivity.
Qed.

Lemma empty_true s : empty s = true -> clusterQueue s = [].
Proof. unfold empty. destruct (clusterQueue s); [reflexivity|discriminate]. Qed.

Lemma newSinkCalls_app p p' l :
  sink p' = sink p ++ l -> newSinkCalls p p' = l.
Proof. unfold newSinkCalls. intros ->. apply skipn_length_app. Qed.

(** [sendPartialClusters], which the player runs, does check the
    queues: it only signals end of stream when every active stream is
    drained. *)
Lemma sendPartialClusters_end_of_stream_only_when_drained p c p' :
  sendPartialClusters p = (c, p') ->
  In SourceEndOfStream (newSinkCalls p p') ->
  allDrained p'.
Proof.
  unfold sendPartialClusters. intros Hrun Heos.
  (* the audio hand-off *)
  set (audioStep := match aud p with Some _ => _ | None => _ end) in Hrun.
  assert (Ha : exists l1,
             sink (snd audioStep) = sink p ++ l1 /\
             ~ In SourceEndOfStream l1 /\
             (fst audioStep = Throw ->
              newSinkCalls p (snd audioStep) = [])).
  { subst audioStep. destruct (aud p) as [a|].
    - set (res := if _ : bool then front a else _).
      assert (Hres : res = (Throw, a) \/
                     exists data, res = (Normal data, snd res)).
      { subst res. destruct (_ && _).
        - destruct (front_cases a) as [H|(d & H & _)]; eauto.
        - destruct (checkFront_cases a (lastTimeSent_ (vid p)))
            as [H|(d & H & _)]; eauto. }
      destruct Hres as [->|(data & ->)].
      + exists []. cbn. repeat split; [symmetry; apply app_nil_r|intros []|].
        intros _. apply newSinkCalls_nil. reflexivity.
      + cbn [fst snd].
        destruct (appendIfData_streams (set_aud p (Some (snd res))) data)
          as (_ & _ & l & Hl & Hnl).
        exists l. repeat split; [exact Hl | exact Hnl | discriminate].
    - exists []. cbn. repeat split; [symmetry; apply app_nil_r|intros []|].
      discriminate. }
  destruct audioStep as [c1 p1]. cbn [fst snd] in Ha.
  destruct Ha as (l1 & Hs1 & Hn1 & Hthrow1).
  destruct c1 as [[]|].
  2:{ injection Hrun as <- <-. rewrite (Hthrow1 eq_refl) in Heos.
      destruct Heos. }
  (* the video hand-off *)
  destruct (front_cases (vid p1)) as [Hf|(data & Hf & Hend)].
  { rewrite Hf in Hrun. injection Hrun as <- <-.
    rewrite (newSinkCalls_app p (set_vid p1 (vid p1)) l1) in Heos
      by exact Hs1.
    contradiction. }
  rewrite Hf in Hrun.
  set (v' := snd (front (vid p1))) in *.
  destruct (appendIfData_streams (set_vid p1 v') data)
    as (Hv & Hau & l2 & Hs2 & Hn2).
  set (p2 := appendIfData (set_vid p1 v') data) in *.
  cbn [sink set_vid] in Hs2. rewrite Hs1, <- app_assoc in Hs2.
  assert (Hno : ~ In SourceEndOfStream (l1 ++ l2)).
  { intros H. apply in_app_or in H as [H|H]; contradiction. }
  destruct (endOfClusters_ (vid p2) && empty (vid p2)) eqn:Hdone.
  2:{ injection Hrun as <- <-.
      rewrite (newSinkCalls_app p p2 _ Hs2) in Heos. contradiction. }
  apply andb_prop in Hdone as [Heoc Hemp]. apply empty_true in Hemp.
  destruct (aud p2) as [a|] eqn:Haud.
  - destruct (negb (empty a)) eqn:Hae.
    + injection Hrun as <- <-.
      rewrite (newSinkCalls_app p (add_timer p2 RunSendPartialClusters) _ Hs2)
        in Heos.
      contradiction.
    + apply negb_false_iff in Hae. apply empty_true in Hae.
      destruct (endOfClusters_ a) eqn:Haeoc.
      * injection Hrun as <- <-.
        unfold allDrained, drained.
        cbn [vid aud endOfStream add_sink]. rewrite Haud.
        repeat split; assumption.
      * injection Hrun as <- <-.
        rewrite (newSinkCalls_app p p2 _ Hs2) in Heos. contradiction.
  - injection Hrun as <- <-.
    unfold allDrained, drained.
    cbn [vid aud endOfStream add_sink]. rewrite Haud.
    repeat split; assumption.
Qed.

End PlayerFacts.

(** ** More on the EBML layer *)

Module EbmlExtra.
Import Js EbmlParser EbmlFacts WebMFileParser Samples.

(** The marker loop, completely: where the marker is found and what is
    left of the first byte. *)
Lemma findMarker_exact (b : byte) (m : bool) (n : nat) :
  (n <= 8)%nat ->
  findMarker (Some (byteVal b)) m 128 0 n =
    match markerIndex (byteVal b) with
    | Some j =>
        if j <? Z.of_nat n
        then Some (if m then byteVal b - 2 ^ (7 - j) else byteVal b, j)
        else None
    | None => None
    end.
Proof.
  intros Hn.
  destruct n as [|[|[|[|[|[|[|[|[|n]]]]]]]]]; try lia;
    destruct m; destruct b; vm_compute; reflexivity.
Qed.

Lemma findMarker_undefined (m : bool) (n : nat) :
  (n <= 8)%nat -> findMarker None m 128 0 n = None.
Proof.
  intros Hn.
  destruct n as [|[|[|[|[|[|[|[|[|n]]]]]]]]]; try lia;
    destruct m; vm_compute; reflexivity.
Qed.

Lemma readExtra_bytesUsed buf start n : forall num bytesUsed,
  snd (readExtra buf start num bytesUsed n) = bytesUsed + Z.of_nat n.
Proof.
  induction n as [|n IH]; intros num bytesUsed.
  - cbn. lia.
  - cbn [readExtra]. rewrite IH. lia.
Qed.

Lemma slice_cons (buf : Uint8Array) (k : Z) (n : nat) (b : byte) :
  0 <= k ->
  nth_error buf (Z.to_nat k) = Some b ->
  slice buf k (Z.of_nat (S n)) = b :: slice buf (k + 1) (Z.of_nat n).
Proof.
  intros Hk Hb. unfold slice. rewrite !Nat2Z.id.
  replace (Z.to_nat (k + 1)) with (S (Z.to_nat k)) by lia.
  assert (Hsk : skipn (Z.to_nat k) buf = b :: skipn (S (Z.to_nat k)) buf).
  { revert Hb. generalize (Z.to_nat k) as i.
    induction buf as [|x buf IHb]; intros [|i] H; try discriminate.
    - injection H as ->. reflexivity.
    - cbn [nth_error] in H. rewrite (IHb i H) at 1. reflexivity. }
  rewrite Hsk. reflexivity.
Qed.

Lemma get_in_range (buf : Uint8Array) (k : Z) :
  0 <= k < Js.length buf ->
  exists b, nth_error buf (Z.to_nat k) = Some b /\
            get buf k = Some (byteVal b).
Proof.
  intros Hk. unfold Js.length in Hk.
  destruct (nth_error buf (Z.to_nat k)) as [b|] eqn:E.
  - exists b. split; [reflexivity|]. unfold get.
    destruct (k <? 0) eqn:Hn; [apply Z.ltb_lt in Hn; lia|].
    rewrite E. reflexivity.
  - apply nth_error_None in E. lia.
Qed.

Lemma readExtra_fold (buf : Uint8Array) (start : Z) (n : nat) :
  forall bytesUsed V,
    0 <= start + bytesUsed ->
    start + bytesUsed + Z.of_nat n <= Js.length buf ->
    fst (readExtra buf start (toInt32 V) bytesUsed n) =
      toInt32 (fold_left beStep (slice buf (start + bytesUsed) (Z.of_nat n)) V).
Proof.
  induction n as [|n IH]; intros bytesUsed V Hlo Hhi.
  - reflexivity.
  - cbn [readExtra].
    destruct (get_in_range buf (start + bytesUsed) ltac:(lia))
      as (b & Hnth & Hget).
    rewrite Hget.
    assert (Hstep : bor (shl (toInt32 V) 8)
                        (band 255 (int32_of (Some (byteVal b)))) =
                    toInt32 (V * 256 + byteVal b)).
    { rewrite <- readUInt_step. unfold bor, band.
      rewrite (Z.land_comm (toInt32 255)). reflexivity. }
    rewrite Hstep, IH by lia.
    rewrite (slice_cons buf (start + bytesUsed) n b) by (lia || exact Hnth).
    cbn [fold_left]. change (beStep V b) with (V * 256 + byteVal b).
    replace (start + bytesUsed + 1) with (start + (bytesUsed + 1)) by lia.
    reflexivity.
Qed.

Lemma fold_beStep_shift (l : list byte) : forall a c,
  fold_left beStep l (a + c) =
    fold_left beStep l a + c * 256 ^ Z.of_nat (List.length l).
Proof.
  induction l as [|b l IH]; intros a c.
  - cbn. lia.
  - cbn [fold_left List.length].
    change (beStep (a + c) b) with ((a + c) * 256 + byteVal b).
    change (beStep a b) with (a * 256 + byteVal b).
    replace ((a + c) * 256 + byteVal b) with (a * 256 + byteVal b + c * 256)
      by lia.
    rewrite IH. rewrite Nat2Z.inj_succ, Z.pow_succ_r by lia. lia.
Qed.

Lemma fold_beStep_bound (l : list byte) : forall a,
  0 <= a ->
  0 <= fold_left beStep l a < (a + 1) * 256 ^ Z.of_nat (List.length l).
Proof.
  induction l as [|b l IH]; intros a Ha.
  - cbn. lia.
  - cbn [fold_left List.length].
    change (beStep a b) with (a * 256 + byteVal b).
    pose proof (byteVal_range b) as Hb.
    specialize (IH (a * 256 + byteVal b) ltac:(lia)).
    rewrite Nat2Z.inj_succ, Z.pow_succ_r by lia.
    assert (HP : 0 < 256 ^ Z.of_nat (List.length l))
      by (apply Z.pow_pos_nonneg; lia).
    assert (Hm : (a * 256 + byteVal b + 1) * 256 ^ Z.of_nat (List.length l)
                 <= ((a + 1) * 256) * 256 ^ Z.of_nat (List.length l))
      by (apply Z.mul_le_mono_nonneg_r; lia).
    lia.
Qed.

Lemma slice_length (buf : Uint8Array) (k n : Z) :
  0 <= k -> 0 <= n -> k + n <= Js.length buf ->
  Z.of_nat (List.length (slice buf k n)) = n.
Proof.
  intros Hk Hn Hle. unfold slice, Js.length in *.
  rewrite length_firstn, length_skipn. lia.
Qed.

Lemma markerIndex_range (b : byte) (j : Z) :
  markerIndex (byteVal b) = Some j ->
  2 ^ (7 - j) <= byteVal b < 2 ^ (8 - j).
Proof.
  intros H. pose proof (markerIndex_bounds _ _ H) as Hj.
  destruct b; vm_compute in H; try discriminate H;
    injection H as <-; vm_compute; split; congruence.
Qed.


Lemma byteVal_inj (a b : byte) : byteVal a = byteVal b -> a = b.
Proof.
  unfold byteVal. intros H. apply N2Z.inj in H.
  pose proof (Byte.of_to_N a) as Ha. pose proof (Byte.of_to_N b) as Hb.
  congruence.
Qed.

(** The three outcomes of [parseNum_] on a non-empty window. *)
Lemma parseNum_cases buf start size maxBytes m :
  1 <= size -> maxBytes <= 8 ->
  match requiredBytes buf start maxBytes with
  | None => parseNum_ buf start size maxBytes m = InvalidData
  | Some r =>
      1 <= r <= maxBytes /\
      if r <=? size
      then exists v, parseNum_ buf start size maxBytes m = Ok r v
      else parseNum_ buf start size maxBytes m = NeedMoreData (r - size)
  end.
Proof.
  intros Hsize Hmax.
  unfold requiredBytes, parseNum_.
  destruct (size <=? 0) eqn:Hs; [apply Z.leb_le in Hs; lia|].
  destruct (get buf start) as [z|] eqn:Hg.
  - destruct (get_byteVal _ _ _ Hg) as [b ->].
    rewrite findMarker_exact by lia.
    destruct (markerIndex (byteVal b)) as [j|] eqn:Hj; [|reflexivity].
    pose proof (markerIndex_bounds _ _ Hj) as Hjb.
    destruct (j <? maxBytes) eqn:Hlt.
    + apply Z.ltb_lt in Hlt.
      destruct (j <? Z.of_nat (Z.to_nat maxBytes)) eqn:Hlt';
        [|apply Z.ltb_ge in Hlt'; lia].
      split; [lia|].
      destruct (1 + j <=? size) eqn:Hle.
      * apply Z.leb_le in Hle.
        destruct (1 + j >? size) eqn:Hgt;
          [rewrite Z.gtb_ltb in Hgt; apply Z.ltb_lt in Hgt; lia|].
        pose proof (readExtra_bytesUsed buf start (Z.to_nat j)
                      (if m then byteVal b - 2 ^ (7 - j) else byteVal b) 1)
          as Hbu.
        destruct (readExtra buf start _ 1 (Z.to_nat j)) as [num' bu].
        cbn [snd] in Hbu. subst bu. rewrite Z2Nat.id by lia.
        exists num'. reflexivity.
      * apply Z.leb_gt in Hle.
        destruct (1 + j >? size) eqn:Hgt; [reflexivity|].
        rewrite Z.gtb_ltb in Hgt. apply Z.ltb_ge in Hgt. lia.
    + apply Z.ltb_ge in Hlt.
      destruct (j <? Z.of_nat (Z.to_nat maxBytes)) eqn:Hlt';
        [apply Z.ltb_lt in Hlt'; lia | reflexivity].
  - rewrite findMarker_undefined by lia. reflexivity.
Qed.

(** The number [parseNum_] decodes. *)
Lemma parseNum_decoded buf start size maxBytes (m : bool) r :
  maxBytes <= 8 ->
  requiredBytes buf start maxBytes = Some r ->
  r <= size ->
  0 <= start -> start + r <= Js.length buf ->
  let raw := beUInt (slice buf start r) - (if m then 2 ^ (7 * r) else 0) in
  parseNum_ buf start size maxBytes m = Ok r (toInt32 raw) /\
  0 <= raw < 2 ^ (7 * r + 1).
Proof.
  intros Hmax Hreq Hle Hstart Hlen raw.
  destruct (requiredBytes_inv _ _ _ _ Hreq) as (b & Hb & Hj & Hlt).
  pose proof (markerIndex_bounds _ _ Hj) as Hjb.
  pose proof (markerIndex_range _ _ Hj) as Hrange.
  assert (Hnth : nth_error buf (Z.to_nat start) = Some b).
  { destruct (get_in_range buf start ltac:(lia)) as (b' & Hn & Hg).
    rewrite Hg in Hb. injection Hb as Hb.
    assert (b' = b) as ->; [|exact Hn].
    apply byteVal_inj. exact Hb. }
  set (num := if m then byteVal b - 2 ^ (7 - (r - 1)) else byteVal b).
  assert (Hnum : 0 <= num < 2 ^ (8 - (r - 1))).
  { subst num. destruct m; [|lia].
    assert (2 ^ (8 - (r - 1)) = 2 * 2 ^ (7 - (r - 1))).
    { rewrite <- Z.pow_succ_r by lia. f_equal. lia. }
    lia. }
  assert (Hslice : slice buf start r = b :: slice buf (start + 1) (r - 1)).
  { replace r with (Z.of_nat (S (Z.to_nat (r - 1)))) at 1 by lia.
    rewrite (slice_cons buf start (Z.to_nat (r - 1)) b) by (lia || exact Hnth).
    rewrite Z2Nat.id by lia. reflexivity. }
  assert (Hlenrest : Z.of_nat (List.length (slice buf (start + 1) (r - 1)))
                     = r - 1) by (apply slice_length; lia).
  assert (Hraw : raw = fold_left beStep (slice buf (start + 1) (r - 1)) num).
  { subst raw num. unfold beUInt. rewrite Hslice. cbn [fold_left].
    change (fold_left (fun acc b0 => acc * 256 + byteVal b0))
      with (fold_left beStep).
    replace (0 * 256 + byteVal b) with (byteVal b) by lia.
    destruct m; [|lia].
    replace (byteVal b - 2 ^ (7 - (r - 1)))
      with (byteVal b + (- 2 ^ (7 - (r - 1)))) by lia.
    rewrite fold_beStep_shift, Hlenrest.
    replace (256 ^ (r - 1)) with (2 ^ (8 * (r - 1)))
      by (rewrite Z.pow_mul_r by lia; reflexivity).
    rewrite Z.mul_opp_l, <- Z.pow_add_r by lia.
    replace (7 - (r - 1) + 8 * (r - 1)) with (7 * r) by lia. lia. }
  assert (Hbound : 0 <= raw < 2 ^ (7 * r + 1)).
  { rewrite Hraw.
    pose proof (fold_beStep_bound (slice buf (start + 1) (r - 1)) num
                  ltac:(lia)) as Hfb.
    rewrite Hlenrest in Hfb.
    replace (256 ^ (r - 1)) with (2 ^ (8 * (r - 1))) in Hfb
      by (rewrite Z.pow_mul_r by lia; reflexivity).
    assert (Hm : (num + 1) * 2 ^ (8 * (r - 1))
                 <= 2 ^ (8 - (r - 1)) * 2 ^ (8 * (r - 1))).
    { apply Z.mul_le_mono_nonneg_r; [apply Z.pow_nonneg|]; lia. }
    rewrite <- Z.pow_add_r in Hm by lia.
    replace (8 - (r - 1) + 8 * (r - 1)) with (7 * r + 1) in Hm by lia.
    lia. }
  assert (Hrun : parseNum_ buf start size maxBytes m = Ok r (toInt32 raw)).
  { unfold parseNum_.
    destruct (size <=? 0) eqn:Hs; [apply Z.leb_le in Hs; lia|].
    rewrite Hb, findMarker_exact by lia. rewrite Hj.
    destruct (r - 1 <? Z.of_nat (Z.to_nat maxBytes)) eqn:Hlt';
      [|apply Z.ltb_ge in Hlt'; lia].
    destruct (1 + (r - 1) >? size) eqn:Hgt;
      [rewrite Z.gtb_ltb in Hgt; apply Z.ltb_lt in Hgt; lia|].
    fold num.
    pose proof (readExtra_bytesUsed buf start (Z.to_nat (r - 1)) num 1) as Hbu.
    pose proof (readExtra_fold buf start (Z.to_nat (r - 1)) 1 num
                  ltac:(lia) ltac:(lia)) as Hfold.
    rewrite (toInt32_small num) in Hfold.
    2:{ assert (2 ^ (8 - (r - 1)) <= 2 ^ 8)
          by (apply Z.pow_le_mono_r; lia).
        change (2 ^ 8) with 256 in *. lia. }
    destruct (readExtra buf start num 1 (Z.to_nat (r - 1))) as [num' bu].
    cbn [fst snd] in *. subst bu num'.
    rewrite Z2Nat.id by lia. rewrite <- Hraw.
    f_equal. lia. }
  split; [exact Hrun | exact Hbound].
Qed.


(** The two numbers behind a parsed header. *)
Lemma parseElementHeader_parts buf start size n h :
  parseElementHeader buf start size = Ok n (Some h) ->
  exists r1 r2 v2,
    requiredBytes buf start 4 = Some r1 /\
    requiredBytes buf (start + r1) 8 = Some r2 /\
    parseNum_ buf start size 4 false = Ok r1 (id h) /\
    parseNum_ buf (start + r1) (size - r1) 8 true = Ok r2 v2 /\
    elementSize h = v2 /\
    n = r1 + r2 /\ n <= size /\ 2 <= n <= MAX_ELEMENT_HEADER_SIZE.
Proof.
  unfold parseElementHeader.
  destruct (size =? 0) eqn:H0; [discriminate|]. apply Z.eqb_neq in H0.
  destruct (Z_le_gt_dec size 0) as [Hneg|Hpos].
  { unfold parseNum_ at 1.
    destruct (size <=? 0) eqn:Hs; [discriminate|].
    apply Z.leb_gt in Hs. lia. }
  pose proof (parseNum_cases buf start size 4 false ltac:(lia) ltac:(lia))
    as Hid.
  destruct (requiredBytes buf start 4) as [r1|];
    [|rewrite Hid; discriminate].
  destruct Hid as [Hr1 Hid].
  destruct (r1 <=? size) eqn:Hle1; [|rewrite Hid; discriminate].
  apply Z.leb_le in Hle1. destruct Hid as [v1 Hid]. rewrite Hid.
  destruct (r1 <=? 0) eqn:Hz; [apply Z.leb_le in Hz; lia|].
  destruct (Z.eq_dec (size - r1) 0) as [He|Hne].
  { rewrite He. unfold parseNum_ at 1. cbn. discriminate. }
  pose proof (parseNum_cases buf (start + r1) (size - r1) 8 true
                ltac:(lia) ltac:(lia)) as Hsz.
  destruct (requiredBytes buf (start + r1) 8) as [r2|] eqn:Hreq2;
    [|rewrite Hsz; discriminate].
  destruct Hsz as [Hr2 Hsz].
  destruct (r2 <=? size - r1) eqn:Hle2; [|rewrite Hsz; discriminate].
  apply Z.leb_le in Hle2. destruct Hsz as [v2 Hsz]. rewrite Hsz.
  destruct (r2 <=? 0) eqn:Hz2; [apply Z.leb_le in Hz2; lia|].
  intros [= <- <-]. cbn [id elementSize].
  exists r1, r2, v2. unfold MAX_ELEMENT_HEADER_SIZE.
  repeat split; try reflexivity; try assumption; lia.
Qed.

(** X1.  On a window of at least one byte, [parseNum_] is decided by the
    first byte alone.  It reports invalid data exactly when that byte
    has no marker bit among its first [maxBytes] bits.  Otherwise the
    number takes [r] bytes (marker position plus one): [parseNum_] asks
    for more data exactly when [r] exceeds the window, and then for the
    [r - size] bytes that are missing; it succeeds whenever the [r]
    bytes fit, and a success always uses exactly [r] bytes. *)
Theorem parseNum_status buf start size maxBytes m :
  1 <= size -> maxBytes <= 8 ->
  (parseNum_ buf start size maxBytes m = InvalidData <->
   requiredBytes buf start maxBytes = None) /\
  (forall n,
      parseNum_ buf start size maxBytes m = NeedMoreData n <->
      exists r, requiredBytes buf start maxBytes = Some r /\
                size < r /\ n = r - size) /\
  (forall n v,
      parseNum_ buf start size maxBytes m = Ok n v ->
      requiredBytes buf start maxBytes = Some n /\
      1 <= n <= maxBytes /\ n <= size) /\
  (forall r,
      requiredBytes buf start maxBytes = Some r -> r <= size ->
      exists v, parseNum_ buf start size maxBytes m = Ok r v).
Proof.
  intros Hsize Hmax.
  pose proof (parseNum_cases buf start size maxBytes m Hsize Hmax) as H.
  destruct (requiredBytes buf start maxBytes) as [r|].
  - destruct H as [Hr H].
    destruct (r <=? size) eqn:Hfit.
    + apply Z.leb_le in Hfit. destruct H as [v Hv].
      split; [rewrite Hv; split; discriminate|].
      split; [|split].
      * intros n. rewrite Hv. split; [discriminate|].
        intros (r' & [= <-] & Hlt & _). lia.
      * intros n v'. rewrite Hv. intros [= <- <-].
        repeat split; lia.
      * intros r' [= <-] _. exists v. exact Hv.
    + apply Z.leb_gt in Hfit.
      split; [rewrite H; split; discriminate|].
      split; [|split].
      * intros n. rewrite H. split.
        -- intros [= <-]. exists r. repeat split. exact Hfit.
        -- intros (r' & [= <-] & _ & ->). reflexivity.
      * intros n v. rewrite H. discriminate.
      * intros r' [= <-] Hle. lia.
  - split; [split; [reflexivity | intros _; exact H]|].
    split; [|split].
    + intros n. rewrite H. split; [discriminate|].
      intros (r' & Hr' & _). discriminate Hr'.
    + intros n v. rewrite H. discriminate.
    + intros r' Hr'. discriminate Hr'.
Qed.

Lemma parseNum_status_witness :
  exists v, parseNum_ [x40; x01] 0 2 4 false = Ok 2 v.
Proof.
  destruct (parseNum_status [x40; x01] 0 2 4 false ltac:(lia) ltac:(lia))
    as (_ & _ & _ & Hok).
  apply Hok; [reflexivity | lia].
Defined.

(** X2.  When the [r] bytes of the number are inside the buffer and the
    window, [parseNum_] returns the big-endian value of these bytes,
    with the marker bit removed when [maskFirstByte] is set, reduced to
    a signed 32-bit integer.  The value before reduction is below
    [2^(7r+1)], so numbers of up to four bytes are returned exactly and
    are never negative. *)
Theorem parseNum_value buf start size maxBytes (m : bool) r :
  maxBytes <= 8 ->
  requiredBytes buf start maxBytes = Some r ->
  r <= size ->
  0 <= start -> start + r <= Js.length buf ->
  let raw := beUInt (slice buf start r) - (if m then 2 ^ (7 * r) else 0) in
  parseNum_ buf start size maxBytes m = Ok r (toInt32 raw) /\
  0 <= raw < 2 ^ (7 * r + 1) /\
  (r <= 4 -> parseNum_ buf start size maxBytes m = Ok r raw).
Proof.
  intros Hmax Hreq Hle Hstart Hlen raw.
  destruct (parseNum_decoded buf start size maxBytes m r Hmax Hreq Hle
              Hstart Hlen) as [Hrun Hbound].
  fold raw in Hrun, Hbound.
  split; [exact Hrun|]. split; [exact Hbound|].
  intros H4. rewrite Hrun. f_equal. apply toInt32_small.
  assert (2 ^ (7 * r + 1) <= 2 ^ 29) by (apply Z.pow_le_mono_r; lia).
  change (2 ^ 29) with 536870912 in *. lia.
Qed.

Lemma parseNum_value_witness :
  parseNum_ [x40; x01] 0 2 4 true = Ok 2 1.
Proof.
  exact (proj2 (proj2 (parseNum_value [x40; x01] 0 2 4 true 2
                         ltac:(lia) eq_refl ltac:(lia) ltac:(lia)
                         ltac:(cbn; lia)))
           ltac:(lia)).
Defined.

(** X3.  A header returned by [parseElementHeader] is made of two
    variable-length numbers that lie back to back: the id, of [r1] bytes
    (at most four), and the size, of [r2] bytes (at most eight).  The
    bytes used are [r1 + r2], between 2 and 12 and never more than the
    window.  When these bytes are inside the buffer, the id is the
    big-endian value of its bytes with the marker bit kept, and the
    element size is the value of the size bytes with the marker bit
    removed, reduced to a signed 32-bit integer. *)
Theorem parseElementHeader_ok buf start size n h :
  parseElementHeader buf start size = Ok n (Some h) ->
  0 <= start -> start + n <= Js.length buf ->
  exists r1 r2,
    requiredBytes buf start 4 = Some r1 /\
    requiredBytes buf (start + r1) 8 = Some r2 /\
    n = r1 + r2 /\ n <= size /\ 2 <= n <= MAX_ELEMENT_HEADER_SIZE /\
    id h = beUInt (slice buf start r1) /\
    elementSize h =
      toInt32 (beUInt (slice buf (start + r1) r2) - 2 ^ (7 * r2)).
Proof.
  intros Hh Hstart Hlen.
  destruct (parseElementHeader_parts _ _ _ _ _ Hh)
    as (r1 & r2 & v2 & H1 & H2 & Hid & Hsz & Hv & Hn & Hle & Hb).
  destruct (requiredBytes_inv _ _ _ _ H1) as (b1 & _ & Hj1 & Hm1).
  destruct (requiredBytes_inv _ _ _ _ H2) as (b2 & _ & Hj2 & Hm2).
  pose proof (markerIndex_bounds _ _ Hj1) as Hb1.
  pose proof (markerIndex_bounds _ _ Hj2) as Hb2.
  destruct (parseNum_decoded buf start size 4 false r1 ltac:(lia) H1
              ltac:(lia) Hstart ltac:(lia)) as [Hid' Hbound].
  destruct (parseNum_decoded buf (start + r1) (size - r1) 8 true r2
              ltac:(lia) H2 ltac:(lia) ltac:(lia) ltac:(lia)) as [Hsz' _].
  rewrite Hid in Hid'. rewrite Hsz in Hsz'.
  injection Hid' as Hid'. injection Hsz' as Hsz'.
  exists r1, r2. repeat split; try assumption; try lia.
  - rewrite Hid'. rewrite toInt32_small; [lia|].
    assert (2 ^ (7 * r1 + 1) <= 2 ^ 29) by (apply Z.pow_le_mono_r; lia).
    change (2 ^ 29) with 536870912 in *. lia.
  - rewrite Hv. exact Hsz'.
Qed.

Lemma parseElementHeader_ok_witness :
  exists r1 r2,
    requiredBytes segmentStart 0 4 = Some r1 /\
    requiredBytes segmentStart (0 + r1) 8 = Some r2 /\
    5 = r1 + r2 /\ 5 <= 6 /\ 2 <= 5 <= MAX_ELEMENT_HEADER_SIZE /\
    WebMParser.SEGMENT_ID = beUInt (slice segmentStart 0 r1) /\
    1 = toInt32 (beUInt (slice segmentStart (0 + r1) r2) - 2 ^ (7 * r2)).
Proof.
  exact (parseElementHeader_ok segmentStart 0 6 5
           {| id := WebMParser.SEGMENT_ID; elementSize := 1 |} eq_refl
           ltac:(lia) ltac:(cbn; lia)).
Defined.

(** X4.  When the window ends inside the size field of an element
    header (the id, [r1] bytes, is complete; the size field needs [r2]
    bytes), [parseElementHeader] asks for exactly the bytes that are
    missing to complete the header, [r1 + r2 - size]. *)
Theorem parseElementHeader_short_size buf start size r1 r2 :
  requiredBytes buf start 4 = Some r1 ->
  requiredBytes buf (start + r1) 8 = Some r2 ->
  r1 < size < r1 + r2 ->
  parseElementHeader buf start size = NeedMoreData (r1 + r2 - size).
Proof.
  intros H1 H2 Hsz.
  destruct (requiredBytes_inv _ _ _ _ H1) as (b & _ & Hj & _).
  pose proof (markerIndex_bounds _ _ Hj) as Hjb.
  unfold parseElementHeader.
  destruct (size =? 0) eqn:H0; [apply Z.eqb_eq in H0; lia|].
  pose proof (parseNum_cases buf start size 4 false ltac:(lia) ltac:(lia))
    as Hid.
  rewrite H1 in Hid. destruct Hid as [_ Hid].
  destruct (r1 <=? size) eqn:Hle; [|apply Z.leb_gt in Hle; lia].
  destruct Hid as [v1 ->].
  destruct (r1 <=? 0) eqn:Hz; [apply Z.leb_le in Hz; lia|].
  rewrite (parseNum_short buf (start + r1) (size - r1) 8 true r2);
    [|lia|exact H2|lia].
  destruct (size - r1 =? 0) eqn:He; [apply Z.eqb_eq in He; lia|].
  f_equal. lia.
Qed.

Lemma parseElementHeader_short_size_witness :
  parseElementHeader sampleCluster 0 6 = NeedMoreData (4 + 8 - 6).
Proof.
  exact (parseElementHeader_short_size sampleCluster 0 6 4 8
           eq_refl eq_refl ltac:(lia)).
Defined.

(** X5.  [parseElement] on an element whose header parses and carries
    the expected id: when the window is shorter than header plus payload
    it asks for exactly the missing bytes; otherwise it uses up header
    plus payload and returns exactly those bytes of the buffer. *)
Theorem parseElement_spec buf start size id0 n h :
  parseElementHeader buf start size = Ok n (Some h) ->
  id h = id0 ->
  0 <= elementSize h ->
  0 <= start ->
  (size < n + elementSize h ->
   WebMParser.parseElement buf start size id0 =
     NeedMoreData (n + elementSize h - size)) /\
  (n + elementSize h <= size ->
   start + n + elementSize h <= Js.length buf ->
   WebMParser.parseElement buf start size id0 =
     Ok (n + elementSize h) (slice buf start (n + elementSize h))).
Proof.
  intros Hh Hid Hes Hstart.
  destruct (parseElementHeader_parts _ _ _ _ _ Hh)
    as (r1 & r2 & v2 & _ & _ & _ & _ & _ & Hn & Hle & Hb).
  unfold WebMParser.parseElement. rewrite Hh.
  apply Z.eqb_eq in Hid. rewrite Hid. cbn [negb].
  split.
  - intros Hlt.
    destruct (n + elementSize h >? size) eqn:Hgt; [reflexivity|].
    rewrite Z.gtb_ltb in Hgt. apply Z.ltb_ge in Hgt. lia.
  - intros Hfit Hbuf.
    destruct (n + elementSize h >? size) eqn:Hgt;
      [rewrite Z.gtb_ltb in Hgt; apply Z.ltb_lt in Hgt; lia|].
    f_equal. unfold subarray, clampIndex, slice.
    destruct (start <? 0) eqn:Hs; [apply Z.ltb_lt in Hs; lia|].
    destruct (start + (n + elementSize h) <? 0) eqn:Hs';
      [apply Z.ltb_lt in Hs'; lia|].
    rewrite !Z.min_l by lia.
    f_equal. lia.
Qed.

Lemma parseElement_spec_witness :
  WebMParser.parseElement sampleCluster 0 13 CLUSTER_ID
    = NeedMoreData (12 + 4 - 13) /\
  WebMParser.parseElement sampleCluster 0 16 CLUSTER_ID
    = Ok (12 + 4) (slice sampleCluster 0 (12 + 4)).
Proof.
  destruct (parseElement_spec sampleCluster 0 13 CLUSTER_ID 12
              {| id := CLUSTER_ID; elementSize := 4 |}
              eq_refl eq_refl ltac:(cbn; lia) ltac:(lia)) as [Hshort _].
  destruct (parseElement_spec sampleCluster 0 16 CLUSTER_ID 12
              {| id := CLUSTER_ID; elementSize := 4 |}
              eq_refl eq_refl ltac:(cbn; lia) ltac:(lia)) as [_ Hfull].
  split.
  - apply Hshort. cbn. lia.
  - apply Hfull; cbn; lia.
Defined.

Lemma slice_get (buf : Uint8Array) (start n : Z) (k : nat) (b : byte) :
  0 <= start ->
  nth_error (slice buf start n) k = Some b ->
  get buf (start + Z.of_nat k) = Some (byteVal b).
Proof.
  intros Hs H. unfold slice in H. rewrite nth_error_firstn in H.
  destruct (k <? Z.to_nat n)%nat; [|discriminate].
  rewrite nth_error_skipn in H. unfold get.
  destruct (start + Z.of_nat k <? 0) eqn:Hn; [apply Z.ltb_lt in Hn; lia|].
  replace (Z.to_nat (start + Z.of_nat k)) with (Z.to_nat start + k)%nat by lia.
  rewrite H. reflexivity.
Qed.

Lemma simpleBlock_track (b : byte) :
  (band (int32_of (Some (byteVal b))) 128 =? 128) = negb (byteVal b <? 128) /\
  band (int32_of (Some (byteVal b))) 127 = byteVal b mod 128.
Proof. destruct b; vm_compute; split; reflexivity. Qed.

Lemma simpleBlock_flags (b : byte) :
  band (int32_of (Some (byteVal b))) 255 = byteVal b /\
  band (sar (byteVal b) 1) 3 = (byteVal b / 2) mod 4.
Proof. destruct b; vm_compute; split; reflexivity. Qed.

Lemma simpleBlock_timecode (b1 b2 : byte) :
  bor (shl (int32_of (Some (byteVal b1))) 8) (int32_of (Some (byteVal b2))) =
    256 * byteVal b1 + byteVal b2.
Proof.
  pose proof (byteVal_range b1) as H1. pose proof (byteVal_range b2) as H2.
  unfold bor, shl, int32_of.
  rewrite !(toInt32_small (byteVal b1)), !(toInt32_small (byteVal b2)) by lia.
  change (8 mod 32) with 8. rewrite Z.shiftl_mul_pow2 by lia.
  change (2 ^ 8) with 256.
  rewrite !(toInt32_small (byteVal b1 * 256)) by lia.
  rewrite lor_low_byte; [lia | | lia].
  apply Z.mod_mul. lia.
Qed.

(** X6.  [parseSimpleBlock_] on a block of at least four bytes that lie
    inside the buffer: a first byte below 0x80 (a track number coded on
    more than one byte) is rejected; otherwise the track number is the
    first byte without its top bit, the timecode is the unsigned 16-bit
    big-endian value of the next two bytes (never negative), the flags
    are the fourth byte and the lacing its bits 1 and 2; the payload
    starts four bytes in and the whole block is used up. *)
Theorem parseSimpleBlock_fields
        (buf : Uint8Array) (start size elementStart : Z)
        (b0 b1 b2 b3 : byte) :
  0 <= start -> 4 <= size ->
  slice buf start 4 = [b0; b1; b2; b3] ->
  WebMParser.parseSimpleBlock_ buf start size elementStart =
    if byteVal b0 <? 128 then InvalidData
    else Ok size
           {| WebMParser.trackNum := byteVal b0 - 128;
              WebMParser.timecode := 256 * byteVal b1 + byteVal b2;
              WebMParser.flags := byteVal b3;
              WebMParser.lacing := (byteVal b3 / 2) mod 4;
              WebMParser.blockOffset := elementStart;
              WebMParser.dataOffset := start + 4;
              WebMParser.dataSize := size - 4 |}.
Proof.
  intros Hs Hsize Hsl.
  assert (H0 : get buf start = Some (byteVal b0)).
  { replace start with (start + Z.of_nat 0) by lia.
    apply (slice_get buf start 4 0 b0 Hs). rewrite Hsl. reflexivity. }
  assert (H1 : get buf (start + 1) = Some (byteVal b1)).
  { apply (slice_get buf start 4 1 b1 Hs). rewrite Hsl. reflexivity. }
  assert (H2 : get buf (start + 2) = Some (byteVal b2)).
  { apply (slice_get buf start 4 2 b2 Hs). rewrite Hsl. reflexivity. }
  assert (H3 : get buf (start + 3) = Some (byteVal b3)).
  { apply (slice_get buf start 4 3 b3 Hs). rewrite Hsl. reflexivity. }
  unfold WebMParser.parseSimpleBlock_.
  destruct (size <? 4) eqn:Hlt; [apply Z.ltb_lt in Hlt; lia|].
  rewrite H0, H1, H2, H3.
  destruct (simpleBlock_track b0) as [Hm Ht].
  destruct (simpleBlock_flags b3) as [Hf Hl].
  rewrite Hm, Ht, Hf, Hl, simpleBlock_timecode.
  destruct (byteVal b0 <? 128) eqn:Hb; cbn [negb]; [reflexivity|].
  apply Z.ltb_ge in Hb. pose proof (byteVal_range b0) as Hr.
  f_equal. f_equal; try lia.
  rewrite <- (Z.mod_unique_pos (byteVal b0) 128 1 (byteVal b0 - 128)); lia.
Qed.

Lemma parseSimpleBlock_fields_witness :
  WebMParser.parseSimpleBlock_ [xa3; x84; x81; x01; x02; x80] 2 4 0 =
    Ok 4 {| WebMParser.trackNum := 1;
            WebMParser.timecode := 258;
            WebMParser.flags := 128;
            WebMParser.lacing := 0;
            WebMParser.blockOffset := 0;
            WebMParser.dataOffset := 6;
            WebMParser.dataSize := 0 |}.
Proof.
  exact (parseSimpleBlock_fields [xa3; x84; x81; x01; x02; x80] 2 4 0
           x81 x01 x02 x80 ltac:(lia) ltac:(lia) eq_refl).
Defined.

End EbmlExtra.

(** ** More on the cue table *)

Module CueExtra.
Import Js WebMParser WebMFileParser Samples CueFacts.
Local Open Scope Z_scope.

Lemma squishFrom_offsets rest : forall c o,
  In o (offsets rest) ->
  o = clusterPos c \/ In o (offsets (squishFrom c rest)).
Proof.
  induction rest as [|n rest IH]; intros c o Hin; [destruct Hin|].
  cbn [squishFrom].
  destruct (clusterPos c =? clusterPos n) eqn:Heq.
  - apply Z.eqb_eq in Heq. destruct Hin as [<-|Hin]; [left; auto|].
    apply IH. exact Hin.
  - destruct Hin as [<-|Hin]; [right; left; reflexivity|].
    destruct (IH n o Hin) as [->|H]; right; [left; reflexivity | right; exact H].
Qed.

Lemma squish_offsets cues o :
  In o (offsets cues) <-> In o (offsets (squish cues)).
Proof.
  destruct cues as [|c rest]; [reflexivity|]. cbn [squish]. split.
  - intros [<-|Hin]; [left; reflexivity|].
    destruct (squishFrom_offsets rest c o Hin) as [->|H];
      [left; reflexivity | right; exact H].
  - intros [<-|Hin]; [left; reflexivity|]. right.
    apply in_map_iff in Hin as (x & <- & Hx).
    apply in_map. eapply squishFrom_In; eauto.
Qed.

Lemma squishFrom_length rest : forall c,
  (List.length (squishFrom c rest) <= List.length rest)%nat.
Proof.
  induction rest as [|n rest IH]; intros c; [cbn; lia|].
  cbn [squishFrom]. destruct (_ =? _).
  - specialize (IH c). cbn [List.length]. lia.
  - specialize (IH n). cbn [List.length]. lia.
Qed.

(** X8.  [squishCues] loses no cluster: an offset occurs in the cue
    table after the call exactly when it occurred before; the first cue
    stays first and the table never grows. *)
Theorem squishCues_keeps_every_cluster p cues res p' :
  cues_ p = Some cues ->
  squishCues p = Some (res, p') ->
  exists cues',
    cues_ p' = Some cues' /\
    (forall o, In o (offsets cues) <-> In o (offsets cues')) /\
    hd_error cues' = hd_error cues /\
    (List.length cues' <= List.length cues)%nat.
Proof.
  intros Hc Hrun. unfold squishCues in Hrun.
  rewrite Hc, squishLoop_total in Hrun. injection Hrun as <- <-.
  exists (squish cues). split; [reflexivity|].
  split; [apply squish_offsets|]. split.
  - destruct cues; reflexivity.
  - destruct cues as [|c rest]; [cbn; lia|]. cbn [squish List.length].
    pose proof (squishFrom_length rest c). lia.
Qed.

Lemma squishCues_keeps_every_cluster_witness :
  exists cues',
    cues_ (set_cues WebMParser.create
                    (Some [cue 0 100; cue 10 250; cue 20 400])) = Some cues' /\
    (forall o, In o (offsets aliasedCues) <-> In o (offsets cues')) /\
    hd_error cues' = hd_error aliasedCues /\
    (List.length cues' <= List.length aliasedCues)%nat.
Proof.
  exact (squishCues_keeps_every_cluster
           (set_cues WebMParser.create (Some aliasedCues)) aliasedCues
           (Value true)
           (set_cues WebMParser.create
                     (Some [cue 0 100; cue 10 250; cue 20 400]))
           eq_refl eq_refl).
Defined.

(** X14.  Whatever its outcome, [parseSegmentHeaders] leaves the cue
    table alone and keeps a duration that is already known (not -1), so
    a duration set through [setDuration] wins over the one in the file.
    On success the SeekHead gets a CLUSTER entry that holds the absolute
    offset of the first byte after the headers,
    [start + bytesUsed + bufOffset]. *)
Theorem parseSegmentHeaders_keeps
        (parseList_SEGMENT :
           WebMParser.t -> Uint8Array -> Z -> Z ->
           EbmlParser.Status SegmentValue
           * (option Uint8Array * option Uint8Array))
        (p : WebMParser.t) (buf : Uint8Array) (start size bufOffset : Z)
        (res : Result (EbmlParser.Status unit)) (p' : WebMParser.t) :
  parseSegmentHeaders parseList_SEGMENT p buf start size bufOffset
    = (res, p') ->
  cues_ p' = cues_ p /\
  (~ (duration_ p == -1)%Q -> duration_ p' = duration_ p) /\
  (forall used, res = Value (EbmlParser.Ok used tt) ->
     exists sh, seekHead_ p' = Some sh /\
                seekHeadGet sh "CLUSTER" = Some (start + used + bufOffset)).
Proof.
  unfold parseSegmentHeaders. intros Hrun.
  destruct (EbmlParser.parseElementHeader buf start size)
    as [bytesUsed hdr| |];
    try (injection Hrun as <- <-; repeat split; intros; discriminate).
  destruct (negb _);
    [injection Hrun as <- <-; repeat split; intros; discriminate|].
  set (p1 := if segmentOffset_ p =? -1 then _ else p) in Hrun.
  assert (Hp1 : cues_ p1 = cues_ p /\ duration_ p1 = duration_ p)
    by (subst p1; destruct (segmentOffset_ p =? -1); split; reflexivity).
  destruct Hp1 as [Hc1 Hd1].
  destruct (parseList_SEGMENT p1 buf (start + bytesUsed) (size - bytesUsed))
    as [r stored].
  destruct r as [used v| |];
    try (injection Hrun as <- <-; cbn; repeat split;
         [exact Hc1 | intros _; exact Hd1 | intros; discriminate]).
  destruct (seekHead v) as [sh|];
    [|injection Hrun as <- <-; cbn; repeat split;
      [exact Hc1 | intros _; exact Hd1 | intros; discriminate]].
  destruct (info v) as [inf|];
    [|injection Hrun as <- <-; cbn; repeat split;
      [exact Hc1 | intros _; exact Hd1 | intros; discriminate]].
  injection Hrun as <- <-. cbn [cues_ duration_ seekHead_ set_segment_fields
                                  store_elements].
  split; [exact Hc1|]. split.
  - intros Hknown. rewrite Hd1.
    destruct (Qlt_le_dec 0 (duration inf)); [|reflexivity].
    destruct (Qeq_bool (duration_ p) (-1)) eqn:E; [|reflexivity].
    apply Qeq_bool_iff in E. contradiction.
  - intros used' [= <-]. eexists. split; [reflexivity|].
    cbn. f_equal. lia.
Qed.

Lemma parseSegmentHeaders_keeps_witness :
  let p := setDuration WebMParser.create 42 in
  exists p' sh,
    parseSegmentHeaders parseList_complete p segmentStart 0 6 1000
      = (Value (EbmlParser.Ok 6 tt), p') /\
    duration_ p' = 42%Q /\
    seekHead_ p' = Some sh /\
    seekHeadGet sh "CLUSTER" = Some (0 + 6 + 1000).
Proof.
  intros p.
  destruct (parseSegmentHeaders_keeps parseList_complete p segmentStart
              0 6 1000 _ _ eq_refl) as (_ & Hd & Hs).
  destruct (Hs 6 eq_refl) as (sh & Hsh & Hget).
  eexists. exists sh. split; [reflexivity|].
  split; [apply Hd; discriminate|]. split; [exact Hsh | exact Hget].
Defined.

Lemma StronglySorted_nth {A} (R : A -> A -> Prop) (l : list A) :
  StronglySorted R l ->
  forall i j a b, (i < j)%nat ->
    nth_error l i = Some a -> nth_error l j = Some b -> R a b.
Proof.
  induction 1 as [|x l Hs IH Hall]; intros i j a b Hij Ha Hb.
  - destruct i; discriminate.
  - destruct j as [|j]; [lia|]. cbn [nth_error] in Hb.
    destruct i as [|i].
    + cbn in Ha. injection Ha as <-.
      rewrite Forall_forall in Hall. apply Hall.
      eapply nth_error_In; eauto.
    + cbn [nth_error] in Ha. apply (IH i j a b); [lia | exact Ha | exact Hb].
Qed.

Lemma nth_error_below {A} (l : list A) (i j : nat) (b : A) :
  nth_error l j = Some b -> (i <= j)%nat -> exists a, nth_error l i = Some a.
Proof.
  intros Hj Hij.
  destruct (nth_error l i) as [a|] eqn:E; [eauto|].
  apply nth_error_None in E.
  assert (nth_error l j <> None) by congruence.
  apply nth_error_Some in H. lia.
Qed.

Lemma bisect_mid (l r : Z) :
  l + 1 < r -> l < l + (r - l + 1) / 2 < r.
Proof.
  intros H.
  pose proof (Z.div_mod (r - l + 1) 2 ltac:(lia)).
  pose proof (Z.mod_pos_bound (r - l + 1) 2 ltac:(lia)). lia.
Qed.

Lemma bisectOffset_spec cues target : forall fuel l r cr,
  0 <= l -> l < r -> r - l < Z.of_nat fuel ->
  nth_error cues (Z.to_nat r) = Some cr -> target < clusterPos cr ->
  exists i ci cn,
    bisectOffset fuel cues target l r = Some (Value i) /\ l <= i < r /\
    nth_error cues (Z.to_nat i) = Some ci /\
    nth_error cues (Z.to_nat (i + 1)) = Some cn /\
    target < clusterPos cn /\ (i = l \/ clusterPos ci <= target).
Proof.
  induction fuel as [|fuel IH]; intros l r cr Hl Hlr Hfuel Hr Hcr; [lia|].
  cbn [bisectOffset].
  destruct (l + 1 <? r) eqn:Hgo.
  - apply Z.ltb_lt in Hgo. pose proof (bisect_mid l r Hgo) as Hm.
    set (m := l + (r - l + 1) / 2) in *.
    destruct (m <? 0) eqn:Hneg; [apply Z.ltb_lt in Hneg; lia|].
    destruct (nth_error_below cues (Z.to_nat m) (Z.to_nat r) cr Hr ltac:(lia))
      as [c Hc].
    rewrite Hc.
    destruct (clusterPos c <=? target) eqn:Hle.
    + apply Z.leb_le in Hle.
      destruct (IH m r cr ltac:(lia) ltac:(lia) ltac:(lia) Hr Hcr)
        as (i & ci & cn & Hrun & Hi & Hci & Hcn & Hn & Hor).
      exists i, ci, cn. repeat split; try assumption; try lia.
      right. destruct Hor as [->|H]; [|exact H].
      rewrite Hc in Hci. injection Hci as <-. exact Hle.
    + apply Z.leb_gt in Hle.
      destruct (IH l m c ltac:(lia) ltac:(lia) ltac:(lia) Hc Hle)
        as (i & ci & cn & Hrun & Hi & Hci & Hcn & Hn & Hor).
      exists i, ci, cn. repeat split; try assumption; lia.
  - apply Z.ltb_ge in Hgo. assert (r = l + 1) as -> by lia.
    destruct (nth_error_below cues (Z.to_nat l) (Z.to_nat (l + 1)) cr Hr
                ltac:(lia)) as [c Hc].
    exists l, c, cr. repeat split; try assumption; try lia.
Qed.

Lemma bisectTime_spec cues (target : Q) : forall fuel l r cr,
  0 <= l -> l < r -> r - l < Z.of_nat fuel ->
  nth_error cues (Z.to_nat r) = Some cr -> (target < cueTime cr)%Q ->
  exists i ci cn,
    bisectTime fuel cues target l r = Some (Value i) /\ l <= i < r /\
    nth_error cues (Z.to_nat i) = Some ci /\
    nth_error cues (Z.to_nat (i + 1)) = Some cn /\
    (target < cueTime cn)%Q /\ (i = l \/ (cueTime ci <= target)%Q).
Proof.
  induction fuel as [|fuel IH]; intros l r cr Hl Hlr Hfuel Hr Hcr; [lia|].
  cbn [bisectTime].
  destruct (l + 1 <? r) eqn:Hgo.
  - apply Z.ltb_lt in Hgo. pose proof (bisect_mid l r Hgo) as Hm.
    set (m := l + (r - l + 1) / 2) in *.
    destruct (m <? 0) eqn:Hneg; [apply Z.ltb_lt in Hneg; lia|].
    destruct (nth_error_below cues (Z.to_nat m) (Z.to_nat r) cr Hr ltac:(lia))
      as [c Hc].
    rewrite Hc.
    destruct (Qle_bool (cueTime c) target) eqn:Hle.
    + apply Qle_bool_iff in Hle.
      destruct (IH m r cr ltac:(lia) ltac:(lia) ltac:(lia) Hr Hcr)
        as (i & ci & cn & Hrun & Hi & Hci & Hcn & Hn & Hor).
      exists i, ci, cn. repeat split; try assumption; try lia.
      right. destruct Hor as [->|H]; [|exact H].
      rewrite Hc in Hci. injection Hci as <-. exact Hle.
    + assert (Hgt : (target < cueTime c)%Q).
      { apply Qnot_le_lt. intros H. apply Qle_bool_iff in H. congruence. }
      destruct (IH l m c ltac:(lia) ltac:(lia) ltac:(lia) Hc Hgt)
        as (i & ci & cn & Hrun & Hi & Hci & Hcn & Hn & Hor).
      exists i, ci, cn. repeat split; try assumption; lia.
  - apply Z.ltb_ge in Hgo. assert (r = l + 1) as -> by lia.
    destruct (nth_error_below cues (Z.to_nat l) (Z.to_nat (l + 1)) cr Hr
                ltac:(lia)) as [c Hc].
    exists l, c, cr. repeat split; try assumption; try lia.
Qed.

(** The index the offset bisection settles on. *)
Lemma getCueDescFromOffset_index f p cues target :
  parser f = Some p -> getCues p = Some cues -> cues <> [] ->
  exists i ci,
    (i < List.length cues)%nat /\
    nth_error cues i = Some ci /\
    getCueDescFromOffset f target = Some (getCueDescFromCue_ f (Z.of_nat i)) /\
    (forall cn, nth_error cues (S i) = Some cn -> target < clusterPos cn) /\
    (i = 0%nat \/ clusterPos ci <= target).
Proof.
  intros Hp Hc Hne. unfold getCueDescFromOffset. rewrite Hp, Hc.
  destruct cues as [|c0 rest] eqn:Hcues; [congruence|]. rewrite <- Hcues in *.
  assert (Hlen : (0 < List.length cues)%nat) by (subst cues; cbn; lia).
  set (r := Z.of_nat (List.length cues) - 1).
  destruct (nth_error cues (Z.to_nat r)) as [last|] eqn:Hlast.
  2:{ apply nth_error_None in Hlast. lia. }
  destruct (target >=? clusterPos last) eqn:Hge.
  - rewrite Z.geb_leb in Hge. apply Z.leb_le in Hge.
    destruct (List.length cues) as [|n] eqn:Hn; [lia|].
    cbn [bisectOffset].
    destruct (r + 1 <? r) eqn:Hgo; [apply Z.ltb_lt in Hgo; lia|].
    exists (Z.to_nat r), last. rewrite Z2Nat.id by lia.
    repeat split; try assumption; try lia; try (right; exact Hge).
    intros cn Hcn.
    assert (nth_error cues (S (Z.to_nat r)) <> None) by congruence.
    apply nth_error_Some in H. lia.
  - rewrite Z.geb_leb in Hge. apply Z.leb_gt in Hge.
    destruct (Z.eq_dec r 0) as [Hr0|Hr0].
    + destruct (List.length cues) as [|n] eqn:Hn; [lia|].
      cbn [bisectOffset].
      destruct (0 + 1 <? r) eqn:Hgo; [apply Z.ltb_lt in Hgo; lia|].
      rewrite Hr0 in Hlast.
      exists 0%nat, last.
      repeat split; try assumption; try lia; try (left; reflexivity).
      intros cn Hcn.
      assert (nth_error cues 1 <> None) by congruence.
      apply nth_error_Some in H. lia.
    + destruct (bisectOffset_spec cues target (List.length cues) 0 r last
                  ltac:(lia) ltac:(lia) ltac:(lia) Hlast Hge)
        as (i & ci & cn & Hrun & Hi & Hci & Hcn & Hn & Hor).
      rewrite Hrun.
      exists (Z.to_nat i), ci. rewrite Z2Nat.id by lia.
      repeat split; try assumption; try lia;
        try (destruct Hor as [->|H]; [left; reflexivity | right; exact H]).
      intros cn' Hcn'.
      replace (Z.to_nat (i + 1)) with (S (Z.to_nat i)) in Hcn by lia.
      rewrite Hcn in Hcn'. injection Hcn' as <-. exact Hn.
Qed.

Lemma getCueIndexFromTime_index f p cues (target : Q) :
  parser f = Some p -> getCues p = Some cues -> cues <> [] ->
  exists i ci,
    (i < List.length cues)%nat /\
    nth_error cues i = Some ci /\
    getCueIndexFromTime_ f target = Some (Value (Z.of_nat i)) /\
    (forall cn, nth_error cues (S i) = Some cn -> (target < cueTime cn)%Q) /\
    (i = 0%nat \/ (cueTime ci <= target)%Q).
Proof.
  intros Hp Hc Hne. unfold getCueIndexFromTime_. rewrite Hp, Hc.
  destruct cues as [|c0 rest] eqn:Hcues; [congruence|]. rewrite <- Hcues in *.
  assert (Hlen : (0 < List.length cues)%nat) by (subst cues; cbn; lia).
  set (r := Z.of_nat (List.length cues) - 1).
  destruct (nth_error cues (Z.to_nat r)) as [last|] eqn:Hlast.
  2:{ apply nth_error_None in Hlast. lia. }
  destruct (Qle_bool (cueTime last) target) eqn:Hge.
  - apply Qle_bool_iff in Hge.
    destruct (List.length cues) as [|n] eqn:Hn; [lia|].
    cbn [bisectTime].
    destruct (r + 1 <? r) eqn:Hgo; [apply Z.ltb_lt in Hgo; lia|].
    exists (Z.to_nat r), last. rewrite Z2Nat.id by lia.
    repeat split; try assumption; try lia; try (right; exact Hge).
    intros cn Hcn.
    assert (nth_error cues (S (Z.to_nat r)) <> None) by congruence.
    apply nth_error_Some in H. lia.
  - assert (Hgt : (target < cueTime last)%Q).
    { apply Qnot_le_lt. intros H. apply Qle_bool_iff in H. congruence. }
    destruct (Z.eq_dec r 0) as [Hr0|Hr0].
    + destruct (List.length cues) as [|n] eqn:Hn; [lia|].
      cbn [bisectTime].
      destruct (0 + 1 <? r) eqn:Hgo; [apply Z.ltb_lt in Hgo; lia|].
      rewrite Hr0 in Hlast.
      exists 0%nat, last.
      repeat split; try assumption; try lia; try (left; reflexivity).
      intros cn Hcn.
      assert (nth_error cues 1 <> None) by congruence.
      apply nth_error_Some in H. lia.
    + destruct (bisectTime_spec cues target (List.length cues) 0 r last
                  ltac:(lia) ltac:(lia) ltac:(lia) Hlast Hgt)
        as (i & ci & cn & Hrun & Hi & Hci & Hcn & Hn & Hor).
      rewrite Hrun.
      exists (Z.to_nat i), ci. rewrite Z2Nat.id by lia.
      repeat split; try assumption; try lia;
        try (destruct Hor as [->|H]; [left; reflexivity | right; exact H]).
      intros cn' Hcn'.
      replace (Z.to_nat (i + 1)) with (S (Z.to_nat i)) in Hcn by lia.
      rewrite Hcn in Hcn'. injection Hcn' as <-. exact Hn.
Qed.

Lemma nextDistinct_Some cues i j next :
  nextDistinct cues i = Some (j, next) ->
  (i < j)%nat /\ nth_error cues j = Some next.
Proof.
  unfold nextDistinct. destruct (nth_error cues i) as [cue|]; [|discriminate].
  intros H. apply firstDistinct_Some in H as (Hle & Hnth & _).
  rewrite nth_error_skipn in Hnth.
  replace (S i + (j - S i))%nat with j in Hnth by lia.
  split; [lia | exact Hnth].
Qed.

(** What every descriptor says about its own cue. *)
Lemma getCueDescFromCue_fields f p cues i cue :
  parser f = Some p -> getCues p = Some cues ->
  nth_error cues i = Some cue ->
  exists d,
    getCueDescFromCue_ f (Z.of_nat i) = Value d /\
    time d = cueTime cue /\ offset d = clusterPos cue /\
    (endTime d = duration_ p \/
     exists j next, (i < j)%nat /\ nth_error cues j = Some next /\
                    endTime d = cueTime next /\
                    size d = clusterPos next - clusterPos cue).
Proof.
  intros Hp Hc Hi.
  rewrite (getCueDescFromCue_nextDistinct f p cues i cue Hp Hc Hi).
  destruct (nextDistinct cues i) as [[j next]|] eqn:Hnd.
  - apply nextDistinct_Some in Hnd as [Hij Hj].
    eexists. split; [reflexivity|]. cbn. repeat split.
    right. exists j, next. repeat split; assumption.
  - eexists. split; [reflexivity|]. cbn. repeat split. left. reflexivity.
Qed.

Lemma timeOrdered_strong cues :
  timeOrdered cues ->
  StronglySorted (fun a b => (cueTime a <= cueTime b)%Q) cues.
Proof.
  intros H. apply Sorted_StronglySorted; [|exact H].
  intros x y z. apply Qle_trans.
Qed.

Lemma offsetOrdered_strong cues :
  offsetOrdered cues ->
  StronglySorted (fun a b => clusterPos a <= clusterPos b) cues.
Proof.
  intros H. apply Sorted_StronglySorted; [|exact H].
  intros x y z. lia.
Qed.

(** X9.  On a time-ordered cue table [getCueDescFromTime] returns the
    descriptor of the latest cue that starts at or before the time
    asked for: its start is not after the time when the first cue is
    not, no cue that starts at or before the time starts later than it,
    and a time before the first cue gets the first cue.  The time asked
    for lies before the descriptor's end time, unless the descriptor is
    a final one, whose end time is the parser's duration. *)
Theorem getCueDescFromTime_contains f p cues c0 (t : Q) :
  parser f = Some p -> getCues p = Some cues ->
  hd_error cues = Some c0 ->
  timeOrdered cues ->
  exists d,
    getCueDescFromTime f t = Some (Value d) /\
    ((cueTime c0 <= t)%Q -> (time d <= t)%Q) /\
    ((t < cueTime c0)%Q -> time d = cueTime c0) /\
    (forall c, In c cues -> (cueTime c <= t)%Q -> (cueTime c <= time d)%Q) /\
    (endTime d = duration_ p \/ (t < endTime d)%Q).
Proof.
  intros Hp Hc Hhd Hord. apply timeOrdered_strong in Hord.
  assert (Hne : cues <> []) by (destruct cues; [discriminate | congruence]).
  destruct (getCueIndexFromTime_index f p cues t Hp Hc Hne)
    as (i & ci & Hi & Hci & Hrun & Hnext & Hor).
  destruct (getCueDescFromCue_fields f p cues i ci Hp Hc Hci)
    as (d & Hd & Ht & Ho & Hend).
  assert (H0 : nth_error cues 0 = Some c0) by (destruct cues; exact Hhd).
  assert (Hafter : forall j c, (i < j)%nat -> nth_error cues j = Some c ->
                               (t < cueTime c)%Q).
  { intros j c Hij Hj.
    destruct (nth_error_below cues (S i) j c Hj ltac:(lia)) as [cn Hcn].
    pose proof (Hnext cn Hcn) as Hlt.
    destruct (Nat.eq_dec j (S i)) as [->|Hneq].
    - rewrite Hcn in Hj. injection Hj as <-. exact Hlt.
    - eapply Qlt_le_trans; [exact Hlt|].
      apply (StronglySorted_nth _ cues Hord (S i) j cn c); [lia|assumption..]. }
  exists d. unfold getCueDescFromTime. rewrite Hrun, Hd, Ht.
  split; [reflexivity|]. split; [|split; [|split]].
  - intros Hfirst. destruct Hor as [->|H]; [|exact H].
    rewrite H0 in Hci. injection Hci as <-. exact Hfirst.
  - intros Hbefore. destruct Hor as [->|H].
    + rewrite H0 in Hci. injection Hci as <-. reflexivity.
    + exfalso. destruct i as [|i].
      * rewrite H0 in Hci. injection Hci as <-.
        apply (Qlt_irrefl t). eapply Qlt_le_trans; eauto.
      * pose proof (StronglySorted_nth _ cues Hord 0%nat (S i) c0 ci
                      ltac:(lia) H0 Hci) as Hle.
        cbn beta in Hle. lra.
  - intros c Hin Hle.
    apply In_nth_error in Hin as [j Hj].
    destruct (Nat.lt_trichotomy j i) as [Hlt|[->|Hgt]].
    + apply (StronglySorted_nth _ cues Hord j i c ci); assumption.
    + rewrite Hci in Hj. injection Hj as <-. apply Qle_refl.
    + exfalso. pose proof (Hafter j c Hgt Hj) as Hlt.
      apply (Qlt_irrefl t). eapply Qlt_le_trans; eauto.
  - destruct Hend as [He|(j & next & Hij & Hj & He & _)];
      [left; exact He|].
    right. rewrite He. exact (Hafter j next Hij Hj).
Qed.

Lemma getCueDescFromTime_contains_witness :
  exists d,
    getCueDescFromTime evenFile 15 = Some (Value d) /\
    (time d <= 15)%Q /\ (15 < endTime d)%Q.
Proof.
  destruct (getCueDescFromTime_contains evenFile _ _ (cue 0 100) 15
              eq_refl eq_refl eq_refl) as (d & Hrun & Hle & _ & _ & Hend).
  - repeat constructor; cbn; discriminate.
  - exists d. split; [exact Hrun|]. split.
    + apply Hle. cbn. discriminate.
    + injection Hrun as <-. reflexivity.
Defined.

(** X10.  On a cue table whose offsets never decrease
    [getCueDescFromOffset] returns a descriptor that starts at a cue
    offset, namely the largest one that does not exceed the offset
    asked for; an offset before the first cue gets the first cue. *)
Theorem getCueDescFromOffset_greatest f p cues c0 (target : Z) :
  parser f = Some p -> getCues p = Some cues ->
  hd_error cues = Some c0 ->
  offsetOrdered cues ->
  exists d,
    getCueDescFromOffset f target = Some (Value d) /\
    In (offset d) (offsets cues) /\
    (clusterPos c0 <= target -> offset d <= target) /\
    (target < clusterPos c0 -> offset d = clusterPos c0) /\
    (forall c, In c cues -> clusterPos c <= target ->
               clusterPos c <= offset d).
Proof.
  intros Hp Hc Hhd Hord. apply offsetOrdered_strong in Hord.
  assert (Hne : cues <> []) by (destruct cues; [discriminate | congruence]).
  destruct (getCueDescFromOffset_index f p cues target Hp Hc Hne)
    as (i & ci & Hi & Hci & Hrun & Hnext & Hor).
  destruct (getCueDescFromCue_fields f p cues i ci Hp Hc Hci)
    as (d & Hd & Ht & Ho & Hend).
  assert (H0 : nth_error cues 0 = Some c0) by (destruct cues; exact Hhd).
  assert (Hafter : forall j c, (i < j)%nat -> nth_error cues j = Some c ->
                               target < clusterPos c).
  { intros j c Hij Hj.
    destruct (nth_error_below cues (S i) j c Hj ltac:(lia)) as [cn Hcn].
    pose proof (Hnext cn Hcn) as Hlt.
    destruct (Nat.eq_dec j (S i)) as [->|Hneq].
    - rewrite Hcn in Hj. injection Hj as <-. exact Hlt.
    - pose proof (StronglySorted_nth _ cues Hord (S i) j cn c ltac:(lia)
                    Hcn Hj) as Hle.
      cbn beta in Hle. lia. }
  exists d. rewrite Hrun, Hd, Ho.
  split; [reflexivity|]. split; [|split; [|split]].
  - apply in_map. eapply nth_error_In; eauto.
  - intros Hfirst. destruct Hor as [->|H]; [|exact H].
    rewrite H0 in Hci. injection Hci as <-. exact Hfirst.
  - intros Hbefore. destruct Hor as [->|H].
    + rewrite H0 in Hci. injection Hci as <-. reflexivity.
    + exfalso. destruct i as [|i].
      * rewrite H0 in Hci. injection Hci as <-. lia.
      * pose proof (StronglySorted_nth _ cues Hord 0%nat (S i) c0 ci
                      ltac:(lia) H0 Hci) as Hle.
        cbn beta in Hle. lia.
  - intros c Hin Hle.
    apply In_nth_error in Hin as [j Hj].
    destruct (Nat.lt_trichotomy j i) as [Hlt|[->|Hgt]].
    + apply (StronglySorted_nth _ cues Hord j i c ci); assumption.
    + rewrite Hci in Hj. injection Hj as <-. lia.
    + pose proof (Hafter j c Hgt Hj). lia.
Qed.

Lemma getCueDescFromOffset_greatest_witness :
  exists d,
    getCueDescFromOffset evenFile 300 = Some (Value d) /\
    In (offset d) [100; 250; 400] /\ offset d <= 300.
Proof.
  destruct (getCueDescFromOffset_greatest evenFile _ _ (cue 0 100) 300
              eq_refl eq_refl eq_refl) as (d & Hrun & Hin & Hle & _).
  - repeat constructor; cbn; lia.
  - exists d. split; [exact Hrun|]. split; [exact Hin|].
    apply Hle. cbn. lia.
Defined.

Lemma skipn_nth_error_cons {A} (l : list A) : forall i a,
  nth_error l i = Some a -> skipn i l = a :: skipn (S i) l.
Proof.
  induction l as [|x l IH]; intros [|i] a H; try discriminate.
  - injection H as ->. reflexivity.
  - cbn [nth_error] in H. rewrite (IH i a H) at 1. reflexivity.
Qed.

Lemma StronglySorted_weaken {A} (R S : A -> A -> Prop) (l : list A) :
  (forall a b, R a b -> S a b) -> StronglySorted R l -> StronglySorted S l.
Proof.
  intros HRS. induction 1 as [|x l Hs IH Hall]; constructor; [exact IH|].
  eapply Forall_impl; [|exact Hall]. intros a. apply HRS.
Qed.

(** X11.  On a cue table with strictly increasing offsets the
    descriptors tile the file: looking up the offset right after a
    cluster ([offset + size]) gives the descriptor of the next cue,
    which starts there, at the end time of the current one, and has
    another offset than the current one.  For the last cue every offset
    from its own on gives the last descriptor again, which is how
    [getClusterFromCueDesc] recognises the end. *)
Theorem cue_walk_by_offset f p cues i c :
  parser f = Some p -> getCues p = Some cues ->
  StronglySorted (fun a b => clusterPos a < clusterPos b) cues ->
  nth_error cues i = Some c ->
  exists d,
    getCueDescFromCue_ f (Z.of_nat i) = Value d /\
    (forall cn, nth_error cues (S i) = Some cn ->
       exists d',
         getCueDescFromOffset f (offset d + size d) = Some (Value d') /\
         getCueDescFromCue_ f (Z.of_nat (S i)) = Value d' /\
         offset d' = offset d + size d /\
         time d' = endTime d /\
         offset d' <> offset d) /\
    (nth_error cues (S i) = None ->
     forall target, offset d <= target ->
       getCueDescFromOffset f target = Some (Value d)).
Proof.
  intros Hp Hc Hstrict Hi.
  assert (Hord : StronglySorted (fun a b => clusterPos a <= clusterPos b) cues).
  { eapply StronglySorted_weaken; [|exact Hstrict]. cbn. intros a b. lia. }
  assert (Hne : cues <> []) by (destruct cues; [destruct i; discriminate | congruence]).
  pose proof (getCueDescFromCue_nextDistinct f p cues i c Hp Hc Hi) as Hd.
  eexists. split; [exact Hd|]. split.
  - intros cn Hcn.
    pose proof (StronglySorted_nth _ cues Hstrict i (S i) c cn ltac:(lia)
                  Hi Hcn) as Hlt. cbn beta in Hlt.
    assert (Hnd : nextDistinct cues i = Some (S i, cn)).
    { unfold nextDistinct. rewrite Hi.
      rewrite (skipn_nth_error_cons cues (S i) cn Hcn). cbn [firstDistinct].
      destruct (clusterPos c =? clusterPos cn) eqn:He;
        [apply Z.eqb_eq in He; lia | reflexivity]. }
    rewrite Hnd. cbn [offset size endTime time].
    replace (clusterPos c + (clusterPos cn - clusterPos c))
      with (clusterPos cn) by lia.
    destruct (getCueDescFromOffset_index f p cues (clusterPos cn) Hp Hc Hne)
      as (i' & ci' & Hi' & Hci' & Hrun & Hnext & Hor).
    assert (i' = S i) as ->.
    { destruct (Nat.lt_trichotomy i' (S i)) as [Hlt'|[Heq|Hgt]]; [|exact Heq|].
      - exfalso.
        destruct (nth_error_below cues (S i') (S i) cn Hcn ltac:(lia))
          as [cx Hcx].
        pose proof (Hnext cx Hcx) as H1.
        destruct (Nat.eq_dec (S i') (S i)) as [E|E].
        + rewrite E in Hcx. rewrite Hcn in Hcx. injection Hcx as <-. lia.
        + pose proof (StronglySorted_nth _ cues Hord (S i') (S i) cx cn
                        ltac:(lia) Hcx Hcn) as H2. cbn beta in H2. lia.
      - exfalso.
        pose proof (StronglySorted_nth _ cues Hstrict (S i) i' cn ci'
                      Hgt Hcn Hci') as H1. cbn beta in H1.
        destruct Hor as [->|H]; lia. }
    rewrite Hci' in Hcn. injection Hcn as ->.
    destruct (getCueDescFromCue_fields f p cues (S i) cn Hp Hc Hci')
      as (d' & Hd' & Ht' & Ho' & _).
    exists d'. rewrite Hrun, Hd'. repeat split; try assumption. lia.
  - intros Hlast target Hle.
    assert (Ho : offset
                   match nextDistinct cues i with
                   | Some (_, next) =>
                       {| time := cueTime c; offset := clusterPos c;
                          size := clusterPos next - clusterPos c;
                          endTime := cueTime next |}
                   | None =>
                       {| time := cueTime c; offset := clusterPos c;
                          size := lastCueSize p (clusterPos c);
                          endTime := duration_ p |}
                   end = clusterPos c)
      by (destruct (nextDistinct cues i) as [[? ?]|]; reflexivity).
    rewrite Ho in Hle. rewrite <- Hd.
    apply nth_error_None in Hlast.
    assert (Hlen : (i < List.length cues)%nat)
      by (apply nth_error_Some; congruence).
    unfold getCueDescFromOffset. rewrite Hp, Hc.
    destruct cues as [|c0 rest] eqn:Hcues; [congruence|].
    rewrite <- Hcues in *.
    replace (Z.of_nat (List.length cues) - 1) with (Z.of_nat i) by lia.
    rewrite Nat2Z.id, Hi.
    destruct (target >=? clusterPos c) eqn:Hge;
      [|rewrite Z.geb_leb in Hge; apply Z.leb_gt in Hge; lia].
    destruct (List.length cues) as [|n] eqn:Hn; [lia|].
    cbn [bisectOffset].
    destruct (Z.of_nat i + 1 <? Z.of_nat i) eqn:Hgo;
      [apply Z.ltb_lt in Hgo; lia | reflexivity].
Qed.

Lemma cue_walk_by_offset_witness :
  exists d,
    getCueDescFromCue_ evenFile 1 = Value d /\
    getCueDescFromOffset evenFile (offset d + size d) =
      Some (getCueDescFromCue_ evenFile 2).
Proof.
  destruct (cue_walk_by_offset evenFile _ _ 1%nat (cue 10 250)
              eq_refl eq_refl) as (d & Hd & Hnext & _).
  - repeat constructor; cbn; lia.
  - reflexivity.
  - exists d. split; [exact Hd|].
    destruct (Hnext (cue 20 400) eq_refl) as (d' & Hrun & Hd' & _).
    rewrite Hrun. f_equal. symmetry. exact Hd'.
Defined.

Local Open Scope Q_scope.

Lemma walkCues_horizon f T k n : forall index D M D' M',
  D <= T ->
  walkCues f T k n index D M = Value (D', M') -> D' <= T.
Proof.
  induction n as [|n IH]; intros index D M D' M' HD Hw.
  - cbn in Hw. injection Hw as <- <-. exact HD.
  - cbn [walkCues] in Hw.
    destruct (Qlt_le_dec D T) as [H1|H1].
    + destruct (getCueDescFromCue_ f index) as [d| |]; try discriminate.
      destruct (Qlt_le_dec T _) as [H2|H2].
      * injection Hw as <- <-. apply Qle_refl.
      * eapply IH; [exact H2 | exact Hw].
    + injection Hw as <- <-. exact HD.
Qed.

(** X12.  In exact arithmetic, for a non-negative horizon the download
    time [bufferSizeAfterTime] reports ([seconds]) never exceeds the
    horizon [timeToSearch]. *)
Theorem bufferSizeAfterTime_within_horizon
        (f : WebMFileParser.t) (time timeToSearch kbps buf : Q)
        (r : Projection) :
  0 <= timeToSearch ->
  bufferSizeAfterTime f time timeToSearch kbps buf = Some (Value r) ->
  seconds r <= timeToSearch.
Proof.
  intros HT Hr. unfold bufferSizeAfterTime in Hr.
  destruct (getCueIndexFromTime_ f time) as [[i| |]|]; try discriminate.
  destruct (getCueDescFromCue_ f i) as [d| |]; try discriminate.
  destruct (Qlt_le_dec (WebMFileParser.time d) time) as [Hpart|Hpart].
  - destruct (Qlt_le_dec timeToSearch _) as [H1|H1].
    + destruct (parser f) as [p|]; [|discriminate].
      destruct (getCues p) as [[|c cues]|]; try discriminate.
      destruct (walkCues f timeToSearch kbps _ _ _ _)
        as [[D' M']| |] eqn:Hw; try discriminate.
      injection Hr as <-. cbn [seconds].
      eapply walkCues_horizon; [|exact Hw]. apply Qle_refl.
    + destruct (parser f) as [p|]; [|discriminate].
      destruct (getCues p) as [[|c cues]|]; try discriminate.
      destruct (walkCues f timeToSearch kbps _ _ _ _)
        as [[D' M']| |] eqn:Hw; try discriminate.
      injection Hr as <-. cbn [seconds].
      eapply walkCues_horizon; [|exact Hw]. exact H1.
  - destruct (parser f) as [p|]; [|discriminate].
    destruct (getCues p) as [[|c cues]|]; try discriminate.
    destruct (walkCues f timeToSearch kbps _ _ _ _)
      as [[D' M']| |] eqn:Hw; try discriminate.
    injection Hr as <-. cbn [seconds].
    eapply walkCues_horizon; [|exact Hw]. exact HT.
Qed.

Lemma bufferSizeAfterTime_within_horizon_witness :
  exists r,
    bufferSizeAfterTime unevenFile 0 1 2 0 = Some (Value r) /\
    seconds r <= 1.
Proof.
  eexists. split; [reflexivity|].
  apply (bufferSizeAfterTime_within_horizon unevenFile 0 1 2 0);
    [discriminate | reflexivity].
Defined.

Lemma walkDownloaded_flag f time T k minBuffer buf n :
  forall index sd M u sd' M',
    (n = 0%nat -> ~ M + buf <= minBuffer) ->
    walkDownloaded f time T k minBuffer buf n index sd M
      = Value (u, sd', M') ->
    (u = true <-> M' + buf <= minBuffer).
Proof.
  induction n as [|n IH]; intros index sd M u sd' M' H0 Hw.
  - cbn in Hw. injection Hw as <- <- <-.
    split; [discriminate|]. intros H. exfalso. exact (H0 eq_refl H).
  - cbn [walkDownloaded] in Hw.
    destruct (getCueDescFromCue_ f index) as [d| |]; try discriminate.
    destruct (Qle_bool (time + T) (endTime d)).
    + injection Hw as <- <- <-. apply Qle_bool_iff.
    + destruct (Qle_bool _ minBuffer) eqn:Hu.
      * injection Hw as <- <- <-. apply Qle_bool_iff in Hu.
        split; [intros _; exact Hu | reflexivity].
      * eapply IH; [|exact Hw]. intros _ H.
        apply Qle_bool_iff in H. congruence.
Qed.

(** X13.  [bufferSizeAfterTimeDownloaded] raises [underrun] exactly
    when the buffer level it reports is at or below [minBuffer]. *)
Theorem bufferSizeAfterTimeDownloaded_underrun
        (f : WebMFileParser.t) (time timeToSearch kbps minBuffer buf : Q)
        (r : Download) :
  bufferSizeAfterTimeDownloaded f time timeToSearch kbps minBuffer buf
    = Some (Value r) ->
  (underrun r = true <-> bufferAfter r <= minBuffer).
Proof.
  intros Hr. unfold bufferSizeAfterTimeDownloaded in Hr.
  destruct (getCueIndexFromTime_ f time) as [[i| |]|]; try discriminate.
  destruct (getCueDescFromCue_ f i) as [d| |] eqn:Hd; try discriminate.
  assert (Hi : (0 <= i < cuesLength f)%Z).
  { unfold getCueDescFromCue_ in Hd. unfold cuesLength.
    destruct (parser f) as [p|]; [|discriminate].
    destruct (getCues p) as [[|c cues]|]; try discriminate.
    destruct (i >=? _)%Z eqn:Hge; [discriminate|].
    destruct (i <? 0)%Z eqn:Hneg; [discriminate|].
    rewrite Z.geb_leb in Hge. apply Z.leb_gt in Hge.
    apply Z.ltb_ge in Hneg. lia. }
  unfold cuesLength in Hi.
  assert (Hcomm : forall M, buf + M <= minBuffer <-> M + buf <= minBuffer).
  { intros M. split; intros H; lra. }
  destruct (Qlt_le_dec (WebMFileParser.time d) time) as [Hpart|Hpart].
  - destruct (Qle_bool (time + timeToSearch) (endTime d)).
    + injection Hr as <-. cbn [underrun bufferAfter].
      rewrite Hcomm. apply Qle_bool_iff.
    + destruct (Qle_bool _ minBuffer) eqn:Hu.
      * injection Hr as <-. cbn [underrun bufferAfter].
        apply Qle_bool_iff in Hu. rewrite Hcomm.
        split; [intros _; exact Hu | reflexivity].
      * destruct (parser f) as [p|]; [|discriminate].
        destruct (getCues p) as [[|c cues]|]; try discriminate.
        destruct (walkDownloaded _ _ _ _ _ _ _ _ _ _)
          as [[[u sd'] M']| |] eqn:Hw; try discriminate.
        injection Hr as <-. cbn [underrun bufferAfter]. rewrite Hcomm.
        eapply walkDownloaded_flag; [|exact Hw].
        intros _ H. apply Qle_bool_iff in H. congruence.
  - destruct (parser f) as [p|]; [|discriminate].
    destruct (getCues p) as [[|c cues]|]; try discriminate.
    destruct (walkDownloaded _ _ _ _ _ _ _ _ _ _)
      as [[[u sd'] M']| |] eqn:Hw; try discriminate.
    injection Hr as <-. cbn [underrun bufferAfter]. rewrite Hcomm.
    eapply walkDownloaded_flag; [|exact Hw].
    intros Hn. exfalso. lia.
Qed.

Lemma bufferSizeAfterTimeDownloaded_underrun_witness :
  exists r,
    bufferSizeAfterTimeDownloaded unevenFile 0 2 2 1 0 = Some (Value r) /\
    (underrun r = true <-> bufferAfter r <= 1).
Proof.
  eexists. split; [reflexivity|].
  apply (bufferSizeAfterTimeDownloaded_underrun unevenFile 0 2 2 1 0).
  reflexivity.
Defined.

End CueExtra.

(** ** HttpFile *)

Module HttpFileFacts.
Import Js HttpFile Samples.

Lemma get_outside (b : Uint8Array) (i : Z) :
  i < 0 \/ Js.length b <= i -> get b i = None.
Proof.
  intros H. unfold get, Js.length in *.
  destruct (i <? 0) eqn:Hn; [reflexivity|]. apply Z.ltb_ge in Hn.
  assert (E : nth_error b (Z.to_nat i) = None) by (apply nth_error_None; lia).
  rewrite E. reflexivity.
Qed.

Lemma seek_offset (h : t) (o : Z) : getCurrentOffset (seek h o) = o.
Proof.
  unfold seek, getCurrentOffset.
  destruct (buffer_ h) as [b|]; [destruct (_ && _)|]; cbn; lia.
Qed.

(** X15.  [seek] always lands on the offset asked for and leaves the
    cursor inside the buffer, if it keeps one; the byte under the cursor
    afterwards is the byte the buffer held for that offset before (none
    when the offset was outside of it), and the file length is not
    touched. *)
Theorem seek_lands (h : t) (o : Z) :
  getCurrentOffset (seek h o) = o /\
  cursorInside (seek h o) /\
  current (seek h o) = byteAtOffset h o /\
  getFileLength (seek h o) = getFileLength h.
Proof.
  unfold seek, getCurrentOffset, cursorInside, current, byteAtOffset,
    getFileLength.
  destruct (buffer_ h) as [b|] eqn:Hb; cbn.
  - destruct ((o >=? fileOffset_ h) && (o <? fileOffset_ h + Js.length b))
      eqn:Hin; cbn.
    + apply andb_prop in Hin as [H1 H2].
      rewrite Z.geb_leb in H1. apply Z.leb_le in H1. apply Z.ltb_lt in H2.
      repeat split; lia.
    + repeat split; try lia. symmetry. apply get_outside.
      apply andb_false_iff in Hin as [H|H].
      * rewrite Z.geb_leb in H. apply Z.leb_gt in H. lia.
      * apply Z.ltb_ge in H. lia.
  - repeat split; lia.
Qed.

(** X16.  Forward reads compose: with the cursor inside its buffer,
    reading [a] and then [b] bytes leaves the same cursor as reading
    [a + b] bytes at once, and a read advances the read offset by its
    size. *)
Theorem read_read (h : t) (a b : Z) :
  cursorInside h -> 0 <= a -> 0 <= b ->
  read (read h a) b = read h (a + b) /\
  getCurrentOffset (read h a) = getCurrentOffset h + a.
Proof.
  intros Hc Ha Hb. split; [|apply seek_offset].
  unfold read, seek, getCurrentOffset, cursorInside in *.
  destruct (buffer_ h) as [buf|] eqn:Hbuf; cbn.
  - destruct ((fileOffset_ h + index_ h + a >=? fileOffset_ h) &&
              (fileOffset_ h + index_ h + a <? fileOffset_ h + Js.length buf))
      eqn:H1; cbn.
    + apply andb_prop in H1 as [_ H1]. apply Z.ltb_lt in H1.
      destruct ((fileOffset_ h + (fileOffset_ h + index_ h + a - fileOffset_ h)
                 + b >=? fileOffset_ h) && _) eqn:H2.
      * apply andb_prop in H2 as [_ H2]. apply Z.ltb_lt in H2.
        destruct ((fileOffset_ h + index_ h + (a + b) >=? fileOffset_ h) &&
                  (fileOffset_ h + index_ h + (a + b)
                   <? fileOffset_ h + Js.length buf)) eqn:H3.
        -- f_equal. lia.
        -- apply andb_false_iff in H3 as [H3|H3];
             [rewrite Z.geb_leb in H3; apply Z.leb_gt in H3
             |apply Z.ltb_ge in H3]; lia.
      * apply andb_false_iff in H2.
        destruct ((fileOffset_ h + index_ h + (a + b) >=? fileOffset_ h) &&
                  (fileOffset_ h + index_ h + (a + b)
                   <? fileOffset_ h + Js.length buf)) eqn:H3.
        -- apply andb_prop in H3 as [_ H3]. apply Z.ltb_lt in H3.
           destruct H2 as [H2|H2];
             [rewrite Z.geb_leb in H2; apply Z.leb_gt in H2
             |apply Z.ltb_ge in H2]; lia.
        -- f_equal. lia.
    + apply andb_false_iff in H1.
      assert (Hout : fileOffset_ h + Js.length buf
                     <= fileOffset_ h + index_ h + a).
      { destruct H1 as [H1|H1];
          [rewrite Z.geb_leb in H1; apply Z.leb_gt in H1
          |apply Z.ltb_ge in H1]; lia. }
      destruct ((fileOffset_ h + index_ h + (a + b) >=? fileOffset_ h) &&
                (fileOffset_ h + index_ h + (a + b)
                 <? fileOffset_ h + Js.length buf)) eqn:H3.
      * apply andb_prop in H3 as [_ H3]. apply Z.ltb_lt in H3. lia.
      * f_equal. lia.
  - f_equal. lia.
Qed.

Lemma read_read_witness :
  read (read bufferedFile 1) 5 = read bufferedFile (1 + 5) /\
  getCurrentOffset (read bufferedFile 1) = getCurrentOffset bufferedFile + 1.
Proof.
  apply (read_read bufferedFile 1 5); cbn; lia.
Defined.

(** X17.  [fetchBytes_] answers from the buffer only when more than
    [size] bytes are available (with exactly [size] bytes buffered it
    downloads again).  Otherwise it requests a range that starts at the
    read offset, is at most [size] bytes long, never reaches beyond a
    known file length, and is exactly [size] bytes long when the length
    is unknown or large enough. *)
Theorem fetchBytes_request (h : t) (size : Z) :
  (size < getBytesAvailable h -> fetchBytes_ h size = Buffered) /\
  (getBytesAvailable h <= size ->
   exists e,
     fetchBytes_ h size = Request (getCurrentOffset h) e /\
     e <= getCurrentOffset h + size /\
     (getFileLength h <> -1 -> e <= getFileLength h) /\
     (getFileLength h = -1 \/ getCurrentOffset h + size <= getFileLength h ->
      e = getCurrentOffset h + size)).
Proof.
  unfold fetchBytes_, getFileLength. split.
  - intros H. apply Z.ltb_lt in H. rewrite H. reflexivity.
  - intros H. apply Z.ltb_ge in H. rewrite H.
    eexists. split; [reflexivity|].
    destruct (fileLength_ h =? -1) eqn:Hk; cbn [negb andb].
    + apply Z.eqb_eq in Hk. repeat split; lia.
    + apply Z.eqb_neq in Hk.
      destruct (getCurrentOffset h + size >? fileLength_ h) eqn:Hgt;
        rewrite Z.gtb_ltb in Hgt;
        [apply Z.ltb_lt in Hgt | apply Z.ltb_ge in Hgt];
        repeat split; lia.
Qed.

Lemma fetchBytes_request_witness :
  fetchBytes_ bufferedFile 1 = Buffered /\
  exists e, fetchBytes_ bufferedFile 20 = Request 92 e /\ e <= 100.
Proof.
  destruct (fetchBytes_request bufferedFile 1) as [H1 _].
  destruct (fetchBytes_request bufferedFile 20) as [_ H2].
  split; [apply H1; cbn; lia|].
  destruct (H2 ltac:(cbn; lia)) as (e & He & _ & Hlen & _).
  exists e. split; [exact He|]. apply Hlen. cbn. lia.
Defined.

(** X18.  When the range requested by [fetchBytes_] comes back in
    full, the read offset is where it was, the new buffer starts there
    and the file length is the one reported; [ensureEnoughBytes] then
    reports success exactly when the request was not cut at the end of
    the file. *)
Theorem ensureEnoughBytes_after_fetch
        (h : t) (size s e : Z) (b : Uint8Array) (fileLength : Z) :
  fetchBytes_ h size = Request s e ->
  Js.length b = e - s ->
  let h' := snd (onBytes h s (Some b) fileLength) in
  getCurrentOffset h' = getCurrentOffset h /\
  getFileLength h' = fileLength /\
  getBytesAvailable h' = e - s /\
  (forall o, byteAtOffset h' o = get b (o - getCurrentOffset h)) /\
  (enoughBytes h' size = true <->
   (getFileLength h = -1 \/ getCurrentOffset h + size <= getFileLength h)).
Proof.
  intros Hf Hlen h'. unfold fetchBytes_ in Hf.
  destruct (size <? getBytesAvailable h); [discriminate|].
  injection Hf as <- <-. subst h'.
  unfold onBytes, enoughBytes, getBytesAvailable, getCurrentOffset,
    byteAtOffset, getFileLength in *. cbn [snd fileLength_ fileOffset_ index_ buffer_].
  rewrite Hlen. repeat split; try lia.
  - intros H. rewrite Z.geb_leb in H. apply Z.leb_le in H.
    destruct (fileLength_ h =? -1) eqn:Hk; cbn [negb andb] in *.
    + apply Z.eqb_eq in Hk. left. exact Hk.
    + destruct (fileOffset_ h + index_ h + size >? fileLength_ h) eqn:Hgt;
        rewrite Z.gtb_ltb in Hgt;
        [apply Z.ltb_lt in Hgt | apply Z.ltb_ge in Hgt]; lia.
  - intros H. rewrite Z.geb_leb. apply Z.leb_le.
    destruct (fileLength_ h =? -1) eqn:Hk; cbn [negb andb] in *; [lia|].
    apply Z.eqb_neq in Hk.
    destruct (fileOffset_ h + index_ h + size >? fileLength_ h) eqn:Hgt;
      rewrite Z.gtb_ltb in Hgt;
      [apply Z.ltb_lt in Hgt | apply Z.ltb_ge in Hgt]; lia.
Qed.

Lemma ensureEnoughBytes_after_fetch_witness :
  enoughBytes (snd (onBytes bufferedFile 92 (Some [xdf; xa3; x42; x86;
                                                   x81; x01; x42; xf7])
                            100)) 20 = true <->
  (getFileLength bufferedFile = -1 \/
   getCurrentOffset bufferedFile + 20 <= getFileLength bufferedFile).
Proof.
  exact (proj2 (proj2 (proj2 (proj2
           (ensureEnoughBytes_after_fetch bufferedFile 20 92 100
              [xdf; xa3; x42; x86; x81; x01; x42; xf7] 100
              eq_refl eq_refl))))).
Defined.

End HttpFileFacts.

(** ** More on the playback controller *)

Module PlayerExtra.
Import Js AdaptiveWebMStream DashPlayer Samples PlayerFacts.

Lemma State_eqb_eq (a b : State) : State_eqb a b = true <-> a = b.
Proof. destruct a, b; cbn; split; congruence. Qed.

Lemma front_lockstep s :
  lockstep s ->
  exists data, front s = (Normal data, snd (front s)) /\
               lockstep (snd (front s)).
Proof.
  unfold lockstep, front. intros H.
  destruct (clusterQueue s) as [|d cq] eqn:Hc.
  - exists None. cbn [snd]. rewrite Hc. split; [reflexivity | exact H].
  - destruct (cueDescQueue s) as [|c dq] eqn:Hd; [discriminate H|].
    exists (Some d). cbn in *. split; [reflexivity | lia].
Qed.

Lemma checkFront_lockstep s t :
  lockstep s ->
  exists data, checkFront s t = (Normal data, snd (checkFront s t)) /\
               lockstep (snd (checkFront s t)).
Proof.
  unfold lockstep, checkFront. intros H.
  destruct (clusterQueue s) as [|d cq] eqn:Hc.
  - exists None. cbn [snd]. rewrite Hc. split; [reflexivity | exact H].
  - destruct (cueDescQueue s) as [|c dq] eqn:Hd; [discriminate H|].
    destruct (Qle_bool _ _).
    + exists (Some d). cbn in *. split; [reflexivity | lia].
    + exists None. cbn [snd]. rewrite Hc, Hd. split; [reflexivity | exact H].
Qed.

Lemma allLockstep_queues p p' :
  queues p' = queues p -> allLockstep p -> allLockstep p'.
Proof.
  unfold queues, allLockstep, lockstep. intros Hq [Hv Ha].
  injection Hq as Hc Hd Hau. rewrite Hc, Hd. split; [exact Hv|].
  destruct (aud p') as [a'|]; [|exact I].
  revert Ha Hau. destruct (aud p) as [a|]; [|discriminate].
  cbn. intros Ha [= -> ->]. exact Ha.
Qed.

Lemma allLockstep_setStream p r s :
  allLockstep p -> lockstep s -> allLockstep (setStream p r s).
Proof.
  unfold allLockstep. intros [Hv Ha] Hs. destruct r; cbn; auto.
Qed.

Lemma getStream_lockstep p r s :
  allLockstep p -> getStream p r = Some s -> lockstep s.
Proof.
  unfold allLockstep. intros [Hv Ha]. destruct r; cbn.
  - intros [= <-]. exact Hv.
  - intros E. rewrite E in Ha. exact Ha.
Qed.

(** What a fetch request leaves alone. *)
Lemma requestCluster_frame p r s bytesRead seqNum partial :
  let p' := snd (requestCluster p r s bytesRead seqNum partial) in
  vid p' = vid p /\ aud p' = aud p /\ sink p' = sink p /\
  state p' = state p /\ seekSequenceNum p' = seekSequenceNum p /\
  timers p' = timers p /\
  audioVideoBufferThreshold p' = audioVideoBufferThreshold p.
Proof.
  unfold requestCluster.
  destruct (source s) as [src|]; [|cbn; repeat split].
  destruct (AdaptiveWebMFile.parser src); cbn; repeat split.
Qed.

Lemma fetchClusters_frame partial p :
  let p' := snd (fetchClusters partial p) in
  queues p' = queues p /\ sink p' = sink p /\ state p' = state p /\
  seekSequenceNum p' = seekSequenceNum p /\ timers p' = timers p.
Proof.
  unfold fetchClusters.
  set (v := vid p).
  set (first := if addNewCluster v && _ then _ else (Normal tt, p)).
  assert (H1 : queues (snd first) = queues p /\ sink (snd first) = sink p /\
               state (snd first) = state p /\
               seekSequenceNum (snd first) = seekSequenceNum p /\
               timers (snd first) = timers p).
  { subst first. destruct (addNewCluster v && _); [|cbn; repeat split].
    destruct (requestCluster_frame (set_vid p (set_fetchingClusters v true))
                Video (set_fetchingClusters v true) 0 (seekSequenceNum p)
                partial) as (Hv & Ha & Hs & Hst & Hq & Ht & _).
    cbv zeta in *. unfold queues. rewrite Hv, Ha, Hs, Hst, Hq, Ht.
    cbn. repeat split. }
  destruct first as [c1 p1]. cbn [snd] in H1.
  destruct H1 as (Hq1 & Hs1 & Hst1 & Hn1 & Ht1).
  destruct c1 as [[]|]; [|cbn [snd]; repeat split; assumption].
  destruct (aud p1) as [a|] eqn:Ha1; [|cbn [snd]; repeat split; assumption].
  destruct (addNewCluster a && _); [|cbn [snd]; repeat split; assumption].
  destruct (requestCluster_frame (set_aud p1 (Some (set_fetchingClusters a true)))
              Audio (set_fetchingClusters a true) 0 (seekSequenceNum p1)
              partial) as (Hv & Ha & Hs & Hst & Hq & Ht & _).
  cbv zeta in *. unfold queues in *. rewrite Hv, Ha, Hs, Hst, Hq, Ht.
  cbn. rewrite Ha1 in Hq1. cbn in Hq1.
  repeat split; try assumption.
Qed.

Lemma appendIfData_frame p data :
  vid (appendIfData p data) = vid p /\ aud (appendIfData p data) = aud p /\
  state (appendIfData p data) = state p /\
  timers (appendIfData p data) = timers p.
Proof.
  unfold appendIfData, appendData.
  destruct data as [d|]; [destruct (State_eqb (state p) LOADING)|];
    cbn; repeat split.
Qed.

(** The hand-off of one stream: what [front] or [checkFront] followed by
    [appendIfData] does to the player. *)
Lemma handoff_video p :
  lockstep (vid p) ->
  exists data v',
    front (vid p) = (Normal data, v') /\ lockstep v' /\
    vid (appendIfData (set_vid p v') data) = v' /\
    aud (appendIfData (set_vid p v') data) = aud p.
Proof.
  intros H. destruct (front_lockstep (vid p) H) as (data & Hf & Hl).
  exists data, (snd (front (vid p))).
  destruct (appendIfData_frame (set_vid p (snd (front (vid p)))) data)
    as (Hv & Ha & _).
  repeat split; assumption.
Qed.

(** X19.  The hand-off steps keep every stream in lock-step (as many
    cue descriptors as clusters queued), and on streams in lock-step
    [sendPartialClusters] never raises. *)
Theorem send_keeps_lockstep (p : DashPlayer.t) :
  allLockstep p ->
  allLockstep (snd (sendClusters p)) /\
  allLockstep (snd (sendPartialClusters p)) /\
  fst (sendPartialClusters p) = Normal tt.
Proof.
  intros [Hv Ha].
  (* the audio hand-off, for either choice of the audio primitive *)
  assert (Haudio : forall (pick : AdaptiveWebMStream.t ->
                                  Completion (option Uint8Array)
                                  * AdaptiveWebMStream.t),
             (forall s, lockstep s ->
                exists data, pick s = (Normal data, snd (pick s)) /\
                             lockstep (snd (pick s))) ->
             exists p1,
               match aud p with
               | Some a =>
                   match pick a with
                   | (Throw, a') => (Throw, set_aud p (Some a'))
                   | (Normal data, a') =>
                       (Normal tt, appendIfData (set_aud p (Some a')) data)
                   end
               | None => (Normal tt, p)
               end = (Normal tt, p1) /\ allLockstep p1).
  { intros pick Hpick. destruct (aud p) as [a|] eqn:Hau.
    - destruct (Hpick a Ha) as (data & -> & Hl).
      eexists. split; [reflexivity|].
      destruct (appendIfData_frame (set_aud p (Some (snd (pick a)))) data)
        as (Hv' & Ha' & _).
      unfold allLockstep. rewrite Hv', Ha'. cbn. split; assumption.
    - exists p. split; [reflexivity|]. unfold allLockstep. rewrite Hau.
      split; [exact Hv | exact I]. }
  split; [|].
  - unfold sendClusters.
    destruct (Haudio (fun a => checkFront a (lastTimeSent_ (vid p)))
                (fun s => checkFront_lockstep s _)) as (p1 & -> & [Hv1 Ha1]).
    destruct (handoff_video p1 Hv1) as (data & v' & -> & Hl & Hv2 & Ha2).
    set (p2 := appendIfData (set_vid p1 v') data) in *.
    set (p3 := if endOfClusters_ (vid p2) then _ else p2).
    assert (H3 : allLockstep p3).
    { assert (H2 : allLockstep p2).
      { unfold allLockstep. rewrite Hv2, Ha2. split; assumption. }
      subst p3. destruct (endOfClusters_ (vid p2)); [|exact H2].
      destruct (aud p2) as [a|] eqn:E;
        [destruct (endOfClusters_ a)|]; try exact H2;
        (eapply allLockstep_queues; [|exact H2]; reflexivity). }
    destruct (fetchClusters_frame false p3) as (Hq & _).
    eapply allLockstep_queues; [exact Hq | exact H3].
  - unfold sendPartialClusters.
    destruct (Haudio (fun a => if endOfClusters_ (vid p) && empty (vid p)
                               then front a
                               else checkFront a (lastTimeSent_ (vid p))))
      as (p1 & -> & [Hv1 Ha1]).
    { intros s Hs. destruct (_ && _);
        [apply front_lockstep | apply checkFront_lockstep]; exact Hs. }
    destruct (handoff_video p1 Hv1) as (data & v' & -> & Hl & Hv2 & Ha2).
    set (p2 := appendIfData (set_vid p1 v') data) in *.
    assert (H2 : allLockstep p2).
    { unfold allLockstep. rewrite Hv2, Ha2. split; assumption. }
    destruct (endOfClusters_ (vid p2) && empty (vid p2)).
    + destruct (aud p2) as [a|] eqn:E.
      * destruct (negb (empty a)); [|destruct (endOfClusters_ a)];
          cbn [fst snd]; (split; [|reflexivity]);
          try exact H2;
          (eapply allLockstep_queues; [|exact H2]; reflexivity).
      * cbn [fst snd]. split; [|reflexivity].
        eapply allLockstep_queues; [|exact H2]. reflexivity.
    + cbn [fst snd]. split; [exact H2 | reflexivity].
Qed.


Lemma push_lockstep s b d : lockstep s -> lockstep (push s b d).
Proof.
  unfold lockstep. intros H. cbn. rewrite !length_app. cbn. lia.
Qed.

Lemma notifyChunk_frame p r s :
  vid (notifyChunk p r s) = vid p /\ aud (notifyChunk p r s) = aud p.
Proof. unfold notifyChunk. destruct (chunkDownloadListener p); split; reflexivity. Qed.

Lemma allLockstep_same p p' :
  vid p' = vid p -> aud p' = aud p -> allLockstep p -> allLockstep p'.
Proof. unfold allLockstep. intros -> ->. auto. Qed.

Lemma reportParseError_frame p :
  vid (reportParseError p) = vid p /\ aud (reportParseError p) = aud p.
Proof.
  unfold reportParseError, changeState.
  destruct (sourceOpen (set_state p ERROR)); split; reflexivity.
Qed.

Lemma setStream_setStream p r s s' :
  setStream (setStream p r s) r s' = setStream p r s'.
Proof. destruct r; reflexivity. Qed.

(** X20.  Both completion callbacks keep every stream in lock-step,
    whatever they are called with, provided the bitrate-switch decision
    [checkVideoStreamFutureTime] does. *)
Theorem completion_keeps_lockstep
        (checkVideoStreamFutureTime : DashPlayer.t -> DashPlayer.t)
        (p : DashPlayer.t) (r : StreamRef)
        (nextCueDesc : option CueDesc) (seqNum : Z)
        (buf : option Uint8Array) :
  (forall q, allLockstep q -> allLockstep (checkVideoStreamFutureTime q)) ->
  allLockstep p ->
  allLockstep (snd (onClusterDownloadedDesc checkVideoStreamFutureTime
                      p r nextCueDesc seqNum buf)) /\
  allLockstep (snd (onPartialCueDescDownload checkVideoStreamFutureTime
                      p r nextCueDesc seqNum buf)).
Proof.
  intros Hcvf Hp.
  assert (Hset : forall s, lockstep s -> allLockstep (setStream p r s))
    by (intros s; apply allLockstep_setStream; exact Hp).
  assert (Htimer : forall q c, allLockstep q -> allLockstep (add_timer q c))
    by (intros q c H; exact H).
  assert (Hrep : forall q, allLockstep q -> allLockstep (reportParseError q)).
  { intros q H. destruct (reportParseError_frame q) as [Hv Ha].
    eapply allLockstep_same; eauto. }
  assert (Hnote : forall q r0 s0, allLockstep q ->
                                  allLockstep (notifyChunk q r0 s0)).
  { intros q r0 s0 H. destruct (notifyChunk_frame q r0 s0) as [Hv Ha].
    eapply allLockstep_same; eauto. }
  assert (Hset2 : forall q s, allLockstep q -> lockstep s ->
                              allLockstep (setStream q r s))
    by (intros q s; apply allLockstep_setStream).
  unfold onClusterDownloadedDesc, onPartialCueDescDownload.
  destruct (getStream p r) as [stream|] eqn:Hs; [|split; exact Hp].
  pose proof (getStream_lockstep p r stream Hp Hs) as Hl.
  assert (Hclear : allLockstep (setStream p r (set_fetchingClusters stream false)))
    by (apply Hset; exact Hl).
  split.
  - destruct (State_eqb (state p) SEEKING);
      [destruct (logCueArgs stream buf); cbn [snd]; auto|].
    destruct (State_eqb (state p) STOPPED);
      [destruct (logCueArgs stream buf); cbn [snd]; auto|].
    destruct (negb (State_eqb (state p) LOADING)); [exact Hclear|].
    destruct (negb (seqNum =? seekSequenceNum p));
      [destruct (logCueArgs stream buf); cbn [snd]; auto|].
    destruct buf as [b|].
    + set (s1 := set_cueBytesDownloaded stream _).
      set (s2 := push s1 b (cueDesc s1)).
      assert (Hl2 : lockstep s2) by (apply push_lockstep; exact Hl).
      destruct (cueBytesDownloaded_ s2 =? WebMFileParser.size (cueDesc s2)).
      * cbn [snd]. apply Htimer.
        destruct nextCueDesc as [next|].
        -- set (q := setStream _ r (set_cueDesc _ next)).
           assert (Hq : allLockstep q).
           { subst q. apply Hset2; [|exact Hl2].
             apply Hnote. apply Hset. exact Hl2. }
           destruct (checkSwitching_ _); [apply Hcvf|]; exact Hq.
        -- apply Hset2; [|exact Hl2]. apply Hnote. apply Hset. exact Hl2.
      * assert (H1 : allLockstep (add_timer (setStream p r s2) RunSendClusters))
          by (apply Htimer, Hset; exact Hl2).
        destruct (negb (endOfClusters_ s2) && _); [|exact H1].
        destruct (requestCluster_frame
                    (add_timer (setStream p r s2) RunSendClusters) r s2
                    (cueBytesDownloaded_ s2)
                    (seekSequenceNum
                       (add_timer (setStream p r s2) RunSendClusters)) false)
          as (Hv & Ha & _).
        eapply allLockstep_same; eauto.
    + destruct (representationId stream); [|exact Hp].
      cbn [snd]. apply Hrep, Hset. exact Hl.
  - set (cueFinished := match nextCueDesc with Some _ => _ | None => true end).
    destruct (State_eqb (state p) SEEKING);
      [destruct (logCueArgs stream buf); [destruct cueFinished|];
       cbn [snd]; auto|].
    destruct (State_eqb (state p) STOPPED);
      [destruct (logCueArgs stream buf); cbn [snd]; auto|].
    destruct (negb (State_eqb (state p) LOADING)); [exact Hclear|].
    destruct (negb (seqNum =? seekSequenceNum p));
      [destruct (logCueArgs stream buf); [destruct cueFinished|];
       cbn [snd]; auto|].
    destruct buf as [b|].
    + set (s1 := set_cueBytesDownloaded stream _).
      set (s2 := push s1 b (cueDesc s1)).
      assert (Hl2 : lockstep s2) by (apply push_lockstep; exact Hl).
      set (step := if cueFinished then _ else (Normal tt, setStream p r s2)).
      assert (Hstep : allLockstep (snd step)).
      { subst step. destruct cueFinished; [|cbn [snd]; apply Hset; exact Hl2].
        destruct nextCueDesc as [next|].
        - set (q := setStream _ r (set_cueDesc _ next)).
          assert (Hq : allLockstep q).
          { subst q. apply Hset2; [|exact Hl2].
            apply Hnote. apply Hset. exact Hl2. }
          set (q' := if checkSwitching_ _ then _ else q).
          assert (Hq' : allLockstep q').
          { subst q'. destruct (checkSwitching_ _); [apply Hcvf|]; exact Hq. }
          destruct (fetchClusters_frame true q') as (Hqq & _).
          eapply allLockstep_queues; [exact Hqq | exact Hq'].
        - cbn [snd]. apply Hset2; [|exact Hl2].
          apply Hnote. apply Hset. exact Hl2. }
      destruct step as [c p2]. cbn [snd] in Hstep.
      destruct c as [[]|]; [|exact Hstep].
      destruct (getStream (add_timer p2 RunSendPartialClusters) r);
        cbn [snd]; apply Htimer; exact Hstep.
    + destruct (representationId stream); [|exact Hp].
      cbn [snd]. apply Hrep, Hset. exact Hl.
Qed.

Lemma completion_keeps_lockstep_witness :
  allLockstep (snd (onClusterDownloadedDesc (fun p => p) seekedPlayer Video
                      (Some (desc 10 20 250 150)) 1 (Some [x1f; x43]))) /\
  allLockstep (snd (onPartialCueDescDownload (fun p => p) seekedPlayer Video
                      (Some (desc 10 20 250 150)) 1 (Some [x1f; x43]))).
Proof.
  apply (completion_keeps_lockstep (fun p => p) seekedPlayer Video
           (Some (desc 10 20 250 150)) 1 (Some [x1f; x43])).
  - intros q H. exact H.
  - split; [reflexivity | exact I].
Defined.

Lemma send_keeps_lockstep_witness :
  allLockstep (snd (sendClusters lateAudioPlayer)) /\
  allLockstep (snd (sendPartialClusters lateAudioPlayer)) /\
  fst (sendPartialClusters lateAudioPlayer) = Normal tt.
Proof.
  apply (send_keeps_lockstep lateAudioPlayer).
  split; reflexivity.
Defined.


(** X21.  While the player is not LOADING (stopped, seeking, parsing
    headers or in error) a completion callback queues nothing, appends
    nothing to the media element and starts no download, whichever
    sequence number and data it carries. *)
Theorem completion_outside_loading_not_queued
        (checkVideoStreamFutureTime : DashPlayer.t -> DashPlayer.t)
        (p : DashPlayer.t) (r : StreamRef)
        (nextCueDesc : option CueDesc) (seqNum : Z)
        (buf : option Uint8Array) :
  state p <> LOADING ->
  let p1 := snd (onClusterDownloadedDesc checkVideoStreamFutureTime
                   p r nextCueDesc seqNum buf) in
  let p2 := snd (onPartialCueDescDownload checkVideoStreamFutureTime
                   p r nextCueDesc seqNum buf) in
  queues p1 = queues p /\ queues p2 = queues p /\
  sink p1 = sink p /\ sink p2 = sink p /\
  fetches p1 = fetches p /\ fetches p2 = fetches p.
Proof.
  intros Hst.
  assert (Hl : State_eqb (state p) LOADING = false).
  { destruct (State_eqb (state p) LOADING) eqn:E; [|reflexivity].
    apply State_eqb_eq in E. contradiction. }
  unfold onClusterDownloadedDesc, onPartialCueDescDownload.
  destruct (getStream p r) as [stream|] eqn:Hs; [|repeat split].
  rewrite Hl. cbn [negb].
  pose proof (queues_set_fetching p r stream false Hs) as Hq.
  assert (Hsink : sink (setStream p r (set_fetchingClusters stream false))
                  = sink p) by (destruct r; reflexivity).
  assert (Hfetch : fetches (setStream p r (set_fetchingClusters stream false))
                   = fetches p) by (destruct r; reflexivity).
  set (cueFinished := match nextCueDesc with Some _ => _ | None => true end).
  destruct (State_eqb (state p) SEEKING);
    [destruct (logCueArgs stream buf); [destruct cueFinished|]; cbn [snd];
     rewrite ?queues_add_timer; repeat split; assumption|].
  destruct (State_eqb (state p) STOPPED);
    [destruct (logCueArgs stream buf); cbn [snd]; repeat split; assumption|].
  cbn [snd]. repeat split; assumption.
Qed.

Lemma completion_outside_loading_not_queued_witness :
  queues (snd (onClusterDownloadedDesc (fun q => q) stoppedPlayer Video
                 (Some (desc 10 20 250 150)) 0 (Some [x1f; x43])))
    = queues stoppedPlayer /\
  queues (snd (onPartialCueDescDownload (fun q => q) stoppedPlayer Video
                 (Some (desc 10 20 250 150)) 0 (Some [x1f; x43])))
    = queues stoppedPlayer.
Proof.
  destruct (completion_outside_loading_not_queued (fun q => q) stoppedPlayer
              Video (Some (desc 10 20 250 150)) 0 (Some [x1f; x43]))
    as (H1 & H2 & _); [discriminate|].
  split; [exact H1 | exact H2].
Defined.

Lemma appendIfData_idle q data :
  state q <> LOADING -> appendIfData q data = q.
Proof.
  intros Hst. unfold appendIfData, appendData.
  destruct data as [d|]; [|reflexivity].
  destruct (State_eqb (state q) LOADING) eqn:E; [|reflexivity].
  apply State_eqb_eq in E. contradiction.
Qed.

(** X22.  While the player is not LOADING neither [sendClusters] nor
    [sendPartialClusters] appends a buffer to the media element. *)
Theorem no_append_unless_loading (p : DashPlayer.t) :
  state p <> LOADING ->
  appended (newSinkCalls p (snd (sendClusters p))) = [] /\
  appended (newSinkCalls p (snd (sendPartialClusters p))) = [].
Proof.
  intros Hst.
  assert (Hnil : forall q, sink q = sink p -> appended (newSinkCalls p q) = []).
  { intros q H. rewrite (newSinkCalls_nil p q H). reflexivity. }
  assert (Heos : forall q, sink q = sink p ->
                   appended (newSinkCalls p (endOfStream q)) = []).
  { intros q H.
    rewrite (newSinkCalls_app p (endOfStream q) [SourceEndOfStream]);
      [reflexivity|]. cbn. rewrite H. reflexivity. }
  split.
  - unfold sendClusters.
    set (audioStep := match aud p with Some _ => _ | None => _ end).
    assert (Ha : sink (snd audioStep) = sink p /\
                 state (snd audioStep) = state p).
    { subst audioStep. destruct (aud p) as [a|]; [|split; reflexivity].
      destruct (checkFront a _) as [[data|] a']; [|split; reflexivity].
      rewrite appendIfData_idle by exact Hst. split; reflexivity. }
    destruct audioStep as [c1 p1]. cbn [snd] in Ha. destruct Ha as [Hs1 Hst1].
    destruct c1 as [[]|]; [|apply Hnil; exact Hs1].
    destruct (front (vid p1)) as [[data|] v']; [|apply Hnil; exact Hs1].
    rewrite appendIfData_idle by (cbn; congruence).
    set (p3 := if endOfClusters_ _ then _ else _).
    destruct (fetchClusters_frame false p3) as (_ & Hsk & _).
    unfold fetchMoreClusters.
    assert (H3 : appended (newSinkCalls p p3) = [] /\
                 forall q, sink q = sink p3 ->
                           appended (newSinkCalls p q) = []).
    { assert (Hsame : forall base, sink base = sink p ->
                (appended (newSinkCalls p base) = [] /\
                 forall q, sink q = sink base ->
                           appended (newSinkCalls p q) = [])).
      { intros base Hb. split; [apply Hnil; exact Hb|].
        intros q Hq. apply Hnil. congruence. }
      assert (Hend : forall base, sink base = sink p ->
                (appended (newSinkCalls p (endOfStream base)) = [] /\
                 forall q, sink q = sink (endOfStream base) ->
                           appended (newSinkCalls p q) = [])).
      { intros base Hb. split; [apply Heos; exact Hb|].
        intros q Hq.
        rewrite (newSinkCalls_app p q [SourceEndOfStream]); [reflexivity|].
        rewrite Hq. cbn. rewrite Hb. reflexivity. }
      subst p3. destruct (endOfClusters_ _); [|apply Hsame; exact Hs1].
      destruct (aud _) as [a|]; [destruct (endOfClusters_ a)|];
        first [apply Hend; exact Hs1 | apply Hsame; exact Hs1]. }
    apply (proj2 H3). exact Hsk.
  - unfold sendPartialClusters.
    set (audioStep := match aud p with Some _ => _ | None => _ end).
    assert (Ha : sink (snd audioStep) = sink p /\
                 state (snd audioStep) = state p).
    { subst audioStep. destruct (aud p) as [a|]; [|split; reflexivity].
      destruct (if _ : bool then front a else _) as [[data|] a'];
        [|split; reflexivity].
      rewrite appendIfData_idle by exact Hst. split; reflexivity. }
    destruct audioStep as [c1 p1]. cbn [snd] in Ha. destruct Ha as [Hs1 Hst1].
    destruct c1 as [[]|]; [|apply Hnil; exact Hs1].
    destruct (front (vid p1)) as [[data|] v']; [|apply Hnil; exact Hs1].
    rewrite appendIfData_idle by (cbn; congruence).
    destruct (_ && _); [|apply Hnil; exact Hs1].
    destruct (aud _) as [a|];
      [destruct (negb (empty a)); [|destruct (endOfClusters_ a)]|];
      cbn [snd];
      first [apply Heos; exact Hs1 | apply Hnil; exact Hs1].
Qed.

Lemma no_append_unless_loading_witness :
  appended (newSinkCalls stoppedPlayer (snd (sendClusters stoppedPlayer)))
    = [] /\
  appended (newSinkCalls stoppedPlayer
              (snd (sendPartialClusters stoppedPlayer))) = [].
Proof.
  apply (no_append_unless_loading stoppedPlayer). discriminate.
Defined.

Lemma requestCluster_cases p r s bytesRead seqNum partial :
  requestCluster p r s bytesRead seqNum partial = (Throw, p) \/
  requestCluster p r s bytesRead seqNum partial =
    (Normal tt,
     add_fetch p {| fetchStream := r; fetchCueDesc := cueDesc s;
                    fetchBytesRead := bytesRead; fetchSeqNum := seqNum;
                    fetchPartial := partial |}).
Proof.
  unfold requestCluster.
  destruct (source s) as [src|]; [|left; reflexivity].
  destruct (AdaptiveWebMFile.parser src); [right | left]; reflexivity.
Qed.

(** X23.  [fetchMoreClusters] and [fetchPartialClusters] start at most
    one download per stream.  Every download they start is for a stream
    that wanted a new cluster (not at its end, not fetching already,
    queue below its threshold), asks for that stream's current cue
    descriptor from byte 0 on, carries the player's current seek
    sequence number, and leaves the stream marked as fetching. *)
Theorem fetchClusters_requests (partial : bool) (p : DashPlayer.t) :
  let p' := snd (fetchClusters partial p) in
  exists new,
    fetches p' = fetches p ++ new /\
    (List.length new <= 2)%nat /\
    NoDup (map fetchStream new) /\
    Forall (fun q =>
              fetchSeqNum q = seekSequenceNum p /\
              fetchPartial q = partial /\
              fetchBytesRead q = 0 /\
              exists s s',
                getStream p (fetchStream q) = Some s /\
                addNewCluster s = true /\
                fetchCueDesc q = cueDesc s /\
                getStream p' (fetchStream q) = Some s' /\
                fetchingClusters_ s' = true) new.
Proof.
  unfold fetchClusters.
  set (v := vid p).
  destruct (addNewCluster v &&
            (if Qlt_le_dec _ (audioVideoBufferThreshold p) then true else false))
    eqn:Hv.
  - apply andb_prop in Hv as [Hnew _].
    destruct (requestCluster_cases (set_vid p (set_fetchingClusters v true))
                Video (set_fetchingClusters v true) 0 (seekSequenceNum p)
                partial) as [-> | ->].
    + exists []. cbn. rewrite app_nil_r.
      repeat split; [lia | constructor | constructor].
    + set (q1 := {| fetchStream := Video |}).
      set (p1 := add_fetch _ q1).
      assert (Hq1 : forall p',
                 vid p' = set_fetchingClusters v true ->
                 fetchSeqNum q1 = seekSequenceNum p /\
                 fetchPartial q1 = partial /\
                 fetchBytesRead q1 = 0 /\
                 exists s s',
                   getStream p (fetchStream q1) = Some s /\
                   addNewCluster s = true /\
                   fetchCueDesc q1 = cueDesc s /\
                   getStream p' (fetchStream q1) = Some s' /\
                   fetchingClusters_ s' = true).
      { intros p' Hp'. repeat split.
        exists v, (set_fetchingClusters v true). cbn.
        rewrite Hp'. repeat split. exact Hnew. }
      destruct (aud p1) as [a|] eqn:Ha.
      * destruct (addNewCluster a && _) eqn:Hau.
        -- apply andb_prop in Hau as [Hnewa _].
           destruct (requestCluster_cases
                       (set_aud p1 (Some (set_fetchingClusters a true)))
                       Audio (set_fetchingClusters a true) 0
                       (seekSequenceNum p1) partial) as [-> | ->].
           ++ exists [q1]. cbn [snd]. repeat split.
              ** cbn. lia.
              ** cbn. constructor; [intros []|constructor].
              ** constructor; [|constructor]. apply Hq1. reflexivity.
           ++ set (q2 := {| fetchStream := Audio |}).
              exists [q1; q2]. cbn [snd]. repeat split.
              ** cbn. rewrite <- app_assoc. reflexivity.
              ** cbn. lia.
              ** cbn. constructor; [intros [H|[]]; discriminate H|].
                 constructor; [intros []|constructor].
              ** constructor; [apply Hq1; reflexivity|].
                 constructor; [|constructor]. repeat split.
                 exists a, (set_fetchingClusters a true). cbn.
                 repeat split; try assumption.
        -- exists [q1]. cbn [snd]. repeat split.
           ++ cbn. lia.
           ++ cbn. constructor; [intros []|constructor].
           ++ constructor; [|constructor]. apply Hq1. reflexivity.
      * exists [q1]. cbn [snd]. repeat split.
        -- cbn. lia.
        -- cbn. constructor; [intros []|constructor].
        -- constructor; [|constructor]. apply Hq1. reflexivity.
  - destruct (aud p) as [a|] eqn:Ha.
    + destruct (addNewCluster a && _) eqn:Hau.
      * apply andb_prop in Hau as [Hnewa _].
        destruct (requestCluster_cases
                    (set_aud p (Some (set_fetchingClusters a true)))
                    Audio (set_fetchingClusters a true) 0
                    (seekSequenceNum p) partial) as [-> | ->].
        -- exists []. cbn. rewrite app_nil_r.
           repeat split; [lia | constructor | constructor].
        -- set (q2 := {| fetchStream := Audio |}).
           exists [q2]. cbn [snd]. repeat split.
           ++ cbn. lia.
           ++ cbn. constructor; [intros []|constructor].
           ++ constructor; [|constructor]. repeat split.
              exists a, (set_fetchingClusters a true). cbn.
              repeat split; try assumption.
      * exists []. cbn. rewrite app_nil_r.
        repeat split; [lia | constructor | constructor].
    + exists []. cbn. rewrite app_nil_r.
      repeat split; [lia | constructor | constructor].
Qed.

(** X24.  A download that fails ([null] data) for the current seek
    sequence number while LOADING is handled alike by both callbacks:
    the player goes to ERROR, a decode error is signalled to the media
    element exactly when its source is open, nothing is queued and no
    download or timer is started, and the stream is marked as ended and
    no longer fetching, so it never asks for a cluster again. *)
Theorem failed_download_reports_error
        (checkVideoStreamFutureTime : DashPlayer.t -> DashPlayer.t)
        (p : DashPlayer.t) (r : StreamRef) (stream : AdaptiveWebMStream.t)
        (nextCueDesc : option CueDesc) :
  getStream p r = Some stream ->
  state p = LOADING ->
  representationId stream <> None ->
  let p1 := snd (onClusterDownloadedDesc checkVideoStreamFutureTime
                   p r nextCueDesc (seekSequenceNum p) None) in
  let p2 := snd (onPartialCueDescDownload checkVideoStreamFutureTime
                   p r nextCueDesc (seekSequenceNum p) None) in
  p1 = p2 /\
  state p1 = ERROR /\
  newSinkCalls p p1 = (if sourceOpen p then [SourceDecodeError] else []) /\
  queues p1 = queues p /\
  fetches p1 = fetches p /\ timers p1 = timers p /\
  exists s', getStream p1 r = Some s' /\
             endOfClusters_ s' = true /\ fetchingClusters_ s' = false /\
             addNewCluster s' = false.
Proof.
  intros Hs Hst Hrep.
  unfold onClusterDownloadedDesc, onPartialCueDescDownload.
  rewrite Hs, Hst, Z.eqb_refl. cbn [State_eqb negb].
  destruct (representationId stream) as [rid|]; [|congruence].
  cbn [snd]. split; [reflexivity|].
  unfold reportParseError, changeState.
  assert (Hopen : sourceOpen (set_state
                     (setStream p r
                        (set_endOfClusters (set_fetchingClusters stream false)
                                           true)) ERROR) = sourceOpen p)
    by (destruct r; reflexivity).
  rewrite Hopen.
  destruct (sourceOpen p).
  - repeat split; try (destruct r; reflexivity).
    + apply newSinkCalls_app. destruct r; reflexivity.
    + destruct r; cbn in *; [injection Hs as <-; reflexivity|].
      unfold queues. cbn. rewrite Hs. reflexivity.
    + exists (set_endOfClusters (set_fetchingClusters stream false) true).
      split; [destruct r; reflexivity|]. repeat split.
  - repeat split; try (destruct r; reflexivity).
    + apply newSinkCalls_nil. destruct r; reflexivity.
    + destruct r; cbn in *; [injection Hs as <-; reflexivity|].
      unfold queues. cbn. rewrite Hs. reflexivity.
    + exists (set_endOfClusters (set_fetchingClusters stream false) true).
      split; [destruct r; reflexivity|]. repeat split.
Qed.

Lemma failed_download_reports_error_witness :
  state (snd (onClusterDownloadedDesc (fun q => q) seekedPlayer Video None 1
                None)) = ERROR /\
  newSinkCalls seekedPlayer
    (snd (onClusterDownloadedDesc (fun q => q) seekedPlayer Video None 1 None))
    = [SourceDecodeError].
Proof.
  destruct (failed_download_reports_error (fun q => q) seekedPlayer Video
              _ None eq_refl eq_refl ltac:(discriminate))
    as (_ & H1 & H2 & _).
  split; [exact H1 | exact H2].
Defined.

Lemma front_Throw s s' :
  front s = (Throw, s') -> s' = s /\ clusterQueue s <> [].
Proof.
  unfold front. destruct (clusterQueue s); [discriminate|].
  destruct (cueDescQueue s); [|discriminate].
  intros [= <-]. split; [reflexivity | discriminate].
Qed.

Lemma checkFront_Throw s t s' :
  checkFront s t = (Throw, s') -> s' = s /\ clusterQueue s <> [].
Proof.
  unfold checkFront. destruct (clusterQueue s); [discriminate|].
  destruct (cueDescQueue s); [|destruct (Qle_bool _ _); discriminate].
  intros [= <-]. split; [reflexivity | discriminate].
Qed.

Lemma empty_iff s : empty s = true <-> clusterQueue s = [].
Proof.
  unfold empty. destruct (clusterQueue s); split; congruence.
Qed.

(** X25.  [sendPartialClusters] signals end of stream exactly when,
    after its hand-off, every active stream is at end-of-clusters with
    an empty cluster queue. *)
Theorem sendPartialClusters_end_of_stream_iff (p : DashPlayer.t)
        (c : Completion unit) (p' : DashPlayer.t) :
  sendPartialClusters p = (c, p') ->
  (In SourceEndOfStream (newSinkCalls p p') <-> allDrained p').
Proof.
  intros Hrun. split;
    [apply (sendPartialClusters_end_of_stream_only_when_drained p c p' Hrun)|].
  intros [[Hveoc Hvq] Hadr]. revert Hrun. unfold sendPartialClusters.
  set (audioStep := match aud p with Some _ => _ | None => _ end).
  assert (Ha : (fst audioStep = Throw /\
                exists a, aud (snd audioStep) = Some a /\
                          clusterQueue a <> [] /\
                          vid (snd audioStep) = vid p) \/
               (fst audioStep = Normal tt /\
                exists l, sink (snd audioStep) = sink p ++ l)).
  { subst audioStep. destruct (aud p) as [a|].
    - destruct (if _ : bool then front a else _) as [[data|] a'] eqn:Hres.
      + right. split; [reflexivity|].
        destruct (appendIfData_streams (set_aud p (Some a')) data)
          as (_ & _ & l & Hl & _). exists l. exact Hl.
      + left. split; [reflexivity|]. exists a'. cbn.
        assert (a' = a /\ clusterQueue a <> []) as [-> Hne].
        { destruct (_ && _);
            [apply front_Throw in Hres | apply checkFront_Throw in Hres];
            exact Hres. }
        repeat split. exact Hne.
    - right. split; [reflexivity|]. exists []. cbn. symmetry. apply app_nil_r. }
  destruct audioStep as [c1 p1]. cbn [fst snd] in Ha.
  destruct Ha as [[-> (a & Hau & Hne & _)] | [-> (l1 & Hs1)]].
  { intros [= <- <-]. rewrite Hau in Hadr. destruct Hadr as [_ Hq].
    contradiction. }
  destruct (front (vid p1)) as [[data|] v'] eqn:Hf.
  2:{ intros [= <- <-]. apply front_Throw in Hf as [-> Hne].
      cbn in Hvq. contradiction. }
  destruct (appendIfData_streams (set_vid p1 v') data)
    as (Hv & Hau & l2 & Hs2 & _).
  set (p2 := appendIfData (set_vid p1 v') data) in *.
  cbn [sink set_vid] in Hs2. rewrite Hs1, <- app_assoc in Hs2.
  assert (Heos : In SourceEndOfStream (newSinkCalls p (endOfStream p2))).
  { rewrite (newSinkCalls_app p (endOfStream p2)
               ((l1 ++ l2) ++ [SourceEndOfStream])).
    - apply in_or_app. right. left. reflexivity.
    - cbn. rewrite Hs2, <- app_assoc. reflexivity. }
  destruct (endOfClusters_ (vid p2) && empty (vid p2)) eqn:Hdone.
  - destruct (aud p2) as [a|] eqn:Haud.
    + destruct (negb (empty a)) eqn:Hae.
      * intros [= <- <-]. exfalso. cbn [aud add_timer] in Hadr.
        rewrite Haud in Hadr. destruct Hadr as [_ Hq].
        apply negb_true_iff in Hae.
        apply empty_iff in Hq. congruence.
      * destruct (endOfClusters_ a) eqn:Haeoc.
        -- intros [= <- <-]. exact Heos.
        -- intros [= <- <-]. exfalso. rewrite Haud in Hadr.
           destruct Hadr as [He _]. congruence.
    + intros [= <- <-]. exact Heos.
  - intros [= <- <-]. exfalso.
    apply andb_false_iff in Hdone as [H|H]; [congruence|].
    apply empty_iff in Hvq. congruence.
Qed.

Lemma sendPartialClusters_end_of_stream_iff_witness :
  In SourceEndOfStream (newSinkCalls drainedPlayer (endOfStream drainedPlayer))
  <-> allDrained (endOfStream drainedPlayer).
Proof.
  exact (sendPartialClusters_end_of_stream_iff drainedPlayer (Normal tt)
           (endOfStream drainedPlayer) eq_refl).
Defined.

(** *** End of stream in the running player *)

Lemma setStream_sink p r s : sink (setStream p r s) = sink p.
Proof. destruct r; reflexivity. Qed.

Lemma notifyChunk_sink p r s : sink (notifyChunk p r s) = sink p.
Proof. unfold notifyChunk. destruct (chunkDownloadListener p); reflexivity. Qed.

Lemma reportParseError_sink p :
  sink (reportParseError p) = sink p \/
  sink (reportParseError p) = sink p ++ [SourceDecodeError].
Proof.
  unfold reportParseError, changeState.
  destruct (sourceOpen (set_state p ERROR)); [right|left]; reflexivity.
Qed.

(** A completed partial download calls the media element at most to
    report a decode error. *)
Lemma onPartialCueDescDownload_sink
      (checkVideoStreamFutureTime : DashPlayer.t -> DashPlayer.t)
      p r nextCueDesc seqNum buf :
  (forall q, sink (checkVideoStreamFutureTime q) = sink q) ->
  let p' := snd (onPartialCueDescDownload checkVideoStreamFutureTime
                   p r nextCueDesc seqNum buf) in
  sink p' = sink p \/ sink p' = sink p ++ [SourceDecodeError].
Proof.
  intros Hcvf. unfold onPartialCueDescDownload.
  destruct (getStream p r) as [stream|]; [|left; reflexivity].
  cbv zeta.
  set (cueFinished := match nextCueDesc with
                      | Some next => negb _ | None => true end).
  clearbody cueFinished.
  destruct (State_eqb (state p) SEEKING).
  { destruct (logCueArgs stream buf); [|left; reflexivity].
    destruct cueFinished;
      left; cbn [snd add_timer sink]; [apply setStream_sink | reflexivity]. }
  destruct (State_eqb (state p) STOPPED).
  { destruct (logCueArgs stream buf); left; cbn [snd];
      [apply setStream_sink | reflexivity]. }
  destruct (negb (State_eqb (state p) LOADING)).
  { left. cbn [snd]. apply setStream_sink. }
  destruct (negb (seqNum =? seekSequenceNum p)).
  { destruct (logCueArgs stream buf); [|left; reflexivity].
    destruct cueFinished;
      left; cbn [snd]; [apply setStream_sink | reflexivity]. }
  destruct buf as [b|].
  - left. destruct cueFinished.
    + destruct nextCueDesc as [next|].
      * match goal with
        | |- context [fetchPartialClusters ?q] =>
            pose proof (fetchClusters_frame true q) as (_ & Hs & _);
            assert (Hq : sink q = sink p);
            [ destruct (checkSwitching_ _); rewrite ?Hcvf;
              rewrite setStream_sink, notifyChunk_sink, setStream_sink;
              reflexivity
            | unfold fetchPartialClusters;
              destruct (fetchClusters true q) as [[[]|] p2] ]
        end; cbn [snd] in Hs |- *.
        -- destruct (getStream _ r); cbn [snd]; unfold add_timer;
             cbn [sink]; congruence.
        -- congruence.
      * destruct (getStream _ r); cbn [snd]; unfold add_timer; cbn [sink];
          rewrite setStream_sink, notifyChunk_sink, setStream_sink;
          reflexivity.
    + destruct (getStream _ r); cbn [snd]; unfold add_timer; cbn [sink];
        apply setStream_sink.
  - destruct (representationId stream); [|left; reflexivity].
    cbn [snd].
    destruct (reportParseError_sink
                (setStream p r
                   (set_endOfClusters (set_fetchingClusters stream false)
                                      true))) as [H|H];
      rewrite setStream_sink in H; [left|right]; exact H.
Qed.

(** C6.  A step of the running player signals end of stream only
    when, after it, the video stream and the audio stream, if there is
    one, are at end-of-clusters with an empty cluster queue.  The steps
    are those of the partial-cluster cycle, which holds the only call of
    [endOfStream] the player can reach; the bitrate-switch check is any
    function that leaves the sink alone, as [checkVideoStreamFutureTime]
    and [switchVideoStream] do. *)
Theorem end_of_stream_only_when_drained
        (checkVideoStreamFutureTime : DashPlayer.t -> DashPlayer.t)
        (p p' : DashPlayer.t) :
  (forall q, sink (checkVideoStreamFutureTime q) = sink q) ->
  liveStep checkVideoStreamFutureTime p p' ->
  In SourceEndOfStream (newSinkCalls p p') ->
  allDrained p'.
Proof.
  intros Hcvf Hstep Heos.
  destruct Hstep as [p c p' Hrun | p r next seqNum buf c p' Hrun
                    | p c p' Hrun].
  - exfalso. unfold fetchPartialClusters in Hrun.
    destruct (fetchClusters_frame true p) as (_ & Hs & _).
    rewrite Hrun in Hs. cbn [snd] in Hs.
    rewrite (newSinkCalls_nil p p' Hs) in Heos. destruct Heos.
  - exfalso.
    pose proof (onPartialCueDescDownload_sink checkVideoStreamFutureTime
                  p r next seqNum buf Hcvf) as Hs.
    rewrite Hrun in Hs. cbn [snd] in Hs.
    destruct Hs as [Hs|Hs].
    + rewrite (newSinkCalls_nil p p' Hs) in Heos. destruct Heos.
    + rewrite (newSinkCalls_app p p' _ Hs) in Heos.
      destruct Heos as [H|[]]. discriminate H.
  - exact (sendPartialClusters_end_of_stream_only_when_drained p c p'
             Hrun Heos).
Qed.

Lemma end_of_stream_only_when_drained_witness :
  liveStep (fun q => q) drainedPlayer (endOfStream drainedPlayer) /\
  In SourceEndOfStream (newSinkCalls drainedPlayer (endOfStream drainedPlayer)) /\
  allDrained (endOfStream drainedPlayer).
Proof.
  assert (Hstep : liveStep (fun q => q) drainedPlayer
                    (endOfStream drainedPlayer)).
  { apply (StepSend _ drainedPlayer (Normal tt)). reflexivity. }
  assert (Heos : In SourceEndOfStream
                   (newSinkCalls drainedPlayer (endOfStream drainedPlayer))).
  { left. reflexivity. }
  split; [exact Hstep|]. split; [exact Heos|].
  exact (end_of_stream_only_when_drained (fun q => q) drainedPlayer
           (endOfStream drainedPlayer) (fun q => eq_refl) Hstep Heos).
Defined.

End PlayerExtra.
